(** * Detection evaluation (train/sunrgbd_eval/eval_det.py)

    A shallow embedding of [voc_ap], [eval_det_cls] and [eval_det].

    - Numbers.  The program computes in binary64.  Every definition below is
      written once, over an interface [Scalar] of the operations the program
      uses, and read at two instances: [float] (Rocq's primitive binary64
      numbers, the arithmetic the program runs) and [Q] (the same program in
      exact arithmetic).
    - Objects.  Python dictionaries and lists are objects in a store; the
      evaluator receives references.  [np.array(...)] and [[False] * n]
      allocate, [R['det'][jmax] = 1] writes through a reference.
    - Exceptions.  A computation returns [Ok v] or [Raise e], next to the
      store it leaves behind. *)

From Stdlib Require Import ZArith QArith Qround Lqa Lia List String.
From Stdlib Require Import Uint63 Floats.
From stdpp Require Import base option list gmap strings.

Local Open Scope Z_scope.

(* ===================================================================== *)
(** ** Scalars *)
(* ===================================================================== *)

(** The operations of a numpy float64 scalar that the program uses.
    [of_Z n] is [float(n)]; [ltb a b] is [a < b], [leb a b] is [a <= b],
    [eqb a b] is [a == b]; [above_ninf a] is [a > -np.inf]; [ceil] is the
    integer [np.arange] takes for its length. *)
Class Scalar (F : Type) := {
  of_Z : Z → F;
  add : F → F → F;
  sub : F → F → F;
  mul : F → F → F;
  div : F → F → F;
  neg : F → F;
  ltb : F → F → bool;
  leb : F → F → bool;
  eqb : F → F → bool;
  above_ninf : F → bool;
  ceil : F → Z;
}.

(** [ceil] of a binary64 number, read off its sign, mantissa and exponent
    (0 for an infinity or a NaN, where numpy's [arange] raises). *)
Definition float_ceil (x : float) : Z :=
  match Prim2SF x with
  | S754_finite s m e =>
      let num := Z.pos m in
      if Z.leb 0 e then (if s then - (num * 2 ^ e) else num * 2 ^ e)
      else if s then - (num / 2 ^ (- e)) else - ((- num) / 2 ^ (- e))
  | _ => 0
  end.

Definition float_of_Z (z : Z) : float :=
  if Z.ltb z 0 then PrimFloat.opp (PrimFloat.of_uint63 (Uint63.of_Z (- z)))
  else PrimFloat.of_uint63 (Uint63.of_Z z).

(** binary64, round to nearest even: the arithmetic of the program. *)
#[export] Instance float_scalar : Scalar float := {|
  of_Z := float_of_Z;
  add := PrimFloat.add;
  sub := PrimFloat.sub;
  mul := PrimFloat.mul;
  div := PrimFloat.div;
  neg := PrimFloat.opp;
  ltb := PrimFloat.ltb;
  leb := PrimFloat.leb;
  eqb := PrimFloat.eqb;
  above_ninf := PrimFloat.ltb neg_infinity;
  ceil := float_ceil;
|}.

(** Exact arithmetic.  There is no infinity and no NaN: every number is above
    [-inf], and a quotient by zero is 0 here where binary64 gives an infinity
    or a NaN. *)
#[export] Instance Q_scalar : Scalar Q := {|
  of_Z := inject_Z;
  add := Qplus;
  sub := Qminus;
  mul := Qmult;
  div := Qdiv;
  neg := Qopp;
  ltb := λ a b, negb (Qle_bool b a);
  leb := Qle_bool;
  eqb := Qeq_bool;
  above_ninf := λ _, true;
  ceil := Qceiling;
|}.

(** Two laws of the comparisons, which hold in binary64 as well as in exact
    arithmetic: of two equal numbers neither is below the other, and a number above
    another one is above [-inf]. *)
Class ScalarCompare (F : Type) `{Scalar F} : Prop := {
  eqb_ltb : ∀ a b : F, eqb a b = true → ltb a b = false ∧ ltb b a = false;
  ltb_above_ninf : ∀ a b : F, ltb a b = true → above_ninf b = true;
}.

(** The order of the numbers above [-inf] (in binary64: every number but
    the NaNs and [-inf]): on them [<] is a strict weak order. *)
Class ScalarOrder (F : Type) `{Scalar F} : Prop := {
  ltb_asym : ∀ a b : F,
    above_ninf a = true → above_ninf b = true →
    ltb a b = true → ltb b a = false;
  ltb_trans : ∀ a b c : F,
    above_ninf a = true → above_ninf b = true → above_ninf c = true →
    ltb a b = true → ltb b c = true → ltb a c = true;
  ltb_ntrans : ∀ a b c : F,
    above_ninf a = true → above_ninf b = true → above_ninf c = true →
    ltb a b = false → ltb b c = false → ltb a c = false;
}.

Section numpy.
Context {F : Type} `{Scalar F}.

(** Decimal literals of the source: a literal denotes the correctly
    rounded quotient of its digits by the power of ten. *)
Definition lit_0 : F := of_Z 0.
Definition lit_1 : F := of_Z 1.
Definition lit_11 : F := of_Z 11.
Definition lit_0_1 : F := div (of_Z 1) (of_Z 10).
Definition lit_1_1 : F := div (of_Z 11) (of_Z 10).
(** [np.finfo(np.float64).eps], 2^-52. *)
Definition float64_eps : F := div (of_Z 1) (of_Z (2 ^ 52)).

(** [np.maximum(a, b)]: the larger one; a NaN (the only value with
    [a != a]) wins. *)
Definition maximum (a b : F) : F :=
  if eqb a a then (if eqb b b then (if ltb a b then b else a) else b) else a.

(** [np.arange(start, stop, step)] for floats: [ceil((stop - start) / step)]
    values; the first two are [start] and [start + step], the others
    [start + i * delta] with [delta] the difference of the first two. *)
Definition arange (start stop step : F) : list F :=
  let n := Z.to_nat (ceil (div (sub stop start) step)) in
  let delta := sub (add start step) start in
  map (λ i : nat,
         match i with
         | O => start
         | S O => add start step
         | _ => add start (mul (of_Z (Z.of_nat i)) delta)
         end) (seq 0 n).

(** [np.sum] of a float array.  numpy adds eight or more numbers in
    blocks; the order below is left to right, which gives the same number
    in exact arithmetic and, in binary64, for fewer than eight addends. *)
Definition np_sum (l : list F) : F := fold_left add l lit_0.

(** [np.cumsum]: running sums, left to right. *)
Fixpoint cumsum_from (acc : F) (l : list F) : list F :=
  match l with
  | [] => []
  | x :: l' => let acc' := add acc x in acc' :: cumsum_from acc' l'
  end.
Definition cumsum (l : list F) : list F :=
  match l with
  | [] => []
  | x :: l' => x :: cumsum_from x l'
  end.

(** [np.max] of a non-empty array. *)
Definition np_max (x : F) (l : list F) : F := fold_left maximum l x.

(** [np.argsort(a)]: indices that sort [a] in ascending order.  Modelled as
    a stable insertion sort over the (index, key) pairs.  numpy's default
    sort does not promise an order among equal keys, and it puts a NaN key
    last, where the sort below leaves it at the place [<] gives it: the two
    agree on keys that are numbers, no two of them equal. *)
Fixpoint argsort_insert (x : nat * F) (sorted : list (nat * F))
    : list (nat * F) :=
  match sorted with
  | [] => [x]
  | y :: rest =>
      if ltb x.2 y.2 then x :: y :: rest else y :: argsort_insert x rest
  end.
Definition argsort (a : list F) : list nat :=
  (fold_left (λ sorted x, argsort_insert x sorted) (imap pair a) []).*1.
End numpy.

(* ===================================================================== *)
(** ** Exceptions *)
(* ===================================================================== *)

(** The exceptions the modelled code can raise.  [OSError] stands for the
    errors of the file system calls (FileNotFoundError, PermissionError and
    the like).  [BadReference] is the model's own: a reference to no
    object, which Python cannot build. *)
Inductive exn :=
  KeyError | IndexError | TypeError | UnboundLocalError | ValueError
  | OSError | BadReference.

Inductive result (A : Type) :=
  | Ok (a : A)
  | Raise (e : exn).
Arguments Ok {A} a.
Arguments Raise {A} e.

#[export] Instance result_ret : MRet result := λ A a, Ok a.
#[export] Instance result_bind : MBind result := λ A B f r,
  match r with Ok a => f a | Raise e => Raise e end.

Definition or_raise {A} (e : exn) (o : option A) : result A :=
  match o with Some a => Ok a | None => Raise e end.

(** A loop [for x in l: s = body(s, x)] in a monad. *)
Fixpoint foldM {M : Type → Type} `{MBind M, MRet M} {S A : Type}
    (body : S → A → M S) (s : S) (l : list A) : M S :=
  match l with
  | [] => mret s
  | x :: l' => s' ← body s x; foldM body s' l'
  end.

(* ===================================================================== *)
(** ** voc_ap *)
(* ===================================================================== *)

Section voc_ap.
Context {F : Type} `{Scalar F}.

(** [a[mask]] for a boolean array [mask]: numpy raises IndexError unless
    the mask is as long as [a]. *)
Fixpoint compress (a : list F) (mask : list bool) : list F :=
  match a, mask with
  | x :: a', b :: mask' => if b then x :: compress a' mask' else compress a' mask'
  | _, _ => []
  end.
Definition bool_index (a : list F) (mask : list bool) : result (list F) :=
  if decide (length mask = length a) then Ok (compress a mask)
  else Raise IndexError.

(** [np.max(a)]: ValueError on an empty array. *)
Definition np_max_arr (a : list F) : result F :=
  match a with
  | [] => Raise ValueError
  | x :: a' => Ok (np_max x a')
  end.

(** [np.sum(mask)] for a boolean array: how many are True. *)
Definition count_true (mask : list bool) : nat := length (filter (λ b, b = true) mask).

(** The body of [for t in np.arange(0., 1.1, 0.1)]. *)
Definition voc_ap_07_step (rec prec : list F) (ap t : F) : result F :=
  let mask := (λ r, leb t r) <$> rec in
  p ← (if Nat.eqb (count_true mask) 0 then Ok lit_0
       else sel ← bool_index prec mask; np_max_arr sel);
  Ok (add ap (div p lit_11)).

Definition voc_ap_07 (rec prec : list F) : result F :=
  foldM (voc_ap_07_step rec prec) lit_0 (arange lit_0 lit_1_1 lit_0_1).

(** [mpre[i - 1] = np.maximum(mpre[i - 1], mpre[i])] *)
Definition envelope_step (mpre : list F) (i : nat) : result (list F) :=
  a ← or_raise IndexError (mpre !! (i - 1)%nat);
  b ← or_raise IndexError (mpre !! i);
  Ok (<[(i - 1)%nat := maximum a b]> mpre).

(** [range(n, 0, -1)]: n, n-1, ..., 1. *)
Definition range_down (n : nat) : list nat := rev (seq 1 n).

(** [np.where(a != b)[0]] for two arrays of one length: the indices,
    counted from [i], at which the two differ. *)
Fixpoint where_ne_from (i : nat) (a b : list F) : list nat :=
  match a, b with
  | x :: a', y :: b' =>
      if eqb x y then where_ne_from (S i) a' b'
      else i :: where_ne_from (S i) a' b'
  | _, _ => []
  end.
Definition where_ne (a b : list F) : list nat := where_ne_from 0 a b.

(** One term [(mrec[i + 1] - mrec[i]) * mpre[i + 1]]. *)
Definition area_term (mrec mpre : list F) (i : nat) : result F :=
  a ← or_raise IndexError (mrec !! (i + 1)%nat);
  b ← or_raise IndexError (mrec !! i);
  c ← or_raise IndexError (mpre !! (i + 1)%nat);
  Ok (mul (sub a b) c).

Definition voc_ap_exact (rec prec : list F) : result F :=
  let mrec := [lit_0] ++ rec ++ [lit_1] in
  let mpre := [lit_0] ++ prec ++ [lit_0] in
  mpre ← foldM envelope_step mpre (range_down (length mpre - 1));
  let i := where_ne (tail mrec) (removelast mrec) in
  terms ← mapM (area_term mrec mpre) i;
  Ok (np_sum terms).

Definition voc_ap (rec prec : list F) (use_07_metric : bool) : result F :=
  if use_07_metric then voc_ap_07 rec prec else voc_ap_exact rec prec.
End voc_ap.

(* ===================================================================== *)
(** ** The store *)
(* ===================================================================== *)

(** References to Python objects, and image ids (dictionary keys). *)
Definition loc := positive.
Definition img_id := nat.

Section store.
Context {F Box : Type}.

(** The objects the evaluator meets.  A dictionary keeps its entries in
    insertion order.  An entry of a [det] list is [False] or, once the
    box is claimed, [1]: [true] stands for the truthy [1]. *)
Inductive obj :=
  | OClassDict (d : list (string * loc))   (* {classname: {img_id: ...}} *)
  | OImgDict (d : list (img_id * loc))     (* {img_id: [...]} *)
  | OBoxList (l : list Box)                (* [bbox] *)
  | OPredList (l : list (Box * F))         (* [(bbox, score)] *)
  | OArray (a : list Box)                  (* ndarray, one row per box *)
  | ODetList (l : list bool).              (* [False] * n *)

Local Abbreviation heap := (gmap loc obj).

(** A statement: from a store to a result and the store left behind. *)
Definition M (A : Type) : Type := heap → result A * heap.

#[export] Instance M_ret : MRet M := λ A a h, (Ok a, h).
#[export] Instance M_bind : MBind M := λ A B f m h,
  match m h with
  | (Ok a, h') => f a h'
  | (Raise e, h') => (Raise e, h')
  end.

Definition raise {A} (e : exn) : M A := λ h, (Raise e, h).
Definition lift {A} (r : result A) : M A := λ h, (r, h).

(** A new object gets a reference no object of the store has. *)
Definition alloc (o : obj) : M loc := λ h,
  let l := fresh (dom h) in (Ok l, <[l := o]> h).
Definition deref (l : loc) : M obj := λ h,
  (or_raise BadReference (h !! l), h).
Definition store (l : loc) (o : obj) : M unit := λ h, (Ok (), <[l := o]> h).

(** First entry with the key, as a dictionary holds one per key. *)
Fixpoint assoc {K V} `{EqDecision K} (k : K) (d : list (K * V)) : option V :=
  match d with
  | [] => None
  | (k', v) :: d' => if decide (k = k') then Some v else assoc k d'
  end.

Definition read_class_dict (l : loc) : M (list (string * loc)) :=
  o ← deref l; match (o : obj) with OClassDict d => mret d | _ => raise TypeError end.
Definition read_img_dict (l : loc) : M (list (img_id * loc)) :=
  o ← deref l; match (o : obj) with OImgDict d => mret d | _ => raise TypeError end.
(** A sequence of boxes, as [np.array(...)] takes it: a list or an array. *)
Definition read_boxes (l : loc) : M (list Box) :=
  o ← deref l;
  match (o : obj) with OBoxList b | OArray b => mret b | _ => raise TypeError end.
Definition read_pred_list (l : loc) : M (list (Box * F)) :=
  o ← deref l; match (o : obj) with OPredList p => mret p | _ => raise TypeError end.
Definition read_array (l : loc) : M (list Box) :=
  o ← deref l; match (o : obj) with OArray b => mret b | _ => raise TypeError end.
Definition read_det_list (l : loc) : M (list bool) :=
  o ← deref l; match (o : obj) with ODetList b => mret b | _ => raise TypeError end.

(** [d.keys()], [d[k]] and [k in d] on a dictionary object. *)
Definition class_keys (l : loc) : M (list string) :=
  d ← read_class_dict l; mret d.*1.
Definition class_getitem (l : loc) (k : string) : M loc :=
  d ← read_class_dict l; lift (or_raise KeyError (assoc k d)).
Definition img_keys (l : loc) : M (list img_id) :=
  d ← read_img_dict l; mret d.*1.
Definition img_getitem (l : loc) (k : img_id) : M loc :=
  d ← read_img_dict l; lift (or_raise KeyError (assoc k d)).
Definition img_contains (l : loc) (k : img_id) : M bool :=
  d ← read_img_dict l; mret (bool_decide (is_Some (assoc k d))).

(** [l[j] = v] on a [det] list. *)
Definition det_setitem (l : loc) (j : nat) (v : bool) : M unit :=
  dets ← read_det_list l;
  if decide (j < length dets)%nat then store l (ODetList (<[j := v]> dets))
  else raise IndexError.
End store.
Arguments obj : clear implicits.
(** The store: the objects by reference. *)
Abbreviation heap F Box := (gmap loc (obj F Box)).
Arguments M : clear implicits.

(* ===================================================================== *)
(** ** eval_det_cls and eval_det *)
(* ===================================================================== *)

(** [{'bbox': ..., 'det': ...}]: the two objects of one image's record. *)
Record class_rec := ClassRec { bbox : loc; det : loc }.

(** The variables the marking loop assigns: the arrays [tp] and [fp], and
    [jmax], unbound ([None]) until the overlap scan first assigns it. *)
Record mark_state (F : Type) := MarkState {
  tp : list F;
  fp : list F;
  jmax : option nat;
}.
Arguments MarkState {F} tp fp jmax.
Arguments tp {F} m.
Arguments fp {F} m.
Arguments jmax {F} m.

Section eval_det.
Context {F : Type} `{Scalar F} {Box : Type}.
(** [get_iou_cc]: the IoU of two boxes, computed outside this file's
    source ([box_ops_cc]); it reads its arguments and changes nothing. *)
Variable get_iou_cc : Box → Box → F.

Local Abbreviation M := (M F Box).

(** "construct gt objects": the first loop. *)
Definition construct_gt_step (gt : loc)
    (acc : gmap img_id class_rec * Z) (img : img_id)
    : M (gmap img_id class_rec * Z) :=
  l ← img_getitem gt img;
  boxes ← read_boxes l;
  bbox ← alloc (OArray boxes);                              (* np.array(gt[img_id]) *)
  det ← alloc (ODetList (replicate (length boxes) false));  (* [False] * len(bbox) *)
  mret (<[img := ClassRec bbox det]> acc.1, acc.2 + Z.of_nat (length boxes)).

Definition construct_gt (gt : loc) : M (gmap img_id class_rec * Z) :=
  keys ← img_keys gt;
  foldM (construct_gt_step gt) (∅, 0) keys.

(** "pad empty list to all other imgids": the second loop. *)
Definition pad_empty_step (gt : loc)
    (class_recs : gmap img_id class_rec) (img : img_id)
    : M (gmap img_id class_rec) :=
  present ← img_contains gt img;
  if (present : bool) then mret class_recs
  else
    bbox ← alloc (OArray []);
    det ← alloc (ODetList []);
    mret (<[img := ClassRec bbox det]> class_recs).

Definition pad_empty (pred gt : loc) (class_recs : gmap img_id class_rec)
    : M (gmap img_id class_rec) :=
  keys ← img_keys pred;
  foldM (pad_empty_step gt) class_recs keys.

(** "construct dets": [image_ids], [confidence] and [BB], appended to in
    the order of the predictions. *)
Definition append_det (img : img_id)
    (acc : list img_id * list F * list Box) (item : Box * F)
    : list img_id * list F * list Box :=
  let '(image_ids, confidence, BB) := acc in
  (image_ids ++ [img], confidence ++ [item.2], BB ++ [item.1]).

Definition construct_dets_step (pred : loc)
    (acc : list img_id * list F * list Box) (img : img_id)
    : M (list img_id * list F * list Box) :=
  l ← img_getitem pred img;
  items ← read_pred_list l;
  mret (fold_left (append_det img) items acc).

Definition construct_dets (pred : loc) : M (list img_id * list F * list Box) :=
  keys ← img_keys pred;
  foldM (construct_dets_step pred) ([], [], []) keys.

(** [a[ind]] for an index array: IndexError out of range. *)
Definition take_indices {A} (a : list A) (ind : list nat) : result (list A) :=
  mapM (λ x, or_raise IndexError (a !! x)) ind.

(** [iou > ovmax] and [ovmax > ovthresh], with [None] for [-np.inf]. *)
Definition above (iou : F) (ovmax : option F) : bool :=
  match ovmax with None => above_ninf iou | Some o => ltb o iou end.
Definition exceeds (ovmax : option F) (ovthresh : F) : bool :=
  match ovmax with None => false | Some o => ltb ovthresh o end.

(** The loop [for j in range(BBGT.shape[0])]. *)
Definition overlap_step (bb : Box)
    (acc : option F * option nat) (jg : nat * Box) : option F * option nat :=
  let iou := get_iou_cc bb jg.2 in
  if above iou acc.1 then (Some iou, Some jg.1) else acc.

Definition overlap_scan (bb : Box) (BBGT : list Box)
    (ovmax : option F) (jmax : option nat) : option F * option nat :=
  fold_left (overlap_step bb) (imap pair BBGT) (ovmax, jmax).

(** The body of [for d in range(nd)].  [BBGT.size > 0] holds when the
    record has a box (a box has at least one coordinate). *)
Definition mark_det (class_recs : gmap img_id class_rec)
    (image_ids : list img_id) (BB : list Box) (ovthresh : F)
    (st : mark_state F) (d : nat) : M (mark_state F) :=
  img ← lift (or_raise IndexError (image_ids !! d));
  R ← lift (or_raise KeyError (class_recs !! img));
  bb ← lift (or_raise IndexError (BB !! d));
  BBGT ← read_array (bbox R);
  let scan :=
    match BBGT with
    | [] => (None, jmax st)
    | _ => overlap_scan bb BBGT None (jmax st)
    end in
  if exceeds scan.1 ovthresh then
    j ← lift (or_raise UnboundLocalError scan.2);
    dets ← read_det_list (det R);
    flag ← lift (or_raise IndexError (dets !! j));
    if negb (flag : bool) then
      det_setitem (det R) j true;;
      mret (MarkState (<[d := lit_1]> (tp st)) (fp st) scan.2)
    else mret (MarkState (tp st) (<[d := lit_1]> (fp st)) scan.2)
  else mret (MarkState (tp st) (<[d := lit_1]> (fp st)) scan.2).

(** "go down dets and mark TPs and FPs" *)
Definition mark_dets (class_recs : gmap img_id class_rec)
    (image_ids : list img_id) (BB : list Box) (ovthresh : F)
    : M (mark_state F) :=
  let nd := length image_ids in
  foldM (mark_det class_recs image_ids BB ovthresh)
        (MarkState (replicate nd lit_0) (replicate nd lit_0) None)
        (seq 0 nd).

(** "compute precision recall" *)
Definition precision_recall (tp fp : list F) (npos : Z) : list F * list F :=
  let fp := cumsum fp in
  let tp := cumsum tp in
  let rec := (λ t, div t (of_Z npos)) <$> tp in
  let prec :=
    zip_with div tp ((λ x, maximum x float64_eps) <$> zip_with add tp fp) in
  (rec, prec).

Definition eval_det_cls (pred gt : loc) (ovthresh : F) (use_07_metric : bool)
    : M (list F * list F * F) :=
  gts ← construct_gt gt;
  class_recs ← pad_empty pred gt gts.1;
  dets ← construct_dets pred;
  let '(image_ids, confidence, BB) := (dets : list img_id * list F * list Box) in
  let sorted_ind := argsort (neg <$> confidence) in
  BB ← lift (take_indices BB sorted_ind);
  image_ids ← lift (take_indices image_ids sorted_ind);
  st ← mark_dets class_recs image_ids BB ovthresh;
  let '(rec, prec) := precision_recall (tp st) (fp st) gts.2 in
  ap ← lift (voc_ap rec prec use_07_metric);
  mret (rec, prec, ap).

(** The body of [for classname in gt_all.keys()]. *)
Definition eval_det_step (pred_all gt_all : loc) (ovthresh : F)
    (use_07_metric : bool)
    (acc : gmap string (list F) * gmap string (list F) * gmap string F)
    (classname : string)
    : M (gmap string (list F) * gmap string (list F) * gmap string F) :=
  let '(rec, prec, ap) := acc in
  p ← class_getitem pred_all classname;
  g ← class_getitem gt_all classname;
  r ← eval_det_cls p g ovthresh use_07_metric;
  mret (<[classname := r.1.1]> rec, <[classname := r.1.2]> prec,
        <[classname := r.2]> ap).

(** The report, lines 210-229.  After the loop over the classes the
    function joins [result_dir] with a folder name, creates the folder if it
    is missing, then for each class in sorted order logs the AP, plots the
    curve and saves the figure, and at last logs the mean AP.  The block
    reads the three dictionaries and acts on the file system, the logger and
    pyplot's current figure, none of which is an object of the store; what
    reaches the caller is whether it raises.  [report result_dir r] is that
    outcome in the environment of the call: [Ok ()], or the exception that
    [os.makedirs] or [plt.savefig] raises there (a class name "a/b" names a
    file in a folder that does not exist). *)
Variable report :
  string → gmap string (list F) * gmap string (list F) * gmap string F →
  result unit.

(** [eval_det].  [os.path.join(result_dir, 'ap_curves')] raises TypeError
    for the default [result_dir=None], before anything is written. *)
Definition eval_det (pred_all gt_all : loc) (ovthresh : F)
    (use_07_metric : bool) (result_dir : option string)
    : M (gmap string (list F) * gmap string (list F) * gmap string F) :=
  keys ← class_keys gt_all;
  r ← foldM (eval_det_step pred_all gt_all ovthresh use_07_metric)
            (∅, ∅, ∅) keys;
  match result_dir with
  | None => raise TypeError
  | Some dir => lift (report dir r);; mret r
  end.
End eval_det.

(* ===================================================================== *)
(** ** Notions the statements use *)
(* ===================================================================== *)

(** The sum of a list of exact numbers. *)
Fixpoint Qsum (l : list Q) : Q :=
  match l with
  | [] => 0%Q
  | x :: l' => (x + Qsum l')%Q
  end.

(** [p] is the largest precision among the indices whose recall reaches
    [t], or 0 when no recall does. *)
Definition max_prec_at (rec prec : list Q) (t p : Q) : Prop :=
  ((∀ i r, rec !! i = Some r → ¬ (t <= r)%Q) ∧ p = 0%Q) ∨
  ((∃ i r, rec !! i = Some r ∧ (t <= r)%Q ∧ prec !! i = Some p) ∧
   (∀ i r q, rec !! i = Some r → (t <= r)%Q → prec !! i = Some q → (q <= p)%Q)).

(** A number of the unit interval, and a sequence that never decreases. *)
Definition unit_interval (x : Q) : Prop := (0 <= x)%Q ∧ (x <= 1)%Q.
Definition non_decreasing (l : list Q) : Prop :=
  ∀ i a b, l !! i = Some a → l !! S i = Some b → (a <= b)%Q.

(** Indices that increase strictly, starting at [lo] or later. *)
Fixpoint increasing_from (lo : nat) (l : list nat) : Prop :=
  match l with
  | [] => True
  | i :: l' => (lo ≤ i)%nat ∧ increasing_from (S i) l'
  end.

Section claimed.
Context {F : Type} `{Scalar F}.

(** The eleven thresholds as the specification writes them, the decimal
    numbers 0.0, 0.1, ..., 1.0, and the 11-point sum over them. *)
Definition decimal_thresholds : list F :=
  (λ k, div (of_Z k) (of_Z 10)) <$> [0; 1; 2; 3; 4; 5; 6; 7; 8; 9; 10].
Definition voc_ap_07_decimal (rec prec : list F) : result F :=
  foldM (voc_ap_07_step rec prec) lit_0 decimal_thresholds.
End claimed.

Section scan_notions.
Context {F : Type} `{Scalar F} {Box : Type}.
Variable get_iou_cc : Box → Box → F.

(** [ov] is the largest IoU of [bb] with the boxes of [BBGT] and [j] the
    first index that attains it: box [j] has IoU [ov], no box has a larger
    one, and every earlier box has a smaller one. *)
Definition scan_max (bb : Box) (BBGT : list Box) (ov : F) (j : nat) : Prop :=
  (∃ g, BBGT !! j = Some g ∧ ov = get_iou_cc bb g) ∧
  (∀ k g, BBGT !! k = Some g → ltb ov (get_iou_cc bb g) = false) ∧
  (∀ k g, (k < j)%nat → BBGT !! k = Some g → ltb (get_iou_cc bb g) ov = true).
End scan_notions.

Section marking_notions.
Context {F : Type} `{Scalar F}.

(** Every detection is marked once: [tp] and [fp] have one length, and at
    each index one of them holds 1 and the other 0. *)
Definition marked_once (tp fp : list F) : Prop :=
  Forall2 (λ t f, (t = lit_1 ∧ f = lit_0) ∨ (t = lit_0 ∧ f = lit_1)) tp fp.
End marking_notions.

(* ===================================================================== *)
(** ** The evaluator as a function of the contents of its maps *)
(* ===================================================================== *)

(** [eval_det_cls] again, with the records of [class_recs] held as values
    (the boxes and the matched flags of each image) in place of references
    into the store.  The theorems below show that [eval_det_cls] returns
    what this function returns on the contents of the two maps. *)
Section values.
Context {F : Type} `{Scalar F} {Box : Type}.
Variable get_iou_cc : Box → Box → F.

Definition construct_gt_v (gv : list (img_id * list Box))
    : gmap img_id (list Box * list bool) * Z :=
  fold_left (λ acc e,
               (<[e.1 := (e.2, replicate (length e.2) false)]> acc.1,
                acc.2 + Z.of_nat (length e.2)))
            gv (∅, 0).

Definition pad_empty_v (pv : list (img_id * list (Box * F)))
    (gv : list (img_id * list Box))
    (recs : gmap img_id (list Box * list bool))
    : gmap img_id (list Box * list bool) :=
  fold_left (λ recs e,
               if bool_decide (is_Some (assoc e.1 gv)) then recs
               else <[e.1 := ([], [])]> recs)
            pv recs.

Definition construct_dets_v (pv : list (img_id * list (Box * F)))
    : list img_id * list F * list Box :=
  fold_left (λ acc e, fold_left (append_det e.1) e.2 acc) pv ([], [], []).

Definition mark_det_v (image_ids : list img_id) (BB : list Box) (ovthresh : F)
    (s : gmap img_id (list Box * list bool) * mark_state F) (d : nat)
    : result (gmap img_id (list Box * list bool) * mark_state F) :=
  img ← or_raise IndexError (image_ids !! d);
  R ← or_raise KeyError (s.1 !! img);
  bb ← or_raise IndexError (BB !! d);
  let scan :=
    match R.1 with
    | [] => (None, jmax s.2)
    | _ => overlap_scan get_iou_cc bb R.1 None (jmax s.2)
    end in
  if exceeds scan.1 ovthresh then
    j ← or_raise UnboundLocalError scan.2;
    flag ← or_raise IndexError (R.2 !! j);
    if negb (flag : bool) then
      Ok (<[img := (R.1, <[j := true]> R.2)]> s.1,
          MarkState (<[d := lit_1]> (tp s.2)) (fp s.2) scan.2)
    else Ok (s.1, MarkState (tp s.2) (<[d := lit_1]> (fp s.2)) scan.2)
  else Ok (s.1, MarkState (tp s.2) (<[d := lit_1]> (fp s.2)) scan.2).

Definition eval_det_cls_v (pv : list (img_id * list (Box * F)))
    (gv : list (img_id * list Box)) (ovthresh : F) (use_07_metric : bool)
    : result (list F * list F * F) :=
  let gts := construct_gt_v gv in
  let recs := pad_empty_v pv gv gts.1 in
  let dets := construct_dets_v pv in
  let sorted_ind := argsort (neg <$> dets.1.2) in
  BB ← take_indices dets.2 sorted_ind;
  image_ids ← take_indices dets.1.1 sorted_ind;
  let nd := length image_ids in
  s ← foldM (mark_det_v image_ids BB ovthresh)
            (recs, MarkState (replicate nd lit_0) (replicate nd lit_0) None)
            (seq 0 nd);
  let pr := precision_recall (tp s.2) (fp s.2) gts.2 in
  ap ← voc_ap pr.1 pr.2 use_07_metric;
  Ok (pr.1, pr.2, ap).

(** The store holds a prediction map with the contents [pv] at [pred]: a
    dictionary, one entry per key, of lists of (box, score) pairs. *)
Definition holds_pred (h : heap F Box) (pred : loc)
    (pv : list (img_id * list (Box * F))) : Prop :=
  ∃ d, h !! pred = Some (OImgDict d) ∧ NoDup d.*1 ∧
       Forall2 (λ e v, e.1 = v.1 ∧ h !! e.2 = Some (OPredList v.2)) d pv.

(** The store holds a ground-truth map with the contents [gv] at [gt]: a
    dictionary, one entry per key, of lists (or arrays) of boxes. *)
Definition holds_gt (h : heap F Box) (gt : loc)
    (gv : list (img_id * list Box)) : Prop :=
  ∃ d, h !! gt = Some (OImgDict d) ∧ NoDup d.*1 ∧
       Forall2 (λ e v, e.1 = v.1 ∧
                       (h !! e.2 = Some (OBoxList v.2) ∨
                        h !! e.2 = Some (OArray v.2))) d gv.

(** [class_recs] in the store [h] holds the records [recs]: the same
    images; each record's two references lead to its boxes and its flags;
    no [det] list is a [bbox] array or the [det] list of another image; and
    no [det] list is an object of the store [h0] the call started from. *)
Definition recs_rel (h0 h : heap F Box) (class_recs : gmap img_id class_rec)
    (recs : gmap img_id (list Box * list bool)) : Prop :=
  (∀ img, class_recs !! img = None ↔ recs !! img = None) ∧
  (∀ img R v, class_recs !! img = Some R → recs !! img = Some v →
              h !! bbox R = Some (OArray v.1) ∧
              h !! det R = Some (ODetList v.2)) ∧
  (∀ img1 img2 R1 R2,
     class_recs !! img1 = Some R1 → class_recs !! img2 = Some R2 →
     det R1 ≠ bbox R2 ∧ (img1 ≠ img2 → det R1 ≠ det R2)) ∧
  (∀ img R, class_recs !! img = Some R → h0 !! det R = None).
End values.

(* ===================================================================== *)
(** ** Stores of the scenarios *)
(* ===================================================================== *)

Section scenarios.
Context {F : Type} `{Scalar F}.

(** Scenario B: one image (id 0) with one ground-truth box, and two
    predictions of that box with scores 0.9 and 0.5.  Boxes are named by
    numbers; the prediction map is object 1, the ground-truth map object 2. *)
Definition scenario_B : heap F nat :=
  {[ 1%positive := OImgDict [(0%nat, 3%positive)];
     2%positive := OImgDict [(0%nat, 4%positive)];
     3%positive := OPredList [(7%nat, div (of_Z 9) (of_Z 10));
                              (7%nat, div (of_Z 5) (of_Z 10))];
     4%positive := OBoxList [7%nat] ]}.

(** Every pair of boxes overlaps fully: IoU 1.0. *)
Definition iou_one (_ _ : nat) : F := lit_1.

(** A driver call with ground truth for the class "chair" (object 3: one
    image with one box) and a prediction map (object 1) with no entry for
    it; the map of all ground truths is object 2. *)
Definition scenario_no_entry : heap F nat :=
  {[ 1%positive := OClassDict [];
     2%positive := OClassDict [("chair"%string, 3%positive)];
     3%positive := OImgDict [(0%nat, 4%positive)];
     4%positive := OBoxList [7%nat] ]}.

(** The per-class call with an empty prediction map (object 1) and the
    ground truth of [scenario_no_entry]. *)
Definition scenario_no_pred : heap F nat :=
  {[ 1%positive := OImgDict [];
     3%positive := OImgDict [(0%nat, 4%positive)];
     4%positive := OBoxList [7%nat] ]}.

(** Scenario B with the predictions listed the other way round, and as two
    boxes: box 8 with score 0.5 first, then box 7 with score 0.9. *)
Definition scenario_B_reversed : heap F nat :=
  {[ 1%positive := OImgDict [(0%nat, 3%positive)];
     2%positive := OImgDict [(0%nat, 4%positive)];
     3%positive := OPredList [(8%nat, div (of_Z 5) (of_Z 10));
                              (7%nat, div (of_Z 9) (of_Z 10))];
     4%positive := OBoxList [7%nat] ]}.

(** A driver call in which the second class of the ground truth has no
    entry in the prediction map: [pred_all] (object 1) has the class
    "chair" alone, [gt_all] (object 2) the classes "chair" and "table"; the
    maps of "chair" are those of Scenario B. *)
Definition scenario_later_entry : heap F nat :=
  {[ 1%positive := OClassDict [("chair"%string, 3%positive)];
     2%positive := OClassDict [("chair"%string, 4%positive);
                               ("table"%string, 4%positive)];
     3%positive := OImgDict [(0%nat, 5%positive)];
     4%positive := OImgDict [(0%nat, 6%positive)];
     5%positive := OPredList [(7%nat, div (of_Z 9) (of_Z 10));
                              (7%nat, div (of_Z 5) (of_Z 10))];
     6%positive := OBoxList [7%nat] ]}.
End scenarios.

(* ===================================================================== *)
(** ** Notions of the further properties *)
(* ===================================================================== *)

Section record_notions.
Context {Box : Type}.

(** Every record has one flag per box. *)
Definition flags_fit (recs : gmap img_id (list Box * list bool)) : Prop :=
  map_Forall (λ _ v, length v.2 = length v.1) recs.

(** The boxes no detection has claimed yet: the [False] entries of the
    [det] lists of all records. *)
Definition count_false (flags : list bool) : nat :=
  length (filter (λ b, b = false) flags).
Definition unmatched (recs : gmap img_id (list Box * list bool)) : nat :=
  map_fold (λ _ v n, (count_false v.2 + n)%nat) 0%nat recs.
End record_notions.

Section marking_progress.
Context {F : Type} `{Scalar F}.

(** The arrays [tp] and [fp] when the marking loop is about to process
    detection [d] of [nd]: each earlier detection is marked in exactly one of
    the two, and the others are still zero in both. *)
Definition marked_upto (nd d : nat) (tp fp : list F) : Prop :=
  (∀ i, (i < d)%nat →
        (tp !! i = Some lit_1 ∧ fp !! i = Some lit_0) ∨
        (tp !! i = Some lit_0 ∧ fp !! i = Some lit_1)) ∧
  (∀ i, (d ≤ i < nd)%nat → tp !! i = Some lit_0 ∧ fp !! i = Some lit_0).
End marking_progress.

Section further_scenarios.
Context {F : Type} `{Scalar F}.

(** One image (id 0) with one prediction, score 0.9, and an empty list of
    ground-truth boxes.  The prediction map is object 1, the ground-truth
    map object 2. *)
Definition scenario_no_boxes : heap F nat :=
  {[ 1%positive := OImgDict [(0%nat, 3%positive)];
     2%positive := OImgDict [(0%nat, 4%positive)];
     3%positive := OPredList [(7%nat, div (of_Z 9) (of_Z 10))];
     4%positive := OBoxList [] ]}.
End further_scenarios.

Section driver_notions.
Context {F Box : Type}.

(** The store holds, at [pred_all] and [gt_all], two dictionaries by class
    name: [cv] lists the classes of [gt_all], in order, each with the contents
    of its prediction map and of its ground-truth map.  [pred_all] has an
    entry for each of them, and may have others. *)
Definition holds_classes (h : heap F Box) (pred_all gt_all : loc)
    (cv : list (string * (list (img_id * list (Box * F)) *
                          list (img_id * list Box)))) : Prop :=
  ∃ dp dg,
    h !! pred_all = Some (OClassDict dp) ∧
    h !! gt_all = Some (OClassDict dg) ∧
    NoDup dg.*1 ∧
    Forall2 (λ e v, e.1 = v.1 ∧
                    ∃ p, assoc e.1 dp = Some p ∧
                         holds_pred h p v.2.1 ∧ holds_gt h e.2 v.2.2) dg cv.
End driver_notions.

Section driver_scenarios.
Context {F : Type} `{Scalar F}.

(** A driver call.  [pred_all] (object 1) has the classes "table" and
    "chair", [gt_all] (object 2) the class "chair" alone; the maps of
    "chair" are those of Scenario B. *)
Definition scenario_classes : heap F nat :=
  {[ 1%positive := OClassDict [("table"%string, 3%positive);
                               ("chair"%string, 3%positive)];
     2%positive := OClassDict [("chair"%string, 4%positive)];
     3%positive := OImgDict [(0%nat, 5%positive)];
     4%positive := OImgDict [(0%nat, 6%positive)];
     5%positive := OPredList [(7%nat, div (of_Z 9) (of_Z 10));
                              (7%nat, div (of_Z 5) (of_Z 10))];
     6%positive := OBoxList [7%nat] ]}.
End driver_scenarios.

Section envelope_notions.
Context {F : Type} `{Scalar F}.

(** The precision envelope: at each index, the maximum of the entries from
    that index on. *)
Fixpoint running_max (l : list F) : list F :=
  match l with
  | [] => []
  | x :: l' =>
      match running_max l' with
      | [] => [x]
      | y :: r => maximum x y :: y :: r
      end
  end.
End envelope_notions.

Section claim_notions.
Context {F : Type} `{Scalar F} {Box : Type}.
Variable get_iou_cc : Box → Box → F.

(** The predictions of a class as (image, box) pairs, in the order of the
    prediction map. *)
Definition detections (pv : list (img_id * list (Box * F)))
    : list (img_id * Box) :=
  pv ≫= λ e, (λ it, (e.1, it.1)) <$> e.2.

(** The ground-truth box a prediction [bb] claims among [boxes]: the first
    box of largest IoU, when that IoU exceeds the threshold. *)
Definition best_match (ovthresh : F) (boxes : list Box) (bb : Box)
    : option nat :=
  let scan := overlap_scan get_iou_cc bb boxes None None in
  if exceeds scan.1 ovthresh then scan.2 else None.

(** The box, as an (image, index) pair, that the prediction [d] claims
    among the ground-truth boxes of its own image (none for an image
    without ground truth). *)
Definition claim (ovthresh : F) (gv : list (img_id * list Box))
    (d : img_id * Box) : option (img_id * nat) :=
  j ← best_match ovthresh (default [] (assoc d.1 gv)) d.2; Some (d.1, j).

(** The ground-truth boxes, as (image, index) pairs, that at least one
    prediction claims. *)
Definition claimed_boxes (ovthresh : F) (gv : list (img_id * list Box))
    (pv : list (img_id * list (Box * F))) : gset (img_id * nat) :=
  list_to_set (omap (claim ovthresh gv) (detections pv)).
End claim_notions.

(** A list of (index, key) pairs whose keys never decrease. *)
Fixpoint ascending (l : list (nat * Q)) : Prop :=
  match l with
  | [] => True
  | y :: l' => Forall (λ z, (y.2 <= z.2)%Q) l' ∧ ascending l'
  end.

(** The order of binary64 numbers that are not NaN, through a rank in
    triples of integers ordered lexicographically: sign class, then
    exponent, then mantissa (both negated for a negative number). *)
Definition SFrank (x : spec_float) : Z * Z * Z :=
  match x with
  | S754_infinity true => (-2, 0, 0)
  | S754_infinity false => (2, 0, 0)
  | S754_finite true m e => (-1, - e, - Z.pos m)
  | S754_finite false m e => (1, e, Z.pos m)
  | _ => (0, 0, 0)
  end.

Definition lex_lt (a b : Z * Z * Z) : Prop :=
  a.1.1 < b.1.1 ∨
  (a.1.1 = b.1.1 ∧ (a.1.2 < b.1.2 ∨ (a.1.2 = b.1.2 ∧ a.2 < b.2))).

(** The binary64 number of a positive integer below 2^53: its digits,
    shifted to a mantissa of 53 bits. *)
Definition canon64 (p : positive) : spec_float :=
  S754_finite false
    (Nat.iter (53 - Pos.to_nat (digits2_pos p)) xO p)
    (Z.pos (digits2_pos p) - 53).

(* ===================================================================== *)
(** * Theorems *)
(* ===================================================================== *)

(* ===================================================================== *)
(** ** Exact arithmetic: the order and sums of [Q] *)
(* ===================================================================== *)

Section Q_facts.
Local Open Scope Q_scope.

Lemma Q_ltb_lt (a b : Q) : ltb a b = true ↔ a < b.
Proof.
  cbn. rewrite negb_true_iff. split.
  - intros Hf. apply Qnot_le_lt. intros Hle.
    apply Qle_bool_iff in Hle. congruence.
  - intros Hlt. destruct (Qle_bool b a) eqn:E; [|done].
    apply Qle_bool_iff in E. exfalso. by apply (Qlt_not_le a b).
Qed.

Lemma Q_ltb_ge (a b : Q) : ltb a b = false ↔ b <= a.
Proof.
  cbn. rewrite negb_false_iff. apply Qle_bool_iff.
Qed.

Lemma Q_leb_le (a b : Q) : leb a b = true ↔ a <= b.
Proof. cbn. apply Qle_bool_iff. Qed.

Lemma Q_eqb_eq (a b : Q) : eqb a b = true ↔ a == b.
Proof. cbn. apply Qeq_bool_iff. Qed.

Lemma Q_eqb_refl (a : Q) : eqb a a = true.
Proof. by apply Q_eqb_eq. Qed.

#[export] Instance Q_compare : ScalarCompare Q.
Proof.
  split.
  - intros a b Hab. apply Q_eqb_eq in Hab. split; apply Q_ltb_ge; lra.
  - done.
Qed.

#[export] Instance Q_order : ScalarOrder Q.
Proof.
  split.
  - intros a b _ _ Hab. apply Q_ltb_lt in Hab. apply Q_ltb_ge. lra.
  - intros a b c _ _ _ Hab Hbc. apply Q_ltb_lt in Hab, Hbc. apply Q_ltb_lt. lra.
  - intros a b c _ _ _ Hab Hbc. apply Q_ltb_ge in Hab, Hbc. apply Q_ltb_ge. lra.
Qed.

(** [np.maximum] on exact numbers is one of its arguments, the larger. *)
Lemma Q_maximum_cases (a b : Q) :
  (maximum a b = a ∧ b <= a) ∨ (maximum a b = b ∧ a < b).
Proof.
  unfold maximum. rewrite !Q_eqb_refl.
  destruct (ltb a b) eqn:E.
  - right. split; [done|]. by apply Q_ltb_lt.
  - left. split; [done|]. by apply Q_ltb_ge.
Qed.

Lemma Q_maximum_ub (a b : Q) : a <= maximum a b ∧ b <= maximum a b.
Proof. destruct (Q_maximum_cases a b) as [[-> ?]|[-> ?]]; lra. Qed.

Lemma fold_left_Qplus (l : list Q) (a : Q) : fold_left Qplus l a == a + Qsum l.
Proof.
  revert a. induction l as [|x l IH]; intros a; cbn.
  - lra.
  - rewrite IH. lra.
Qed.

Lemma np_sum_Qsum (l : list Q) : np_sum l == Qsum l.
Proof.
  unfold np_sum. change (fold_left add l lit_0) with (fold_left Qplus l 0).
  rewrite fold_left_Qplus. lra.
Qed.
End Q_facts.

(* ===================================================================== *)
(** ** binary64: two laws of its comparisons *)
(* ===================================================================== *)

Lemma SFcompare_Eq_sym (x y : spec_float) :
  SFcompare x y = Some Eq → SFcompare y x = Some Eq.
Proof.
  destruct x as [sx|sx| |sx mx ex], y as [sy|sy| |sy my ey]; cbn [SFcompare];
    try done; try (by destruct sx); try (by destruct sy);
    try (by destruct sx, sy).
  destruct sx, sy; try done.
  - destruct (Z.compare ex ey) eqn:He; try done.
    apply Z.compare_eq in He as ->. rewrite Z.compare_refl.
    fold (Pos.compare mx my). fold (Pos.compare my mx).
    destruct (Pos.compare mx my) eqn:Hm; try done.
    apply Pos.compare_eq in Hm as ->. by rewrite Pos.compare_refl.
  - destruct (Z.compare ex ey) eqn:He; try done.
    apply Z.compare_eq in He as ->. rewrite Z.compare_refl.
    fold (Pos.compare mx my). fold (Pos.compare my mx).
    destruct (Pos.compare mx my) eqn:Hm; try done.
    apply Pos.compare_eq in Hm as ->. by rewrite Pos.compare_refl.
Qed.

#[export] Instance float_compare : ScalarCompare float.
Proof.
  split.
  - intros a b. cbn [eqb ltb float_scalar].
    rewrite FloatAxioms.eqb_spec, !FloatAxioms.ltb_spec. unfold SFeqb, SFltb.
    destruct (SFcompare (Prim2SF a) (Prim2SF b)) as [[]|] eqn:Hc; try done.
    by rewrite (SFcompare_Eq_sym _ _ Hc).
  - intros a b. cbn [above_ninf ltb float_scalar].
    rewrite !FloatAxioms.ltb_spec. unfold SFltb.
    change (Prim2SF neg_infinity) with (S754_infinity true).
    destruct (Prim2SF a) as [sa|sa| |sa ma ea], (Prim2SF b) as [sb|sb| |sb mb eb];
      try done; cbn [SFcompare]; try (by destruct sa); by destruct sa, sb.
Qed.

Lemma SFcompare_rank (x y : spec_float) :
  x ≠ S754_nan → y ≠ S754_nan →
  (SFcompare x y = Some Lt ↔ lex_lt (SFrank x) (SFrank y)) ∧
  (∃ c, SFcompare x y = Some c).
Proof.
  intros Hx Hy. unfold lex_lt.
  destruct x as [sx|sx| |sx mx ex], y as [sy|sy| |sy my ey]; try done;
    cbn [SFcompare SFrank]; try destruct sx; try destruct sy;
    cbn [fst snd]; (split; [|eauto]);
    repeat match goal with
           | |- context [Pos.compare_cont Eq ?a ?b] =>
               change (Pos.compare_cont Eq a b) with (Pos.compare a b);
               destruct (Pos.compare_spec a b)
           | |- context [Z.compare ?a ?b] => destruct (Z.compare_spec a b)
           end; cbn [CompOpp];
    (split; [intros Hc; first [discriminate Hc | lia]
           |intros Hl; first [done | exfalso; lia]]).
Qed.

Lemma float_above_ninf_not_nan (a : float) :
  PrimFloat.ltb neg_infinity a = true → Prim2SF a ≠ S754_nan.
Proof.
  rewrite FloatAxioms.ltb_spec. unfold SFltb.
  change (Prim2SF neg_infinity) with (S754_infinity true).
  by destruct (Prim2SF a).
Qed.

Lemma float_ltb_rank (a b : float) :
  Prim2SF a ≠ S754_nan → Prim2SF b ≠ S754_nan →
  (PrimFloat.ltb a b = true ↔ lex_lt (SFrank (Prim2SF a)) (SFrank (Prim2SF b))).
Proof.
  intros Ha Hb. rewrite FloatAxioms.ltb_spec. unfold SFltb.
  destruct (SFcompare_rank _ _ Ha Hb) as [Hlt [c Hc]].
  rewrite <- Hlt, Hc. by destruct c.
Qed.

Lemma lex_lt_false_iff (a b : Z * Z * Z) :
  ¬ lex_lt a b ↔ a = b ∨ lex_lt b a.
Proof.
  unfold lex_lt. destruct a as [[a1 a2] a3], b as [[b1 b2] b3]. cbn [fst snd].
  split.
  - intros Hn.
    destruct (decide (a1 = b1)) as [->|]; [|lia].
    destruct (decide (a2 = b2)) as [->|]; [|lia].
    destruct (decide (a3 = b3)) as [->|]; [by left|lia].
  - intros [[= -> -> ->]|Hl]; lia.
Qed.

#[export] Instance float_order : ScalarOrder float.
Proof.
  split.
  - intros a b Ha Hb. cbn [above_ninf ltb float_scalar] in *.
    apply float_above_ninf_not_nan in Ha, Hb.
    intros Hab. apply (float_ltb_rank a b Ha Hb) in Hab.
    apply not_true_is_false. intros Hba.
    apply (float_ltb_rank b a Hb Ha) in Hba. unfold lex_lt in *. lia.
  - intros a b c Ha Hb Hc. cbn [above_ninf ltb float_scalar] in *.
    apply float_above_ninf_not_nan in Ha, Hb, Hc.
    intros Hab Hbc. apply (float_ltb_rank a b Ha Hb) in Hab.
    apply (float_ltb_rank b c Hb Hc) in Hbc.
    apply (float_ltb_rank a c Ha Hc). unfold lex_lt in *. lia.
  - intros a b c Ha Hb Hc. cbn [above_ninf ltb float_scalar] in *.
    apply float_above_ninf_not_nan in Ha, Hb, Hc.
    intros Hab Hbc. apply not_true_iff_false in Hab, Hbc.
    apply not_true_iff_false. intros Hac.
    apply (float_ltb_rank a c Ha Hc) in Hac.
    rewrite (float_ltb_rank a b Ha Hb) in Hab.
    rewrite (float_ltb_rank b c Hb Hc) in Hbc.
    apply lex_lt_false_iff in Hab, Hbc.
    destruct Hab as [Hab|Hab], Hbc as [Hbc|Hbc];
      rewrite ?Hab, ?Hbc in *; unfold lex_lt in *; lia.
Qed.

Section voc_ap_facts.
Local Open Scope Q_scope.

Lemma compress_elem_of (a : list Q) (mask : list bool) (x : Q) :
  x ∈ compress a mask ↔ ∃ i, a !! i = Some x ∧ mask !! i = Some true.
Proof.
  revert mask. induction a as [|y a IH]; intros [|b mask]; cbn.
  - split; [by intros ?%elem_of_nil|by intros (i & ? & ?)].
  - split; [by intros ?%elem_of_nil|by intros (i & ? & ?)].
  - split; [by intros ?%elem_of_nil|by intros (i & ? & ?)].
  - destruct b.
    + rewrite elem_of_cons, IH. split.
      * intros [->|(i & ? & ?)]; [by exists 0%nat|by exists (S i)].
      * intros ([|i] & Ha & Hm); cbn in *; [left; congruence|right; eauto].
    + rewrite IH. split.
      * intros (i & ? & ?). by exists (S i).
      * intros ([|i] & Ha & Hm); cbn in *; [congruence|eauto].
Qed.

Lemma compress_nil_count (a : list Q) (mask : list bool) :
  length mask = length a → compress a mask = [] → count_true mask = 0%nat.
Proof.
  revert mask. induction a as [|y a IH]; intros [|b mask]; cbn; try done.
  intros [= Hlen]. destruct b; [done|]. intros Hc.
  unfold count_true in *. cbn. rewrite decide_False by done. by apply IH.
Qed.

Lemma count_true_zero (mask : list bool) i :
  count_true mask = 0%nat → mask !! i = Some true → False.
Proof.
  unfold count_true. intros Hc Hi.
  assert (true ∈ filter (λ b, b = true) mask) as Hin.
  { apply list_elem_of_filter. split; [done|]. by eapply list_elem_of_lookup_2. }
  destruct (filter _ mask); [by apply elem_of_nil in Hin|done].
Qed.

Lemma np_max_elem_of (x : Q) (l : list Q) : np_max x l ∈ x :: l.
Proof.
  unfold np_max. revert x. induction l as [|y l IH]; intros x; cbn.
  - apply elem_of_cons; auto.
  - specialize (IH (maximum x y)).
    apply elem_of_cons in IH as [->|IH].
    + destruct (Q_maximum_cases x y) as [[-> _]|[-> _]];
        rewrite !elem_of_cons; auto.
    + rewrite !elem_of_cons; auto.
Qed.

Lemma np_max_ub (x : Q) (l : list Q) (y : Q) : y ∈ x :: l → y <= np_max x l.
Proof.
  unfold np_max. revert x y. induction l as [|z l IH]; intros x y; cbn.
  - intros ->%list_elem_of_singleton. lra.
  - intros Hy. assert (maximum x z <= fold_left maximum l (maximum x z)) as Hm.
    { apply IH, elem_of_cons; auto. }
    pose proof (Q_maximum_ub x z) as [? ?].
    apply elem_of_cons in Hy as [->|Hy]; [lra|].
    apply elem_of_cons in Hy as [->|Hy]; [lra|].
    apply IH, elem_of_cons; auto.
Qed.

(** One round of the 11-point loop adds [p / 11] for the largest
    precision [p] at the threshold. *)
Lemma voc_ap_07_step_spec (rec prec : list Q) (ap t : Q) :
  length rec = length prec →
  ∃ p, max_prec_at rec prec t p ∧
       voc_ap_07_step rec prec ap t = Ok (ap + p / 11).
Proof.
  intros Hlen. unfold voc_ap_07_step.
  set (mask := (λ r, leb t r) <$> rec).
  assert (length mask = length prec) as Hm
    by (unfold mask; by rewrite length_fmap).
  assert (∀ i, mask !! i = Some true ↔ ∃ r, rec !! i = Some r ∧ t <= r) as Hmask.
  { intros i. unfold mask. rewrite list_lookup_fmap.
    destruct (rec !! i) as [r|]; cbn.
    - split.
      + intros [= Hle]. exists r. split; [done|]. by apply Q_leb_le.
      + intros (r' & [= <-] & Hle). f_equal. by apply Q_leb_le.
    - split; [done|]. by intros (? & ? & ?). }
  destruct (Nat.eqb (count_true mask) 0) eqn:Hc.
  - apply Nat.eqb_eq in Hc. exists 0. split; [|done].
    left. split; [|done]. intros i r Hr Hle.
    eapply (count_true_zero mask i); [done|]. apply Hmask. eauto.
  - apply Nat.eqb_neq in Hc. unfold bool_index.
    rewrite decide_True by done. cbn.
    destruct (compress prec mask) as [|x sel] eqn:Hsel.
    { exfalso. apply Hc. by apply (compress_nil_count prec). }
    cbn. exists (np_max x sel). split; [|done].
    right. split.
    + pose proof (np_max_elem_of x sel) as Hin.
      rewrite <- Hsel in Hin. apply compress_elem_of in Hin as (i & Hp & Hi).
      apply Hmask in Hi as (r & Hr & Hle). eauto.
    + intros i r q Hr Hle Hq. apply np_max_ub. rewrite <- Hsel.
      apply compress_elem_of. exists i. split; [done|]. apply Hmask. eauto.
Qed.

Lemma voc_ap_07_fold (rec prec : list Q) (ts : list Q) (ap0 : Q) :
  length rec = length prec →
  ∃ ps, Forall2 (max_prec_at rec prec) ts ps ∧
        ∃ ap, foldM (voc_ap_07_step rec prec) ap0 ts = Ok ap ∧
              ap == ap0 + Qsum ((λ p, p / 11) <$> ps).
Proof.
  intros Hlen. revert ap0. induction ts as [|t ts IH]; intros ap0.
  - exists []. split; [constructor|]. exists ap0. split; [done|]. cbn. lra.
  - destruct (voc_ap_07_step_spec rec prec ap0 t Hlen) as (p & Hp & Hstep).
    destruct (IH (ap0 + p / 11)) as (ps & Hps & ap & Hfold & Hap).
    exists (p :: ps). split; [by constructor|]. exists ap. split.
    + cbn. rewrite Hstep. cbn. exact Hfold.
    + rewrite Hap. cbn. lra.
Qed.

Lemma Qsum_scale (ps : list Q) (c : Q) :
  Qsum ((λ p, p / c) <$> ps) == Qsum ps / c.
Proof.
  induction ps as [|p ps IH]; cbn.
  - unfold Qdiv. ring.
  - rewrite IH. unfold Qdiv. ring.
Qed.

Lemma Qsum_unit_interval (ps : list Q) :
  Forall unit_interval ps → 0 <= Qsum ps ∧ Qsum ps <= inject_Z (Z.of_nat (length ps)).
Proof.
  induction 1 as [|p ps [? ?] _ [? ?]]; cbn [Qsum length].
  - change (inject_Z (Z.of_nat 0)) with 0. lra.
  - rewrite Nat2Z.inj_succ, <- Z.add_1_r, inject_Z_plus.
    change (inject_Z 1) with 1. lra.
Qed.

Lemma max_prec_at_unit (rec prec : list Q) (t p : Q) :
  Forall unit_interval prec → max_prec_at rec prec t p → unit_interval p.
Proof.
  intros Hprec [[_ ->]|[(i & r & _ & _ & Hp) _]].
  - split; lra.
  - eapply Forall_lookup_1 in Hprec; eauto.
Qed.
End voc_ap_facts.
Lemma foldM_cons {M : Type → Type} `{MBind M, MRet M} {S A : Type}
    (body : S → A → M S) (s : S) (x : A) (l : list A) :
  foldM body s (x :: l) = body s x ≫= λ s', foldM body s' l.
Proof. reflexivity. Qed.

Lemma result_bind_Ok {A B} (f : A → result B) (a : A) : Ok a ≫= f = f a.
Proof. reflexivity. Qed.

Section envelope_facts.
Context {F : Type} `{Scalar F}.

(** The envelope loop never fails on indices inside the array, keeps the
    length, and keeps any property that [np.maximum] preserves. *)
Lemma envelope_fold (P : F → Prop) (ind : list nat) (mpre : list F) :
  (∀ a b, P a → P b → P (maximum a b)) →
  Forall P mpre →
  Forall (λ i, (0 < i < length mpre)%nat) ind →
  ∃ mpre', foldM envelope_step mpre ind = Ok mpre' ∧
           length mpre' = length mpre ∧ Forall P mpre'.
Proof.
  intros Hmax. revert mpre.
  induction ind as [|i ind IH]; intros mpre HP Hind.
  - exists mpre. by cbn.
  - apply Forall_cons in Hind as [[Hi0 Hi] Hind].
    destruct (lookup_lt_is_Some_2 mpre (i - 1)%nat) as [a Ha]; [lia|].
    destruct (lookup_lt_is_Some_2 mpre i) as [b Hb]; [lia|].
    destruct (IH (<[(i - 1)%nat := maximum a b]> mpre)) as (m' & Hf & Hl & HP').
    + apply Forall_insert; [done|].
      apply Hmax; eapply Forall_lookup_1; eauto.
    + by rewrite length_insert.
    + exists m'. split_and!; [|by rewrite Hl, length_insert|done].
      rewrite foldM_cons. unfold envelope_step. rewrite Ha, Hb. exact Hf.
Qed.

Lemma range_down_bounds (n : nat) :
  Forall (λ i, (0 < i < S n)%nat) (range_down n).
Proof.
  unfold range_down. apply Forall_forall. intros i Hi.
  apply list_elem_of_In in Hi. apply in_rev, in_seq in Hi. lia.
Qed.

Lemma where_ne_from_bounds (a b : list F) (i : nat) :
  increasing_from i (where_ne_from i a b) ∧
  Forall (λ k, (k < i + length a)%nat) (where_ne_from i a b).
Proof.
  revert b i. induction a as [|x a IH]; intros [|y b] i; cbn; try done.
  destruct (IH b (S i)) as [Hinc Hlt].
  assert (Forall (λ k, (k < i + S (length a))%nat) (where_ne_from (S i) a b)) as Hlt'.
  { eapply Forall_impl; [exact Hlt|]. cbn. intros; lia. }
  assert (∀ l, increasing_from (S i) l → increasing_from i l) as Hweak.
  { intros [|k l]; cbn; [done|]. intros [? ?]. split; [lia|done]. }
  destruct (eqb x y); cbn.
  - split; [by apply Hweak|done].
  - split; [done|]. apply Forall_cons. split; [lia|done].
Qed.
End envelope_facts.
Section exact_facts.
Local Open Scope Q_scope.

Lemma non_decreasing_le (l : list Q) (i j : nat) (a b : Q) :
  non_decreasing l → (i ≤ j)%nat → l !! i = Some a → l !! j = Some b → a <= b.
Proof.
  intros Hl Hij Ha. revert b. induction Hij as [|j Hij IH]; intros b Hb.
  - assert (a = b) as -> by congruence. lra.
  - destruct (lookup_lt_is_Some_2 l j) as [c Hc].
    { apply lookup_lt_Some in Hb. lia. }
    specialize (IH c Hc). specialize (Hl j c b Hc Hb). lra.
Qed.

Lemma mapM_cons_Ok {A B} (f : A → result B) (x : A) (l : list A) (y : B) (k : list B) :
  f x = Ok y → mapM f l = Ok k → mapM f (x :: l) = Ok (y :: k).
Proof. intros Hx Hl. cbn. rewrite Hx. cbn. rewrite Hl. done. Qed.

(** The terms of the Riemann sum over increasing indices are each at
    most the step of recall they span, so they add up to at most the
    recall left above the first index. *)
Lemma area_terms_bound (mrec mpre : list Q) (ind : list nat) (lo : nat) (mlo : Q) :
  length mpre = length mrec →
  non_decreasing mrec →
  Forall (λ x, x <= 1) mrec →
  Forall unit_interval mpre →
  mrec !! lo = Some mlo →
  increasing_from lo ind →
  Forall (λ i, (S i < length mrec)%nat) ind →
  ∃ terms, mapM (area_term mrec mpre) ind = Ok terms ∧
           0 <= Qsum terms ∧ Qsum terms <= 1 - mlo.
Proof.
  intros Hlen Hnd Hle1 Hunit. revert lo mlo.
  induction ind as [|i ind IH]; intros lo mlo Hlo Hinc Hind.
  - exists []. split; [done|]. cbn.
    eapply Forall_lookup_1 in Hle1; [|exact Hlo]. cbn in Hle1. lra.
  - destruct Hinc as [Hloi Hinc]. apply Forall_cons in Hind as [Hi Hind].
    destruct (lookup_lt_is_Some_2 mrec (i + 1)%nat) as [a Ha]; [lia|].
    destruct (lookup_lt_is_Some_2 mrec i) as [b Hb]; [lia|].
    destruct (lookup_lt_is_Some_2 mpre (i + 1)%nat) as [c Hc]; [lia|].
    assert (mrec !! S i = Some a) as Ha' by (by rewrite <- Nat.add_1_r).
    destruct (IH (S i) a Ha' Hinc Hind) as (terms & Hterms & H0 & H1).
    exists ((a - b) * c :: terms). split.
    + apply mapM_cons_Ok; [|done]. unfold area_term. by rewrite Ha, Hb, Hc.
    + assert (b <= a) as Hba by (by apply (Hnd i)).
      assert (mlo <= b) as Hlob by (by apply (non_decreasing_le mrec lo i)).
      eapply Forall_lookup_1 in Hunit as [Hc0 Hc1]; [|exact Hc].
      cbn [Qsum]. split; [nra|nra].
Qed.

Lemma sentinel_non_decreasing (rec : list Q) :
  Forall unit_interval rec → non_decreasing rec →
  non_decreasing ([0] ++ rec ++ [1]).
Proof.
  intros Hu Hnd i a b. change ([0] ++ rec ++ [1]) with (0 :: (rec ++ [1])).
  remember (rec ++ [1]) as l eqn:Hl. destruct i as [|i]; simpl; subst l.
  - intros [= <-] Hb.
    destruct (decide (0 < length rec)%nat) as [Hlt|Hge].
    + rewrite lookup_app_l in Hb by done.
      eapply Forall_lookup_1 in Hu as [? ?]; [|exact Hb]. done.
    + rewrite lookup_app_r in Hb by lia.
      apply list_lookup_singleton_Some in Hb as [_ <-]. lra.
  - intros Ha Hb.
    destruct (decide (S i < length rec)%nat) as [Hlt|Hge].
    + rewrite lookup_app_l in Ha, Hb by lia. by apply (Hnd i).
    + rewrite lookup_app_r in Hb by lia.
      apply list_lookup_singleton_Some in Hb as [Heq <-].
      rewrite lookup_app_l in Ha by lia.
      eapply Forall_lookup_1 in Hu as [? ?]; [|exact Ha]. done.
Qed.

Lemma Q_maximum_unit (a b : Q) :
  unit_interval a → unit_interval b → unit_interval (maximum a b).
Proof. intros ? ?. by destruct (Q_maximum_cases a b) as [[-> _]|[-> _]]. Qed.

(** Exact-integral mode on valid curves: a value, in the unit interval. *)
Lemma voc_ap_exact_unit (rec prec : list Q) :
  length rec = length prec →
  Forall unit_interval rec → non_decreasing rec →
  Forall unit_interval prec →
  ∃ ap, voc_ap_exact rec prec = Ok ap ∧ unit_interval ap.
Proof.
  intros Hlen Hrec Hnd Hprec. unfold voc_ap_exact.
  change (lit_0 (F:=Q)) with 0. change (lit_1 (F:=Q)) with 1.
  set (mrec := [0] ++ rec ++ [1]).
  set (mpre := [0] ++ prec ++ [0]).
  assert (length mrec = S (S (length rec))) as Hlrec.
  { unfold mrec. rewrite !length_app. cbn. lia. }
  assert (length mpre = S (S (length rec))) as Hlpre.
  { unfold mpre. rewrite !length_app. cbn. lia. }
  assert (Forall unit_interval mpre) as Hupre.
  { apply Forall_forall. intros x Hx. unfold mpre in Hx.
    rewrite !elem_of_app, !list_elem_of_singleton in Hx.
    destruct Hx as [->|[Hx| ->]]; [split; lra| |split; lra].
    eapply Forall_forall in Hprec; eauto. }
  destruct (envelope_fold unit_interval (range_down (length mpre - 1)) mpre)
    as (mpre' & Henv & Hl' & Hu'); [apply Q_maximum_unit|done| |].
  { rewrite Hlpre. replace (S (S (length rec)) - 1)%nat with (S (length rec)) by lia.
    apply range_down_bounds. }
  rewrite Henv, result_bind_Ok.
  destruct (where_ne_from_bounds (tail mrec) (removelast mrec) 0) as [Hinc Hlt].
  destruct (area_terms_bound mrec mpre' (where_ne (tail mrec) (removelast mrec))
              0%nat 0) as (terms & Hterms & H0 & H1).
  - congruence.
  - apply sentinel_non_decreasing; done.
  - apply Forall_forall. intros x Hx. unfold mrec in Hx.
    rewrite !elem_of_app, !list_elem_of_singleton in Hx.
    destruct Hx as [->|[Hx| ->]]; [lra| |lra].
    eapply Forall_forall in Hrec as [? ?]; eauto.
  - done.
  - done.
  - exact Hinc.
  - assert (length (tail mrec) = S (length rec)) as Ht.
    { unfold mrec. simpl. rewrite length_app. simpl. lia. }
    rewrite Ht in Hlt. eapply Forall_impl; [exact Hlt|].
    intros k Hk. simpl in Hk. lia.
  - rewrite Hterms, result_bind_Ok. eexists. split; [done|].
    split; rewrite np_sum_Qsum; lra.
Qed.
End exact_facts.
Section voc_ap_theorems.
Local Open Scope Q_scope.

Lemma arange_Q :
  arange (F:=Q) lit_0 lit_1_1 lit_0_1
  = [0; 0.1; 0.2; 0.3; 0.4; 0.5; 0.6; 0.7; 0.8; 0.9; 1.0].
Proof. vm_compute. reflexivity. Qed.

Lemma voc_ap_07_exact_arith (rec prec : list Q) :
  length rec = length prec →
  ∃ ps ap,
    Forall2 (max_prec_at rec prec)
            [0; 0.1; 0.2; 0.3; 0.4; 0.5; 0.6; 0.7; 0.8; 0.9; 1.0] ps ∧
    voc_ap rec prec true = Ok ap ∧
    ap == Qsum ((λ p, p / 11) <$> ps) ∧
    ap == Qsum ps / 11.
Proof.
  intros Hlen. unfold voc_ap, voc_ap_07. rewrite arange_Q.
  destruct (voc_ap_07_fold rec prec
              [0; 0.1; 0.2; 0.3; 0.4; 0.5; 0.6; 0.7; 0.8; 0.9; 1.0] lit_0 Hlen)
    as (ps & Hps & ap & Hfold & Hap).
  exists ps, ap. split_and!; [done|done| |].
  - rewrite Hap. change (lit_0 (F:=Q)) with 0. lra.
  - rewrite Hap, Qsum_scale. change (lit_0 (F:=Q)) with 0. lra.
Qed.

(** C6.  [voc_ap] on empty recall and precision in exact-integral mode is
    0: the sentinels give [mrec = [0, 1]] and [mpre = [0, 0]], the envelope
    leaves [mpre] as it is, recall changes at index 0 only, and the one
    term of the sum is [(1 - 0) * 0].  In binary64 and in exact
    arithmetic. *)
Theorem voc_ap_exact_empty :
  (foldM envelope_step [lit_0; lit_0] (range_down 1) = Ok [0%float; 0%float] ∧
   where_ne (tail [lit_0; lit_1]) (removelast [lit_0; lit_1]) = [0%nat] ∧
   area_term [lit_0; lit_1] [lit_0; lit_0] 0 = Ok 0%float ∧
   voc_ap (F:=float) [] [] false = Ok 0%float) ∧
  (foldM envelope_step [lit_0; lit_0] (range_down 1) = Ok [0; 0] ∧
   where_ne (tail [lit_0; lit_1]) (removelast [lit_0; lit_1]) = [0%nat] ∧
   area_term [lit_0; lit_1] [lit_0; lit_0] 0 = Ok 0 ∧
   voc_ap (F:=Q) [] [] false = Ok 0).
Proof. split; split_and!; vm_compute; reflexivity. Qed.

(** C2, the claim as stated, fails in binary64.  With recall [0.3] and
    precision [1.0], thresholds 0.0, 0.1, 0.2 and 0.3 are reached and the
    claimed sum is four times 1/11; the program's fourth threshold is
    3 * 0.1, the next double above 0.3, and it returns three times 1/11. *)
Lemma voc_ap_07_not_decimal :
  let rec := [div (of_Z 3) (of_Z 10)] in
  let prec := [lit_1] in
  voc_ap_07_decimal (F:=float) rec prec = Ok 0x1.745d1745d1746p-2%float ∧
  voc_ap (F:=float) rec prec true = Ok 0x1.1745d1745d174p-2%float ∧
  voc_ap (F:=float) rec prec true ≠ voc_ap_07_decimal rec prec.
Proof.
  split_and!; [vm_compute; reflexivity|vm_compute; reflexivity|].
  intros Heq.
  pose proof (f_equal (λ r : result float,
                match r with
                | Ok x => PrimFloat.eqb x 0x1.1745d1745d174p-2
                | Raise _ => false
                end) Heq) as Hb.
  vm_compute in Hb. discriminate.
Qed.

(** C2, as amended.  The thresholds are the eleven values of
    [np.arange(0., 1.1, 0.1)]: in binary64 the products [k * 0.1] for
    k = 0..10, which for k = 3, 6 and 7 lie above the doubles 0.3, 0.6
    and 0.7 and equal the decimal double otherwise; in exact arithmetic
    k/10.  In exact arithmetic, on curves of one length, the result is
    the sum of [p / 11] over the thresholds, [p] being the largest
    precision whose recall reaches the threshold or 0 when none does,
    which is the mean of the eleven [p]. *)
Theorem voc_ap_11_point :
  (arange (F:=float) lit_0 lit_1_1 lit_0_1
   = (λ k, mul (of_Z k) lit_0_1) <$> [0; 1; 2; 3; 4; 5; 6; 7; 8; 9; 10]%Z ∧
   (λ k, ltb (F:=float) (div (of_Z k) (of_Z 10)) (mul (of_Z k) lit_0_1))
     <$> [0; 1; 2; 3; 4; 5; 6; 7; 8; 9; 10]%Z
   = [false; false; false; true; false; false; true; true; false; false; false] ∧
   (λ k, eqb (F:=float) (div (of_Z k) (of_Z 10)) (mul (of_Z k) lit_0_1))
     <$> [0; 1; 2; 3; 4; 5; 6; 7; 8; 9; 10]%Z
   = [true; true; true; false; true; true; false; false; true; true; true]) ∧
  arange (F:=Q) lit_0 lit_1_1 lit_0_1
  = [0; 0.1; 0.2; 0.3; 0.4; 0.5; 0.6; 0.7; 0.8; 0.9; 1.0] ∧
  ∀ rec prec : list Q,
    length rec = length prec →
    ∃ ps ap,
      Forall2 (max_prec_at rec prec)
              [0; 0.1; 0.2; 0.3; 0.4; 0.5; 0.6; 0.7; 0.8; 0.9; 1.0] ps ∧
      voc_ap rec prec true = Ok ap ∧
      ap == Qsum ((λ p, p / 11) <$> ps) ∧
      ap == Qsum ps / 11.
Proof.
  split; [split_and!; vm_compute; reflexivity|].
  split; [apply arange_Q|]. apply voc_ap_07_exact_arith.
Qed.

Lemma voc_ap_11_point_witness :
  ∃ ps ap,
    Forall2 (max_prec_at [1; 1] [1; 1 # 2])
            [0; 0.1; 0.2; 0.3; 0.4; 0.5; 0.6; 0.7; 0.8; 0.9; 1.0] ps ∧
    voc_ap [1; 1] [1; 1 # 2] true = Ok ap ∧
    ap == Qsum ((λ p, p / 11) <$> ps) ∧
    ap == Qsum ps / 11.
Proof.
  apply (proj2 (proj2 voc_ap_11_point) [1; 1] [1; 1 # 2]). reflexivity.
Defined.

(** C7, the claim as stated, fails in binary64: on recall [1.0] and
    precision [1.0] the 11-point sum of eleven rounded 1/11 is
    1.0000000000000002. *)
Lemma voc_ap_07_above_one :
  voc_ap (F:=float) [lit_1] [lit_1] true = Ok 0x1.0000000000001p+0%float ∧
  ltb (F:=float) lit_1 0x1.0000000000001p+0%float = true.
Proof. split; vm_compute; reflexivity. Qed.

(** C7, as amended.  In exact arithmetic, for recall and precision of one
    length, recall in [0,1] and never decreasing, precision in [0,1],
    [voc_ap] returns a number of [0,1] in both modes. *)
Theorem voc_ap_unit_interval (rec prec : list Q) (use_07_metric : bool) :
  length rec = length prec →
  Forall unit_interval rec →
  non_decreasing rec →
  Forall unit_interval prec →
  ∃ ap, voc_ap rec prec use_07_metric = Ok ap ∧ unit_interval ap.
Proof.
  intros Hlen Hrec Hnd Hprec. destruct use_07_metric.
  - destruct (voc_ap_07_exact_arith rec prec Hlen) as (ps & ap & Hps & Hap & _ & Hmean).
    exists ap. split; [done|].
    assert (Forall unit_interval ps) as Hu.
    { apply Forall_forall. intros p Hp.
      apply list_elem_of_lookup in Hp as [i Hi].
      eapply Forall2_lookup_r in Hps as (t & _ & Ht); [|exact Hi].
      by eapply max_prec_at_unit. }
    apply Qsum_unit_interval in Hu as [H0 H1].
    apply Forall2_length in Hps. rewrite <- Hps in H1.
    change (inject_Z (Z.of_nat _)) with 11 in H1.
    unfold Qdiv in Hmean. change (/ 11) with (1 # 11) in Hmean.
    split; lra.
  - by apply voc_ap_exact_unit.
Qed.

Lemma voc_ap_unit_interval_witness :
  ∃ ap, voc_ap [1; 1] [1; 1 # 2] false = Ok ap ∧ unit_interval ap.
Proof.
  apply (voc_ap_unit_interval [1; 1] [1; 1 # 2] false).
  - reflexivity.
  - repeat constructor; unfold unit_interval; lra.
  - intros [|[|i]] a b; simpl; intros [= <-] [= <-]; lra.
  - repeat constructor; unfold unit_interval; lra.
Defined.
End voc_ap_theorems.

Section overlap_facts.
Context {F : Type} `{ScalarOrder F} {Box : Type}.
Variable get_iou_cc : Box → Box → F.

Lemma ltb_irrefl (a : F) : above_ninf a = true → ltb a a = false.
Proof.
  intros Ha. destruct (ltb a a) eqn:E; [|done].
  pose proof (ltb_asym a a Ha Ha E). congruence.
Qed.

Lemma overlap_scan_snoc (bb : Box) (BBGT : list Box) (g : Box)
    (ovmax : option F) (jmax : option nat) :
  overlap_scan get_iou_cc bb (BBGT ++ [g]) ovmax jmax
  = overlap_step get_iou_cc bb (overlap_scan get_iou_cc bb BBGT ovmax jmax)
                 (length BBGT, g).
Proof.
  unfold overlap_scan. rewrite imap_app, fold_left_app. simpl.
  by rewrite Nat.add_0_r.
Qed.

(** C5.  Against a non-empty sequence of ground-truth boxes, each with an
    IoU that is a number above [-inf] (no NaN), the overlap scan ends with
    [ovmax] the largest IoU and [jmax] the first index that attains it:
    boxes that tie for the largest IoU leave [jmax] at the earliest of
    them.  In binary64 as in exact arithmetic. *)
Theorem overlap_scan_first_max (bb : Box) (BBGT : list Box)
    (jmax : option nat) :
  BBGT ≠ [] →
  Forall (λ g, above_ninf (get_iou_cc bb g) = true) BBGT →
  ∃ ov j, overlap_scan get_iou_cc bb BBGT None jmax = (Some ov, Some j) ∧
          scan_max get_iou_cc bb BBGT ov j.
Proof.
  induction BBGT as [|g BBGT IH] using rev_ind; [done|]. intros _ Hall.
  apply Forall_app in Hall as [Hall Hg]. rewrite Forall_singleton in Hg.
  rewrite overlap_scan_snoc.
  destruct (decide (BBGT = [])) as [->|Hne].
  - exists (get_iou_cc bb g), 0%nat. unfold overlap_step. simpl.
    rewrite Hg. split; [done|]. split_and!.
    + by exists g.
    + intros [|k] g' Hk; simpl in Hk; [|done].
      injection Hk as <-. by apply ltb_irrefl.
    + intros k g' Hk. lia.
  - destruct (IH Hne Hall) as (ov & j & -> & (g0 & Hj & Hov) & Hmax & Hfirst).
    assert (above_ninf ov = true) as Hov1.
    { rewrite Hov. rewrite Forall_forall in Hall.
      by eapply Hall, list_elem_of_lookup_2. }
    assert (∀ k g', BBGT !! k = Some g' → above_ninf (get_iou_cc bb g') = true)
      as Hall'.
    { intros k g' Hk. rewrite Forall_forall in Hall.
      by eapply Hall, list_elem_of_lookup_2. }
    unfold overlap_step. simpl.
    destruct (ltb ov (get_iou_cc bb g)) eqn:Hlt.
    + exists (get_iou_cc bb g), (length BBGT). split; [done|]. split_and!.
      * exists g. split; [|done]. by rewrite lookup_app_r, Nat.sub_diag.
      * intros k g' Hk. apply lookup_app_Some in Hk as [Hk|[_ Hk]].
        -- destruct (ltb (get_iou_cc bb g) (get_iou_cc bb g')) eqn:E; [|done].
           pose proof (ltb_trans _ _ _ Hov1 Hg (Hall' k g' Hk) Hlt E) as Habs.
           rewrite (Hmax k g' Hk) in Habs. done.
        -- apply list_lookup_singleton_Some in Hk as [_ <-].
           by apply ltb_irrefl.
      * intros k g' Hkj Hk. rewrite lookup_app_l in Hk by done.
        destruct (ltb (get_iou_cc bb g') (get_iou_cc bb g)) eqn:E; [done|].
        pose proof (ltb_ntrans _ _ _ Hov1 (Hall' k g' Hk) Hg (Hmax k g' Hk) E).
        congruence.
    + exists ov, j. split; [done|]. split_and!.
      * exists g0. split; [|done]. apply lookup_app_l_Some. done.
      * intros k g' Hk. apply lookup_app_Some in Hk as [Hk|[_ Hk]]; [eauto|].
        apply list_lookup_singleton_Some in Hk as [_ <-]. done.
      * intros k g' Hkj Hk. apply (Hfirst k g' Hkj).
        apply lookup_lt_Some in Hj.
        by rewrite lookup_app_l in Hk by lia.
Qed.
End overlap_facts.

(** Scenario D in binary64: two ground-truth boxes, both with IoU 0.9. *)
Lemma overlap_scan_first_max_witness :
  ∃ ov j, overlap_scan (F:=float) (λ _ _ : nat, div (of_Z 9) (of_Z 10))
                       0%nat [1%nat; 2%nat] None None
          = (Some ov, Some j) ∧
          scan_max (F:=float) (λ _ _ : nat, div (of_Z 9) (of_Z 10))
                   0%nat [1%nat; 2%nat] ov j.
Proof.
  apply (overlap_scan_first_max (F:=float)
           (λ _ _ : nat, div (of_Z 9) (of_Z 10)) 0%nat [1%nat; 2%nat] None).
  - discriminate.
  - repeat constructor.
Defined.

(* ===================================================================== *)
(** ** Running statements *)
(* ===================================================================== *)

Section run_facts.
Context {F Box : Type}.
Local Abbreviation M := (M F Box).
Local Abbreviation heap := (heap F Box).

Lemma run_bind {A B} (m : M A) (f : A → M B) (h : heap) :
  (m ≫= f) h
  = match m h with
    | (Ok a, h') => f a h'
    | (Raise e, h') => (Raise e, h')
    end.
Proof. reflexivity. Qed.

Lemma run_bind_Ok {A B} (m : M A) (f : A → M B) (h h' : heap) (a : A) :
  m h = (Ok a, h') → (m ≫= f) h = f a h'.
Proof. intros Hm. by rewrite run_bind, Hm. Qed.

Lemma run_bind_Raise {A B} (m : M A) (f : A → M B) (h h' : heap) (e : exn) :
  m h = (Raise e, h') → (m ≫= f) h = (Raise e, h').
Proof. intros Hm. by rewrite run_bind, Hm. Qed.

Lemma run_bind_Ok_inv {A B} (m : M A) (f : A → M B) (h h' : heap) (b : B) :
  (m ≫= f) h = (Ok b, h') → ∃ a h1, m h = (Ok a, h1) ∧ f a h1 = (Ok b, h').
Proof.
  rewrite run_bind. destruct (m h) as [[a|e] h1]; [eauto|done].
Qed.

Lemma run_lift_bind {A B} (r : result A) (f : A → M B) (h : heap) :
  (lift r ≫= f) h
  = match r with Ok a => f a h | Raise e => (Raise e, h) end.
Proof. rewrite run_bind. unfold lift. by destruct r. Qed.

Lemma run_foldM_cons {S A} (body : S → A → M S) (s : S) (x : A) (l : list A)
    (h : heap) :
  foldM body s (x :: l) h
  = match body s x h with
    | (Ok s', h') => foldM body s' l h'
    | (Raise e, h') => (Raise e, h')
    end.
Proof. reflexivity. Qed.

Lemma run_deref (l : loc) (o : obj F Box) (h : heap) :
  h !! l = Some o → deref l h = (Ok o, h).
Proof. unfold deref. by intros ->. Qed.

Lemma run_read_array (l : loc) (b : list Box) (h : heap) :
  h !! l = Some (OArray b) → read_array l h = (Ok b, h).
Proof.
  intros Hl. unfold read_array. by rewrite (run_bind_Ok _ _ _ _ _ (run_deref _ _ _ Hl)).
Qed.

Lemma run_read_det_list (l : loc) (b : list bool) (h : heap) :
  h !! l = Some (ODetList b) → read_det_list l h = (Ok b, h).
Proof.
  intros Hl. unfold read_det_list.
  by rewrite (run_bind_Ok _ _ _ _ _ (run_deref _ _ _ Hl)).
Qed.

Lemma run_read_img_dict (l : loc) (d : list (img_id * loc)) (h : heap) :
  h !! l = Some (OImgDict d) → read_img_dict l h = (Ok d, h).
Proof.
  intros Hl. unfold read_img_dict.
  by rewrite (run_bind_Ok _ _ _ _ _ (run_deref _ _ _ Hl)).
Qed.

Lemma run_read_class_dict (l : loc) (d : list (string * loc)) (h : heap) :
  h !! l = Some (OClassDict d) → read_class_dict l h = (Ok d, h).
Proof.
  intros Hl. unfold read_class_dict.
  by rewrite (run_bind_Ok _ _ _ _ _ (run_deref _ _ _ Hl)).
Qed.

Lemma run_read_pred_list (l : loc) (p : list (Box * F)) (h : heap) :
  h !! l = Some (OPredList p) → read_pred_list l h = (Ok p, h).
Proof.
  intros Hl. unfold read_pred_list.
  by rewrite (run_bind_Ok _ _ _ _ _ (run_deref _ _ _ Hl)).
Qed.

Lemma run_read_boxes (l : loc) (b : list Box) (h : heap) :
  h !! l = Some (OBoxList b) ∨ h !! l = Some (OArray b) →
  read_boxes l h = (Ok b, h).
Proof.
  intros [Hl|Hl]; unfold read_boxes;
    by rewrite (run_bind_Ok _ _ _ _ _ (run_deref _ _ _ Hl)).
Qed.

(** Reading leaves the store as it is. *)
Lemma deref_store (l : loc) (h : heap) : (deref l h).2 = h.
Proof. reflexivity. Qed.

Lemma read_array_store (l : loc) (h : heap) : (read_array l h).2 = h.
Proof.
  unfold read_array. rewrite run_bind. unfold deref.
  destruct (h !! l) as [[]|]; reflexivity.
Qed.

Lemma read_det_list_store (l : loc) (h : heap) : (read_det_list l h).2 = h.
Proof.
  unfold read_det_list. rewrite run_bind. unfold deref.
  destruct (h !! l) as [[]|]; reflexivity.
Qed.

Lemma read_boxes_store (l : loc) (h : heap) : (read_boxes l h).2 = h.
Proof.
  unfold read_boxes. rewrite run_bind. unfold deref.
  destruct (h !! l) as [[]|]; reflexivity.
Qed.

Lemma read_pred_list_store (l : loc) (h : heap) : (read_pred_list l h).2 = h.
Proof.
  unfold read_pred_list. rewrite run_bind. unfold deref.
  destruct (h !! l) as [[]|]; reflexivity.
Qed.

Lemma read_img_dict_store (l : loc) (h : heap) : (read_img_dict l h).2 = h.
Proof.
  unfold read_img_dict. rewrite run_bind. unfold deref.
  destruct (h !! l) as [[]|]; reflexivity.
Qed.

Lemma read_class_dict_store (l : loc) (h : heap) : (read_class_dict l h).2 = h.
Proof.
  unfold read_class_dict. rewrite run_bind. unfold deref.
  destruct (h !! l) as [[]|]; reflexivity.
Qed.
End run_facts.
Section mark_det_facts.
Context {F : Type} `{Scalar F} {Box : Type}.
Variable get_iou_cc : Box → Box → F.

(** The value of [scan] in [mark_det]. *)
Lemma run_mark_det (class_recs : gmap img_id class_rec)
    (image_ids : list img_id) (BB : list Box) (ovthresh : F)
    (st : mark_state F) (d : nat) (h : heap F Box)
    (img : img_id) (R : class_rec) (bb : Box) (BBGT : list Box) :
  image_ids !! d = Some img →
  class_recs !! img = Some R →
  BB !! d = Some bb →
  h !! bbox R = Some (OArray BBGT) →
  let scan := match BBGT with
              | [] => (None, jmax st)
              | _ => overlap_scan get_iou_cc bb BBGT None (jmax st)
              end in
  mark_det get_iou_cc class_recs image_ids BB ovthresh st d h
  = if exceeds scan.1 ovthresh then
      (j ← lift (or_raise UnboundLocalError scan.2);
       dets ← read_det_list (det R);
       flag ← lift (or_raise IndexError (dets !! j));
       if negb (flag : bool) then
         det_setitem (det R) j true;;
         mret (MarkState (<[d := lit_1]> (tp st)) (fp st) scan.2)
       else mret (MarkState (tp st) (<[d := lit_1]> (fp st)) scan.2)) h
    else (Ok (MarkState (tp st) (<[d := lit_1]> (fp st)) scan.2), h).
Proof.
  intros Hd HR Hbb HBBGT scan. unfold mark_det.
  rewrite Hd, run_lift_bind. cbn [or_raise].
  rewrite HR, run_lift_bind. cbn [or_raise].
  rewrite Hbb, run_lift_bind. cbn [or_raise].
  rewrite (run_bind_Ok _ _ _ _ _ (run_read_array _ _ _ HBBGT)).
  fold scan. by destruct (exceeds scan.1 ovthresh).
Qed.

(** One round of the marking loop writes index [d] of [tp] or index [d] of
    [fp], and nothing else of the two arrays. *)
Lemma mark_det_marks (class_recs : gmap img_id class_rec)
    (image_ids : list img_id) (BB : list Box) (ovthresh : F)
    (st st' : mark_state F) (d : nat) (h h' : heap F Box) :
  mark_det get_iou_cc class_recs image_ids BB ovthresh st d h = (Ok st', h') →
  (tp st' = <[d := lit_1]> (tp st) ∧ fp st' = fp st) ∨
  (tp st' = tp st ∧ fp st' = <[d := lit_1]> (fp st)).
Proof.
  unfold mark_det. intros Hrun.
  repeat (apply run_bind_Ok_inv in Hrun as (? & ? & _ & Hrun)).
  destruct (exceeds _ _).
  - repeat (apply run_bind_Ok_inv in Hrun as (? & ? & _ & Hrun)).
    destruct (negb _).
    + apply run_bind_Ok_inv in Hrun as (? & ? & _ & Hrun).
      injection Hrun as <- _. by left.
    + injection Hrun as <- _. by right.
  - injection Hrun as <- _. by right.
Qed.
End mark_det_facts.
(** C3.  A detection whose largest IoU with the boxes of its image equals
    the threshold is marked false positive, with no box claimed; and a round
    that writes [tp] had [ovmax > ovthresh], strictly.  In binary64 as in
    exact arithmetic. *)
Theorem mark_det_threshold_strict {F : Type} `{ScalarCompare F} {Box : Type}
    (get_iou_cc : Box → Box → F)
    (class_recs : gmap img_id class_rec) (image_ids : list img_id)
    (BB : list Box) (ovthresh : F) (st : mark_state F) (d : nat)
    (h : heap F Box) (img : img_id) (R : class_rec) (bb : Box)
    (BBGT : list Box) (ov : F) (j : nat) :
  image_ids !! d = Some img →
  class_recs !! img = Some R →
  BB !! d = Some bb →
  h !! bbox R = Some (OArray BBGT) →
  BBGT ≠ [] →
  overlap_scan get_iou_cc bb BBGT None (jmax st) = (Some ov, Some j) →
  (eqb ov ovthresh = true →
   mark_det get_iou_cc class_recs image_ids BB ovthresh st d h
   = (Ok (MarkState (tp st) (<[d := lit_1]> (fp st)) (Some j)), h)) ∧
  (∀ st' h',
     mark_det get_iou_cc class_recs image_ids BB ovthresh st d h = (Ok st', h') →
     tp st' ≠ tp st → ltb ovthresh ov = true).
Proof.
  intros Hd HR Hbb HBBGT Hne Hscan.
  pose proof (run_mark_det get_iou_cc class_recs image_ids BB ovthresh st d h
                img R bb BBGT Hd HR Hbb HBBGT) as Hrun.
  cbv zeta in Hrun. destruct BBGT as [|g BBGT]; [done|].
  rewrite Hscan in Hrun. cbn [fst snd exceeds] in Hrun.
  assert (ltb ovthresh ov = false →
          mark_det get_iou_cc class_recs image_ids BB ovthresh st d h
          = (Ok (MarkState (tp st) (<[d := lit_1]> (fp st)) (Some j)), h)) as Hfp.
  { intros Hlt. by rewrite Hrun, Hlt. }
  split.
  - intros Heq. apply Hfp. by apply eqb_ltb in Heq as [_ ?].
  - intros st' h' Hst' Htp. destruct (ltb ovthresh ov) eqn:Hlt; [done|].
    rewrite (Hfp eq_refl) in Hst'. injection Hst' as <- _. done.
Qed.

(** One box, one detection, IoU 0.25 and threshold 0.25, in binary64. *)
Lemma mark_det_threshold_strict_witness :
  mark_det (λ _ _ : nat, 0.25%float)
           {[0%nat := ClassRec 1%positive 2%positive]} [0%nat] [7%nat]
           0.25%float (MarkState [0%float] [0%float] None) 0
           {[1%positive := OArray [7%nat]; 2%positive := ODetList [false]]}
  = (Ok (MarkState [0%float] (<[0%nat := lit_1]> [0%float]) (Some 0%nat)),
     {[1%positive := OArray [7%nat]; 2%positive := ODetList [false]]}).
Proof.
  apply (mark_det_threshold_strict (λ _ _ : nat, 0.25%float)
           {[0%nat := ClassRec 1%positive 2%positive]} [0%nat] [7%nat]
           0.25%float (MarkState [0%float] [0%float] None) 0%nat
           {[1%positive := OArray [7%nat]; 2%positive := ODetList [false]]}
           0%nat (ClassRec 1%positive 2%positive) 7%nat [7%nat]
           0.25%float 0%nat);
    [reflexivity|reflexivity|reflexivity|reflexivity|discriminate
    |reflexivity|reflexivity].
Defined.

Section mark_dets_facts.
Context {F : Type} `{Scalar F} {Box : Type}.
Variable get_iou_cc : Box → Box → F.

(** The marking loop over the detections [k, k + n): the arrays keep their
    length, the rounds write no index outside the range, and inside it each
    index is written in exactly one array. *)
Lemma mark_dets_range (class_recs : gmap img_id class_rec)
    (image_ids : list img_id) (BB : list Box) (ovthresh : F)
    (n k N : nat) (st st' : mark_state F) (h h' : heap F Box) :
  foldM (mark_det get_iou_cc class_recs image_ids BB ovthresh) st (seq k n) h
  = (Ok st', h') →
  length (tp st) = N → length (fp st) = N → (k + n ≤ N)%nat →
  length (tp st') = N ∧ length (fp st') = N ∧
  (∀ i, (i < k ∨ k + n ≤ i)%nat →
        tp st' !! i = tp st !! i ∧ fp st' !! i = fp st !! i) ∧
  (∀ i, (k ≤ i < k + n)%nat →
        (tp st' !! i = Some lit_1 ∧ fp st' !! i = fp st !! i) ∨
        (tp st' !! i = tp st !! i ∧ fp st' !! i = Some lit_1)).
Proof.
  revert k st h. induction n as [|n IH]; intros k st h Hrun Htp Hfp Hk.
  - injection Hrun as <- _. split_and!; [done|done|done|]. intros i ?. lia.
  - cbn [seq] in Hrun. rewrite run_foldM_cons in Hrun.
    destruct (mark_det _ _ _ _ _ st k h) as [[st1|e] h1] eqn:Hstep; [|done].
    apply mark_det_marks in Hstep.
    assert (length (tp st1) = N ∧ length (fp st1) = N) as [Htp1 Hfp1].
    { destruct Hstep as [[-> ->]|[-> ->]]; by rewrite length_insert. }
    destruct (IH (S k) st1 h1 Hrun Htp1 Hfp1 ltac:(lia))
      as (Hl1 & Hl2 & Hout & Hin).
    split_and!; [done|done| |].
    + intros i Hi. destruct (Hout i ltac:(lia)) as [E1 E2]. rewrite E1, E2.
      destruct Hstep as [[E3 E4]|[E3 E4]]; rewrite E3, E4;
        rewrite ?list_lookup_insert_ne by lia; done.
    + intros i Hi. destruct (decide (i = k)) as [->|Hik].
      * destruct (Hout k ltac:(lia)) as [E1 E2]. rewrite E1, E2.
        destruct Hstep as [[E3 E4]|[E3 E4]]; rewrite E3, E4; [left|right];
          rewrite list_lookup_insert_eq by lia; done.
      * destruct (Hin i ltac:(lia)) as [[E1 E2]|[E1 E2]]; rewrite E1, E2;
          [left|right];
          destruct Hstep as [[E3 E4]|[E3 E4]]; rewrite ?E3, ?E4;
          rewrite ?list_lookup_insert_ne by lia; done.
Qed.

Lemma mark_dets_marked_once (class_recs : gmap img_id class_rec)
    (image_ids : list img_id) (BB : list Box) (ovthresh : F)
    (st : mark_state F) (h h' : heap F Box) :
  mark_dets get_iou_cc class_recs image_ids BB ovthresh h = (Ok st, h') →
  length (tp st) = length image_ids ∧ marked_once (tp st) (fp st).
Proof.
  unfold mark_dets. intros Hrun.
  eapply (mark_dets_range _ _ _ _ _ _ (length image_ids)) in Hrun
      as (Htp & Hfp & _ & Hin);
    [|cbn [tp fp]; by rewrite length_replicate..|lia].
  split; [done|]. apply Forall2_same_length_lookup. split; [congruence|].
  intros i t f Ht Hf.
  assert (i < length image_ids)%nat as Hi.
  { apply lookup_lt_Some in Ht. lia. }
  destruct (Hin i ltac:(lia)) as [[Ht' Hf']|[Ht' Hf']]; cbn [tp fp] in *;
    rewrite ?lookup_replicate_2 in * by done.
  - left. split; congruence.
  - right. split; congruence.
Qed.
End mark_dets_facts.

Section cumsum_facts.
Local Open Scope Q_scope.

Lemma cumsum_from_marked (tp fp : list Q) (a b : Q) (i : nat) :
  marked_once tp fp → (i < length tp)%nat →
  ∃ ct cf, cumsum_from a tp !! i = Some ct ∧ cumsum_from b fp !! i = Some cf ∧
           ct + cf == a + b + inject_Z (Z.of_nat (S i)).
Proof.
  intros Hm. revert a b i.
  induction Hm as [|t f tp fp Htf _ IH]; intros a b i Hi; simpl in Hi; [lia|].
  assert (t + f == 1) as Hone.
  { destruct Htf as [[-> ->]|[-> ->]]; reflexivity. }
  destruct i as [|i]; simpl.
  - exists (a + t), (b + f). split_and!; [done|done|].
    change (inject_Z (Z.of_nat 1)) with 1. lra.
  - destruct (IH (a + t) (b + f) i ltac:(lia)) as (ct & cf & Hct & Hcf & Hsum).
    exists ct, cf. split_and!; [done|done|]. rewrite Hsum.
    rewrite (Nat2Z.inj_succ (S i)), <- Z.add_1_r, inject_Z_plus.
    change (inject_Z 1) with 1. lra.
Qed.

Lemma cumsum_marked (tp fp : list Q) (i : nat) :
  marked_once tp fp → (i < length tp)%nat →
  ∃ ct cf, cumsum tp !! i = Some ct ∧ cumsum fp !! i = Some cf ∧
           ct + cf == inject_Z (Z.of_nat (S i)).
Proof.
  intros Hm Hi. destruct Hm as [|t f tp fp Htf Hm]; simpl in Hi; [lia|].
  assert (t + f == 1) as Hone.
  { destruct Htf as [[-> ->]|[-> ->]]; reflexivity. }
  destruct i as [|i]; simpl.
  - exists t, f. split_and!; [done|done|].
    change (inject_Z (Z.of_nat 1)) with 1. lra.
  - destruct (cumsum_from_marked tp fp t f i Hm ltac:(lia))
      as (ct & cf & Hct & Hcf & Hsum).
    exists ct, cf. split_and!; [done|done|]. rewrite Hsum.
    rewrite (Nat2Z.inj_succ (S i)), <- Z.add_1_r, inject_Z_plus.
    change (inject_Z 1) with 1. lra.
Qed.

Lemma inject_Z_S_ge_1 (i : nat) : 1 <= inject_Z (Z.of_nat (S i)).
Proof.
  change 1 with (inject_Z 1). rewrite <- Zle_Qle. lia.
Qed.

Lemma float64_eps_lt_1 : float64_eps (F:=Q) < 1.
Proof. vm_compute. reflexivity. Qed.
End cumsum_facts.
(* ===================================================================== *)
(** ** binary64: sums of small integers are exact *)
(* ===================================================================== *)

Section binary64_integers.
Local Open Scope Z_scope.

Lemma iter_pos_nat {A} (f : A → A) (n : positive) (x : A) :
  SpecFloat.iter_pos f n x = Nat.iter (Pos.to_nat n) f x.
Proof.
  revert x. induction n as [n IH|n IH|]; intros x; cbn [SpecFloat.iter_pos].
  - rewrite !IH, Pos2Nat.inj_xI.
    replace (S (2 * Pos.to_nat n)) with (Pos.to_nat n + (Pos.to_nat n + 1))%nat
      by lia.
    by rewrite !Nat.iter_add.
  - rewrite !IH, Pos2Nat.inj_xO.
    replace (2 * Pos.to_nat n)%nat with (Pos.to_nat n + Pos.to_nat n)%nat
      by lia.
    by rewrite Nat.iter_add.
  - reflexivity.
Qed.

Lemma Zpos_iter_xO (k : nat) (p : positive) :
  Z.pos (Nat.iter k xO p) = Z.pos p * 2 ^ Z.of_nat k.
Proof.
  induction k as [|k IH]; [cbn; lia|].
  rewrite Nat2Z.inj_succ, Z.pow_succ_r by lia.
  change (Nat.iter (S k) xO p) with (xO (Nat.iter k xO p)).
  rewrite Pos2Z.inj_xO, IH. lia.
Qed.

Lemma digits_iter_xO (k : nat) (p : positive) :
  Z.pos (digits2_pos (Nat.iter k xO p))
  = Z.pos (digits2_pos p) + Z.of_nat k.
Proof.
  induction k as [|k IH]; [cbn; lia|].
  change (Nat.iter (S k) xO p) with (xO (Nat.iter k xO p)).
  cbn [digits2_pos]. rewrite Pos2Z.inj_succ, IH. lia.
Qed.

Lemma digits2_pos_bounds (p : positive) :
  2 ^ (Z.pos (digits2_pos p) - 1) <= Z.pos p < 2 ^ Z.pos (digits2_pos p).
Proof.
  induction p as [p IH|p IH|]; cbn [digits2_pos]; [| |cbn; lia].
  - rewrite Pos2Z.inj_succ, (Pos2Z.inj_xI p).
    replace (Z.succ (Z.pos (digits2_pos p)) - 1)
      with (Z.succ (Z.pos (digits2_pos p) - 1)) by lia.
    rewrite !Z.pow_succ_r by lia.
    set (a := 2 ^ (Z.pos (digits2_pos p) - 1)) in *.
    set (b := 2 ^ Z.pos (digits2_pos p)) in *. clearbody a b. lia.
  - rewrite Pos2Z.inj_succ, (Pos2Z.inj_xO p).
    replace (Z.succ (Z.pos (digits2_pos p)) - 1)
      with (Z.succ (Z.pos (digits2_pos p) - 1)) by lia.
    rewrite !Z.pow_succ_r by lia.
    set (a := 2 ^ (Z.pos (digits2_pos p) - 1)) in *.
    set (b := 2 ^ Z.pos (digits2_pos p)) in *. clearbody a b. lia.
Qed.

Lemma digits2_pos_le (p : positive) (d : Z) :
  0 <= d → Z.pos p < 2 ^ d → Z.pos (digits2_pos p) <= d.
Proof.
  intros Hd Hp. destruct (digits2_pos_bounds p) as [Hlo _].
  destruct (Z_le_gt_dec (Z.pos (digits2_pos p)) d) as [|Hgt]; [done|].
  assert (2 ^ d <= 2 ^ (Z.pos (digits2_pos p) - 1))
    by (apply Z.pow_le_mono_r; lia).
  lia.
Qed.

Lemma shr_iter_xO (k j : nat) (p : positive) :
  Nat.iter k shr_1
    {| shr_m := Z.pos (Nat.iter (k + j) xO p); shr_r := false; shr_s := false |}
  = {| shr_m := Z.pos (Nat.iter j xO p); shr_r := false; shr_s := false |}.
Proof.
  induction k as [|k IH]; [done|].
  rewrite Nat.iter_succ_r.
  change (Nat.iter (S k + j) xO p) with (xO (Nat.iter (k + j) xO p)).
  cbn [shr_1 orb]. apply IH.
Qed.
End binary64_integers.

Section binary64_round.
Local Open Scope Z_scope.

Lemma fexp_digits (d : Z) : 0 < d → fexp prec emax d = d - 53.
Proof. intros Hd. unfold fexp, SpecFloat.emin, prec, emax. lia. Qed.

Lemma shr_fexp_shift (p : positive) (j : nat) :
  Z.pos (digits2_pos p) <= 53 →
  (53 - Pos.to_nat (digits2_pos p) <= j)%nat →
  shr_fexp prec emax (Z.pos (Nat.iter j xO p)) (- Z.of_nat j) loc_Exact
  = ({| shr_m := Z.pos (Nat.iter (53 - Pos.to_nat (digits2_pos p)) xO p);
        shr_r := false; shr_s := false |},
     Z.pos (digits2_pos p) - 53).
Proof.
  intros Hd Hj. unfold shr_fexp. cbn [Zdigits2 shr_record_of_loc].
  rewrite digits_iter_xO.
  replace (Z.pos (digits2_pos p) + Z.of_nat j + - Z.of_nat j)
    with (Z.pos (digits2_pos p)) by lia.
  rewrite fexp_digits by lia.
  destruct (Z.pos (digits2_pos p) - 53 - - Z.of_nat j) as [|q|q] eqn:Hn;
    cbn [shr]; [|rewrite <- Hn|lia].
  - assert (j = 53 - Pos.to_nat (digits2_pos p))%nat as -> by lia.
    f_equal. lia.
  - f_equal; [|lia]. rewrite iter_pos_nat.
    assert (j = Pos.to_nat q + (53 - Pos.to_nat (digits2_pos p)))%nat as ->
      by lia.
    apply shr_iter_xO.
Qed.

Lemma binary_round_aux_shift (p : positive) (j : nat) :
  Z.pos (digits2_pos p) <= 53 →
  (53 - Pos.to_nat (digits2_pos p) <= j)%nat →
  binary_round_aux prec emax false (Z.pos (Nat.iter j xO p)) (- Z.of_nat j)
                   loc_Exact
  = canon64 p.
Proof.
  intros Hd Hj. unfold binary_round_aux.
  rewrite (shr_fexp_shift p j Hd Hj).
  cbn [shr_m loc_of_shr_record round_nearest_even].
  replace (Z.pos (digits2_pos p) - 53)
    with (- Z.of_nat (53 - Pos.to_nat (digits2_pos p))) at 1 by lia.
  rewrite (shr_fexp_shift p _ Hd (Nat.le_refl _)). cbn [shr_m].
  assert ((Z.pos (digits2_pos p) - 53 <=? emax - prec) = true) as ->; [|done].
  apply Z.leb_le. unfold emax, prec. lia.
Qed.

Lemma binary_round_shift (p : positive) (j : nat) :
  Z.pos (digits2_pos p) <= 53 →
  binary_round prec emax false (Nat.iter j xO p) (- Z.of_nat j) = canon64 p.
Proof.
  intros Hd. unfold binary_round. rewrite digits_iter_xO.
  replace (Z.pos (digits2_pos p) + Z.of_nat j + - Z.of_nat j)
    with (Z.pos (digits2_pos p)) by lia.
  rewrite fexp_digits by lia. unfold shl_align.
  destruct (Z.pos (digits2_pos p) - 53 - - Z.of_nat j) as [|q|q] eqn:Hn.
  - apply binary_round_aux_shift; [done|lia].
  - apply binary_round_aux_shift; [done|lia].
  - rewrite Pos2Nat.inj_iter.
    change (nat_rect (λ _ : nat, positive) (Nat.iter j xO p) (λ _ : nat, xO)
              (Pos.to_nat q))
      with (Nat.iter (Pos.to_nat q) xO (Nat.iter j xO p)).
    rewrite <- (Nat.iter_add (Pos.to_nat q) j xO p).
    replace (Z.pos (digits2_pos p) - 53)
      with (- Z.of_nat (Pos.to_nat q + j)) by lia.
    apply binary_round_aux_shift; [done|lia].
Qed.
End binary64_round.

Section binary64_sums.
Local Open Scope Z_scope.

Lemma Prim2SF_of_Z_pos (n : Z) :
  0 < n < 2 ^ 53 → Prim2SF (float_of_Z n) = canon64 (Z.to_pos n).
Proof.
  intros Hn. unfold float_of_Z.
  destruct (Z.ltb_spec n 0) as [|_]; [lia|].
  rewrite FloatAxioms.of_uint63_spec, Uint63.of_Z_spec.
  rewrite Z.mod_small by (change wB with (2 ^ 63); lia).
  destruct n as [|p|p]; [lia| |lia]. cbn [binary_normalize Z.to_pos].
  apply (binary_round_shift p 0).
  apply digits2_pos_le; lia.
Qed.

Lemma Prim2SF_of_Z_0 : Prim2SF (float_of_Z 0) = S754_zero false.
Proof. reflexivity. Qed.

Lemma shl_align_fst (m : positive) (e e' : Z) :
  e' <= e → fst (shl_align m e e') = Nat.iter (Z.to_nat (e - e')) xO m.
Proof.
  intros He. unfold shl_align.
  destruct (e' - e) as [|q|q] eqn:Hq; cbn [fst]; [|lia|].
  - by replace (e - e') with 0 by lia.
  - assert (Z.to_nat (e - e') = Pos.to_nat q) as -> by lia.
    apply Pos2Nat.inj_iter.
Qed.

Lemma SFadd_canon64 (a b : positive) :
  Z.pos (a + b) < 2 ^ 53 →
  SF64add (canon64 a) (canon64 b) = canon64 (a + b).
Proof.
  intros Hab.
  assert (Z.pos (digits2_pos a) <= 53) as Ha by (apply digits2_pos_le; lia).
  assert (Z.pos (digits2_pos b) <= 53) as Hb by (apply digits2_pos_le; lia).
  assert (Z.pos (digits2_pos (a + b)) <= 53) as Hs
    by (apply digits2_pos_le; lia).
  unfold SF64add, canon64, SFadd. cbn [cond_Zopp].
  set (da := digits2_pos a) in *. set (db := digits2_pos b) in *.
  set (ez := Z.min (Z.pos da - 53) (Z.pos db - 53)).
  rewrite !shl_align_fst by lia. rewrite <- !Nat.iter_add.
  set (J := (53 - Pos.to_nat (Pos.min da db))%nat).
  assert (Z.to_nat (Z.pos da - 53 - ez) + (53 - Pos.to_nat da) = J)%nat as ->
    by lia.
  assert (Z.to_nat (Z.pos db - 53 - ez) + (53 - Pos.to_nat db) = J)%nat as ->
    by lia.
  assert (Z.pos (Nat.iter J xO a) + Z.pos (Nat.iter J xO b)
          = Z.pos (Nat.iter J xO (a + b)%positive)) as ->.
  { rewrite !Zpos_iter_xO, Pos2Z.inj_add. lia. }
  cbn [binary_normalize].
  replace ez with (- Z.of_nat J) by lia.
  by apply binary_round_shift.
Qed.

(** The sum of two non-negative integers below 2^53 is exact in
    binary64. *)
Lemma float_add_of_Z (a b : Z) :
  0 <= a → 0 <= b → a + b < 2 ^ 53 →
  add (of_Z a) (of_Z b) = of_Z (a + b) :> float.
Proof.
  intros Ha Hb Hab. cbn [add of_Z float_scalar].
  apply FloatAxioms.Prim2SF_inj. rewrite FloatAxioms.add_spec.
  destruct (decide (a = 0)) as [->|Ha0], (decide (b = 0)) as [->|Hb0].
  - reflexivity.
  - rewrite Z.add_0_l, Prim2SF_of_Z_0, (Prim2SF_of_Z_pos b) by lia.
    reflexivity.
  - rewrite Z.add_0_r, Prim2SF_of_Z_0, (Prim2SF_of_Z_pos a) by lia.
    reflexivity.
  - rewrite (Prim2SF_of_Z_pos a), (Prim2SF_of_Z_pos b),
      (Prim2SF_of_Z_pos (a + b)) by lia.
    rewrite Z2Pos.inj_add by lia. apply SFadd_canon64.
    rewrite <- Z2Pos.inj_add, Z2Pos.id by lia. done.
Qed.

Lemma float_eqb_of_Z (n : Z) :
  0 <= n < 2 ^ 53 → eqb (of_Z n) (of_Z n : float) = true.
Proof.
  intros Hn. cbn [eqb of_Z float_scalar]. rewrite FloatAxioms.eqb_spec.
  destruct (decide (n = 0)) as [->|Hn0]; [reflexivity|].
  rewrite (Prim2SF_of_Z_pos n) by lia. unfold canon64, SFeqb.
  cbn [SFcompare]. rewrite Z.compare_refl.
  change (Pos.compare_cont Eq ?x ?y) with (Pos.compare x y).
  by rewrite Pos.compare_refl.
Qed.

Lemma float_eqb_of_Z_0 (n : Z) :
  0 < n < 2 ^ 53 → eqb (of_Z n) (of_Z 0 : float) = false.
Proof.
  intros Hn. cbn [eqb of_Z float_scalar]. rewrite FloatAxioms.eqb_spec.
  rewrite (Prim2SF_of_Z_pos n) by lia. reflexivity.
Qed.

Lemma float_ltb_of_Z_eps (n : Z) :
  0 < n < 2 ^ 53 → ltb (of_Z n) (float64_eps : float) = false.
Proof.
  intros Hn. cbn [ltb of_Z float_scalar]. rewrite FloatAxioms.ltb_spec.
  rewrite (Prim2SF_of_Z_pos n) by lia.
  change (Prim2SF float64_eps) with (S754_finite false 4503599627370496 (-104)).
  unfold canon64, SFltb. cbn [SFcompare].
  destruct (Z.compare_spec (Z.pos (digits2_pos (Z.to_pos n)) - 53) (-104));
    [lia|lia|done].
Qed.

Lemma float_maximum_of_Z_eps (n : Z) :
  0 < n < 2 ^ 53 → maximum (of_Z n) float64_eps = of_Z n :> float.
Proof.
  intros Hn. unfold maximum.
  rewrite float_eqb_of_Z by lia. rewrite float_ltb_of_Z_eps by lia.
  assert (eqb (float64_eps : float) float64_eps = true) as Heps
    by reflexivity.
  by rewrite Heps.
Qed.
End binary64_sums.

Section cumsum_binary64.
Local Open Scope Z_scope.

(** The running sums of the flags, in binary64: integers, added without
    rounding as long as they stay below 2^53. *)
Lemma cumsum_from_marked_float (tp fp : list float) (a b : Z) (i : nat) :
  marked_once tp fp → 0 <= a → 0 <= b →
  a + b + Z.of_nat (length tp) < 2 ^ 53 → (i < length tp)%nat →
  ∃ a' b', 0 <= a' ∧ 0 <= b' ∧ a' + b' = a + b + Z.of_nat (S i) ∧
           cumsum_from (of_Z a) tp !! i = Some (of_Z a') ∧
           cumsum_from (of_Z b) fp !! i = Some (of_Z b').
Proof.
  intros Hm. revert a b i.
  induction Hm as [|t f tp fp Htf _ IH]; intros a b i Ha Hb Hlen Hi;
    cbn [length] in Hi, Hlen; [lia|].
  assert (∃ x y, 0 <= x ∧ 0 <= y ∧ x + y = 1 ∧ t = of_Z x ∧ f = of_Z y)
    as (x & y & Hx & Hy & Hxy & -> & ->).
  { destruct Htf as [[-> ->]|[-> ->]]; [exists 1, 0|exists 0, 1]; done. }
  cbn [cumsum_from].
  rewrite (float_add_of_Z a x), (float_add_of_Z b y) by lia.
  destruct i as [|i]; cbn [lookup list_lookup].
  - exists (a + x), (b + y). split_and!; [lia|lia|lia|done|done].
  - destruct (IH (a + x) (b + y) i) as (a' & b' & Ha' & Hb' & Hs & Hta & Hfb);
      [lia..|].
    exists a', b'. split_and!; [lia|lia|lia|done|done].
Qed.

Lemma cumsum_marked_float (tp fp : list float) (i : nat) :
  marked_once tp fp → Z.of_nat (length tp) < 2 ^ 53 → (i < length tp)%nat →
  ∃ a b, 0 <= a ∧ 0 <= b ∧ a + b = Z.of_nat (S i) ∧
         cumsum tp !! i = Some (of_Z a) ∧ cumsum fp !! i = Some (of_Z b).
Proof.
  intros Hm Hlen Hi. destruct Hm as [|t f tp fp Htf Hm];
    cbn [length] in Hi, Hlen; [lia|].
  assert (∃ x y, 0 <= x ∧ 0 <= y ∧ x + y = 1 ∧ t = of_Z x ∧ f = of_Z y)
    as (x & y & Hx & Hy & Hxy & -> & ->).
  { destruct Htf as [[-> ->]|[-> ->]]; [exists 1, 0|exists 0, 1]; done. }
  cbn [cumsum]. destruct i as [|i]; cbn [lookup list_lookup].
  - exists x, y. split_and!; [lia|lia|lia|done|done].
  - destruct (cumsum_from_marked_float tp fp x y i Hm)
      as (a' & b' & Ha' & Hb' & Hs & Hta & Hfb); [lia..|].
    exists a', b'. split_and!; [lia|lia|lia|done|done].
Qed.
End cumsum_binary64.

(** C8.  Every detection the marking loop processes is marked in exactly
    one of [tp] and [fp]; hence the cumulative sums add up to [i + 1] at
    index [i], [np.maximum] with [eps] returns its first argument, the
    denominator of the precision is not zero, and the precision is
    [cumTP / (cumTP + cumFP)].  In exact arithmetic; and in binary64 for
    fewer than 2^53 detections, where the sums of the flags are integers
    that binary64 adds without rounding. *)
Theorem marked_once_precision :
  (∀ (Box : Type) (get_iou_cc : Box → Box → Q)
     (class_recs : gmap img_id class_rec) (image_ids : list img_id)
     (BB : list Box) (ovthresh : Q) (h h' : heap Q Box) (st : mark_state Q)
     (npos : Z),
     mark_dets get_iou_cc class_recs image_ids BB ovthresh h = (Ok st, h') →
     length (tp st) = length image_ids ∧
     marked_once (tp st) (fp st) ∧
     ∀ i, (i < length image_ids)%nat →
       ∃ ct cf : Q,
         cumsum (tp st) !! i = Some ct ∧ cumsum (fp st) !! i = Some cf ∧
         (ct + cf == inject_Z (Z.of_nat (S i)))%Q ∧
         (1 <= ct + cf)%Q ∧
         maximum (add ct cf) float64_eps = add ct cf ∧
         ¬ (maximum (add ct cf) float64_eps == 0)%Q ∧
         (precision_recall (tp st) (fp st) npos).2 !! i
         = Some (ct / (ct + cf))%Q) ∧
  (∀ (Box : Type) (get_iou_cc : Box → Box → float)
     (class_recs : gmap img_id class_rec) (image_ids : list img_id)
     (BB : list Box) (ovthresh : float) (h h' : heap float Box)
     (st : mark_state float) (npos : Z),
     mark_dets get_iou_cc class_recs image_ids BB ovthresh h = (Ok st, h') →
     Z.of_nat (length image_ids) < 2 ^ 53 →
     length (tp st) = length image_ids ∧
     marked_once (tp st) (fp st) ∧
     ∀ i, (i < length image_ids)%nat →
       ∃ a b : Z,
         0 <= a ∧ 0 <= b ∧ a + b = Z.of_nat (S i) ∧
         cumsum (tp st) !! i = Some (of_Z a) ∧
         cumsum (fp st) !! i = Some (of_Z b) ∧
         add (of_Z a) (of_Z b) = of_Z (Z.of_nat (S i)) :> float ∧
         maximum (add (of_Z a) (of_Z b)) float64_eps
         = add (of_Z a) (of_Z b) :> float ∧
         eqb (maximum (add (of_Z a) (of_Z b : float)) float64_eps) (of_Z 0)
         = false ∧
         (precision_recall (tp st) (fp st) npos).2 !! i
         = Some (div (of_Z a) (of_Z (Z.of_nat (S i))))).
Proof.
  split.
  - intros Box get_iou_cc class_recs image_ids BB ovthresh h h' st npos Hrun.
    apply mark_dets_marked_once in Hrun as [Hlen Hm].
    split; [done|]. split; [done|]. intros i Hi.
    destruct (cumsum_marked (tp st) (fp st) i Hm ltac:(lia))
      as (ct & cf & Hct & Hcf & Hsum).
    pose proof (inject_Z_S_ge_1 i) as Hge. pose proof float64_eps_lt_1 as Heps.
    assert (1 <= ct + cf)%Q as H1 by lra.
    assert (maximum (add ct cf) float64_eps = add ct cf) as Hmax.
    { unfold maximum. rewrite !Q_eqb_refl.
      assert (ltb (add ct cf) (float64_eps (F:=Q)) = false) as ->; [|done].
      apply Q_ltb_ge. change (add ct cf) with (ct + cf)%Q. lra. }
    exists ct, cf. split_and!; [done|done|done|done|done| |].
    + rewrite Hmax. change (add ct cf) with (ct + cf)%Q. lra.
    + unfold precision_recall. cbn [snd].
      rewrite lookup_zip_with, Hct. cbn [mbind option_bind].
      rewrite list_lookup_fmap, lookup_zip_with, Hct. cbn [mbind option_bind].
      rewrite Hcf. cbn [mbind option_bind fmap option_fmap option_map].
      by rewrite Hmax.
  - intros Box get_iou_cc class_recs image_ids BB ovthresh h h' st npos Hrun
      Hbound.
    apply mark_dets_marked_once in Hrun as [Hlen Hm].
    split; [done|]. split; [done|]. intros i Hi.
    destruct (cumsum_marked_float (tp st) (fp st) i Hm ltac:(lia) ltac:(lia))
      as (a & b & Ha & Hb & Hab & Hct & Hcf).
    assert (add (of_Z a) (of_Z b) = of_Z (Z.of_nat (S i)) :> float) as Hadd.
    { rewrite <- Hab. apply float_add_of_Z; lia. }
    exists a, b. split_and!; [done|done|done|done|done|done| | |].
    + rewrite Hadd. apply float_maximum_of_Z_eps. lia.
    + rewrite Hadd, float_maximum_of_Z_eps by lia.
      apply float_eqb_of_Z_0. lia.
    + unfold precision_recall. cbn [snd].
      rewrite lookup_zip_with, Hct. cbn [mbind option_bind].
      rewrite list_lookup_fmap, lookup_zip_with, Hct. cbn [mbind option_bind].
      rewrite Hcf. cbn [mbind option_bind fmap option_fmap option_map].
      by rewrite Hadd, float_maximum_of_Z_eps by lia.
Qed.

(** Scenario B in binary64: one box, two detections of it. *)
Lemma marked_once_precision_witness :
  let st := MarkState [1%float; 0%float] [0%float; 1%float] (Some 0%nat) in
  length (tp st) = 2%nat ∧
  marked_once (tp st) (fp st) ∧
  ∀ i, (i < 2)%nat →
    ∃ a b : Z,
      0 <= a ∧ 0 <= b ∧ a + b = Z.of_nat (S i) ∧
      cumsum (tp st) !! i = Some (of_Z a) ∧
      cumsum (fp st) !! i = Some (of_Z b) ∧
      add (of_Z a) (of_Z b) = of_Z (Z.of_nat (S i)) :> float ∧
      maximum (add (of_Z a) (of_Z b)) float64_eps
      = add (of_Z a) (of_Z b) :> float ∧
      eqb (maximum (add (of_Z a) (of_Z b : float)) float64_eps) (of_Z 0)
      = false ∧
      (precision_recall (tp st) (fp st) 1).2 !! i
      = Some (div (of_Z a) (of_Z (Z.of_nat (S i)))).
Proof.
  apply (proj2 marked_once_precision nat (λ _ _ : nat, 1%float)
           {[0%nat := ClassRec 1%positive 2%positive]} [0%nat; 0%nat]
           [7%nat; 7%nat] 0.25%float
           {[1%positive := OArray [7%nat]; 2%positive := ODetList [false]]}
           {[1%positive := OArray [7%nat]; 2%positive := ODetList [true]]}
           (MarkState [1%float; 0%float] [0%float; 1%float] (Some 0%nat)) 1).
  - vm_compute. reflexivity.
  - vm_compute. reflexivity.
Defined.

(* ===================================================================== *)
(** ** What a call leaves of the store it started from *)
(* ===================================================================== *)

Section frame_facts.
Context {F : Type} `{Scalar F} {Box : Type}.
Variable get_iou_cc : Box → Box → F.
Local Abbreviation M := (M F Box).
Local Abbreviation heap := (heap F Box).

Lemma run_bind_read {A B} (m : M A) (f : A → M B) (h : heap) :
  (m h).2 = h →
  (m ≫= f) h = match (m h).1 with Ok a => f a h | Raise e => (Raise e, h) end.
Proof.
  intros Hm. rewrite run_bind. destruct (m h) as [[a|e] h1]; by simpl in *; subst.
Qed.

Lemma run_alloc_bind {B} (o : obj F Box) (f : loc → M B) (h : heap) :
  (alloc o ≫= f) h = f (fresh (dom h)) (<[fresh (dom h) := o]> h).
Proof. reflexivity. Qed.

Lemma fresh_lookup_None (h : heap) : h !! fresh (dom h) = None.
Proof. apply not_elem_of_dom, is_fresh. Qed.

Lemma alloc_subseteq (h0 h : heap) (o : obj F Box) :
  h0 ⊆ h → h0 ⊆ <[fresh (dom h) := o]> h.
Proof.
  intros Hsub. etrans; [exact Hsub|]. apply insert_subseteq, fresh_lookup_None.
Qed.

Lemma img_getitem_store (l : loc) (k : img_id) (h : heap) :
  (img_getitem l k h).2 = h.
Proof.
  unfold img_getitem. rewrite run_bind_read by apply read_img_dict_store.
  by destruct (read_img_dict l h).1.
Qed.

Lemma img_keys_store (l : loc) (h : heap) : (img_keys l h).2 = h.
Proof.
  unfold img_keys. rewrite run_bind_read by apply read_img_dict_store.
  by destruct (read_img_dict l h).1.
Qed.

Lemma img_contains_store (l : loc) (k : img_id) (h : heap) :
  (img_contains l k h).2 = h.
Proof.
  unfold img_contains. rewrite run_bind_read by apply read_img_dict_store.
  by destruct (read_img_dict l h).1.
Qed.

Lemma class_getitem_store (l : loc) (k : string) (h : heap) :
  (class_getitem l k h).2 = h.
Proof.
  unfold class_getitem. rewrite run_bind_read by apply read_class_dict_store.
  by destruct (read_class_dict l h).1.
Qed.

Lemma class_keys_store (l : loc) (h : heap) : (class_keys l h).2 = h.
Proof.
  unfold class_keys. rewrite run_bind_read by apply read_class_dict_store.
  by destruct (read_class_dict l h).1.
Qed.

(** A loop keeps the objects of [h0], and an invariant of its variables,
    when every round does. *)
Lemma foldM_frame {S A} (body : S → A → M S) (I : S → Prop) (h0 : heap)
    (l : list A) (s : S) (h : heap) :
  (∀ s x h, h0 ⊆ h → I s →
            h0 ⊆ (body s x h).2 ∧ ∀ s', (body s x h).1 = Ok s' → I s') →
  h0 ⊆ h → I s →
  h0 ⊆ (foldM body s l h).2 ∧ ∀ s', (foldM body s l h).1 = Ok s' → I s'.
Proof.
  intros Hbody. revert s h. induction l as [|x l IH]; intros s h Hsub HI.
  - simpl. split; [done|]. by intros s' [= <-].
  - rewrite run_foldM_cons. destruct (Hbody s x h Hsub HI) as [Hsub1 HI1].
    destruct (body s x h) as [[s1|e] h1]; simpl in *; [|done].
    apply IH; [done|]. by apply HI1.
Qed.

Lemma construct_gt_step_frame (h0 : heap) (gt : loc)
    (acc : gmap img_id class_rec * Z) (img : img_id) (h : heap) :
  h0 ⊆ h →
  (∀ i R, acc.1 !! i = Some R → h0 !! det R = None) →
  h0 ⊆ (construct_gt_step gt acc img h).2 ∧
  ∀ acc', (construct_gt_step gt acc img h).1 = Ok acc' →
          ∀ i R, acc'.1 !! i = Some R → h0 !! det R = None.
Proof.
  intros Hsub Hacc. unfold construct_gt_step.
  rewrite run_bind_read by apply img_getitem_store.
  destruct (img_getitem gt img h).1 as [l|e]; [|done].
  rewrite run_bind_read by apply read_boxes_store.
  destruct (read_boxes l h).1 as [boxes|e]; [|done].
  rewrite !run_alloc_bind. simpl.
  split; [by do 2 apply alloc_subseteq|].
  intros acc' [= <-] i R. simpl. rewrite lookup_insert.
  case_decide; [|by apply Hacc]. intros [= <-]. simpl.
  eapply lookup_weaken_None; [apply fresh_lookup_None|].
  by apply alloc_subseteq.
Qed.

Lemma pad_empty_step_frame (h0 : heap) (gt : loc)
    (class_recs : gmap img_id class_rec) (img : img_id) (h : heap) :
  h0 ⊆ h →
  (∀ i R, class_recs !! i = Some R → h0 !! det R = None) →
  h0 ⊆ (pad_empty_step gt class_recs img h).2 ∧
  ∀ recs', (pad_empty_step gt class_recs img h).1 = Ok recs' →
           ∀ i R, recs' !! i = Some R → h0 !! det R = None.
Proof.
  intros Hsub Hacc. unfold pad_empty_step.
  rewrite run_bind_read by apply img_contains_store.
  destruct (img_contains gt img h).1 as [[|]|e]; [| |done].
  - simpl. split; [done|]. by intros recs' [= <-].
  - rewrite !run_alloc_bind. simpl.
    split; [by do 2 apply alloc_subseteq|].
    intros recs' [= <-] i R. rewrite lookup_insert.
    case_decide; [|by apply Hacc]. intros [= <-]. simpl.
    eapply lookup_weaken_None; [apply fresh_lookup_None|].
    by apply alloc_subseteq.
Qed.

Lemma construct_dets_store (pred : loc) (h : heap) :
  (construct_dets pred h).2 = h.
Proof.
  unfold construct_dets. rewrite run_bind_read by apply img_keys_store.
  destruct (img_keys pred h).1 as [keys|e]; [|done].
  generalize (@nil img_id, @nil F, @nil Box).
  induction keys as [|k keys IH]; intros acc; [done|].
  rewrite run_foldM_cons. unfold construct_dets_step at 1.
  rewrite run_bind_read by apply img_getitem_store.
  destruct (img_getitem pred k h).1 as [l|e]; [|done].
  rewrite run_bind_read by apply read_pred_list_store.
  destruct (read_pred_list l h).1 as [items|e]; [|done].
  simpl. apply IH.
Qed.

Lemma det_setitem_frame (h0 : heap) (l : loc) (j : nat) (v : bool) (h : heap) :
  h0 ⊆ h → h0 !! l = None → h0 ⊆ (det_setitem l j v h).2.
Proof.
  intros Hsub Hl. unfold det_setitem.
  rewrite run_bind_read by apply read_det_list_store.
  destruct (read_det_list l h).1 as [dets|e]; [|done].
  case_decide; [|done]. simpl. by apply insert_subseteq_r.
Qed.

Lemma mark_det_frame (h0 : heap) (class_recs : gmap img_id class_rec)
    (image_ids : list img_id) (BB : list Box) (ovthresh : F)
    (st : mark_state F) (d : nat) (h : heap) :
  (∀ i R, class_recs !! i = Some R → h0 !! det R = None) →
  h0 ⊆ h →
  h0 ⊆ (mark_det get_iou_cc class_recs image_ids BB ovthresh st d h).2.
Proof.
  intros Hrecs Hsub. unfold mark_det.
  rewrite run_lift_bind. destruct (or_raise _ (image_ids !! d)) as [img|e]; [|done].
  rewrite run_lift_bind.
  destruct (class_recs !! img) as [R|] eqn:HR; [|done]. cbn [or_raise].
  rewrite run_lift_bind. destruct (or_raise _ (BB !! d)) as [bb|e]; [|done].
  rewrite run_bind_read by apply read_array_store.
  destruct (read_array (bbox R) h).1 as [BBGT|e]; [|done].
  destruct (exceeds _ _); [|done].
  rewrite run_lift_bind. destruct (or_raise _ _) as [j|e]; [|done].
  rewrite run_bind_read by apply read_det_list_store.
  destruct (read_det_list (det R) h).1 as [dets|e]; [|done].
  rewrite run_lift_bind. destruct (or_raise _ (dets !! j)) as [flag|e]; [|done].
  destruct (negb flag); [|done].
  rewrite run_bind.
  pose proof (det_setitem_frame h0 (det R) j true h Hsub (Hrecs _ _ HR)) as Hset.
  by destruct (det_setitem (det R) j true h) as [[[]|e] h1].
Qed.

(** The per-class evaluator leaves every object of the store it is called
    in as it was. *)
Lemma eval_det_cls_frame (pred gt : loc) (ovthresh : F) (use_07_metric : bool)
    (h : heap) :
  h ⊆ (eval_det_cls get_iou_cc pred gt ovthresh use_07_metric h).2.
Proof.
  unfold eval_det_cls. rewrite run_bind.
  assert (h ⊆ (construct_gt gt h).2 ∧
          ∀ gts, (construct_gt gt h).1 = Ok gts →
                 ∀ i R, gts.1 !! i = Some R → h !! det R = None) as [Hsub1 Hrecs1].
  { unfold construct_gt. rewrite run_bind_read by apply img_keys_store.
    destruct (img_keys gt h).1 as [keys|e]; [|done].
    apply (foldM_frame _ (λ acc, ∀ i R, acc.1 !! i = Some R → h !! det R = None));
      [intros; by apply construct_gt_step_frame|done|].
    intros i R. simpl. by rewrite lookup_empty. }
  destruct (construct_gt gt h) as [[gts|e] h1]; [|done]. simpl in Hsub1, Hrecs1.
  specialize (Hrecs1 gts eq_refl). rewrite run_bind.
  assert (h ⊆ (pad_empty pred gt gts.1 h1).2 ∧
          ∀ recs, (pad_empty pred gt gts.1 h1).1 = Ok recs →
                  ∀ i R, recs !! i = Some R → h !! det R = None) as [Hsub2 Hrecs2].
  { unfold pad_empty. rewrite run_bind_read by apply img_keys_store.
    destruct (img_keys pred h1).1 as [keys|e]; [|done].
    apply (foldM_frame _ (λ recs, ∀ i R, recs !! i = Some R → h !! det R = None));
      [intros; by apply pad_empty_step_frame|done|done]. }
  destruct (pad_empty pred gt gts.1 h1) as [[class_recs|e] h2]; [|done].
  simpl in Hsub2, Hrecs2. specialize (Hrecs2 class_recs eq_refl).
  rewrite run_bind_read by apply construct_dets_store.
  destruct (construct_dets pred h2).1 as [[[image_ids confidence] BB]|e]; [|done].
  rewrite run_lift_bind. destruct (take_indices BB _) as [BB'|e]; [|done].
  rewrite run_lift_bind. destruct (take_indices image_ids _) as [ids'|e]; [|done].
  rewrite run_bind.
  assert (h ⊆ (mark_dets get_iou_cc class_recs ids' BB' ovthresh h2).2) as Hsub3.
  { unfold mark_dets.
    apply (foldM_frame _ (λ _, True) h); [|done|done].
    intros s x h3 Hh3 _. split; [|done]. by apply mark_det_frame. }
  destruct (mark_dets _ _ _ _ _ h2) as [[st|e] h3]; [|done]. simpl in Hsub3.
  destruct (precision_recall _ _ _) as [rec prec].
  rewrite run_lift_bind. by destruct (voc_ap rec prec use_07_metric).
Qed.
End frame_facts.

Section weaken_facts.
Context {F Box : Type}.

Lemma holds_pred_weaken (h h' : heap F Box) (pred : loc)
    (pv : list (img_id * list (Box * F))) :
  h ⊆ h' → holds_pred h pred pv → holds_pred h' pred pv.
Proof.
  intros Hsub (d & Hd & Hnd & Hall). exists d. split_and!; [|done|].
  - by eapply lookup_weaken.
  - eapply Forall2_impl; [exact Hall|]. intros e v [? ?]. split; [done|].
    by eapply lookup_weaken.
Qed.

Lemma holds_gt_weaken (h h' : heap F Box) (gt : loc)
    (gv : list (img_id * list Box)) :
  h ⊆ h' → holds_gt h gt gv → holds_gt h' gt gv.
Proof.
  intros Hsub (d & Hd & Hnd & Hall). exists d. split_and!; [|done|].
  - by eapply lookup_weaken.
  - eapply Forall2_impl; [exact Hall|]. intros e v [? [?|?]]; (split; [done|]);
      [left|right]; by eapply lookup_weaken.
Qed.
End weaken_facts.

(** C10.  The per-class evaluator leaves the store it is called in as it
    was: every object there before the call is there, unchanged, after it,
    so the prediction map and the ground-truth map hold after the call the
    contents they held before.  The arrays and lists of [class_recs] are new
    objects, and the only write, [R['det'][jmax] = 1], goes to one of
    those. *)
Theorem eval_det_cls_inputs_unchanged {F : Type} `{Scalar F} {Box : Type}
    (get_iou_cc : Box → Box → F) (pred gt : loc) (ovthresh : F)
    (use_07_metric : bool) (h : heap F Box) :
  let h' := (eval_det_cls get_iou_cc pred gt ovthresh use_07_metric h).2 in
  h ⊆ h' ∧
  (∀ l, is_Some (h !! l) → h' !! l = h !! l) ∧
  (∀ pv, holds_pred h pred pv → holds_pred h' pred pv) ∧
  (∀ gv, holds_gt h gt gv → holds_gt h' gt gv).
Proof.
  intros h'.
  assert (h ⊆ h') as Hsub by apply eval_det_cls_frame.
  split_and!.
  - done.
  - intros l [o Hl]. rewrite Hl. by eapply lookup_weaken.
  - intros pv. by apply holds_pred_weaken.
  - intros gv. by apply holds_gt_weaken.
Qed.

(* ===================================================================== *)
(** ** The evaluator returns what its value form returns *)
(* ===================================================================== *)

Section assoc_facts.
Context {K V : Type} `{EqDecision K}.

Lemma assoc_NoDup (d : list (K * V)) (e : K * V) :
  NoDup d.*1 → e ∈ d → assoc e.1 d = Some e.2.
Proof.
  induction d as [|[k v] d IH]; simpl; intros Hnd Hin.
  - by apply elem_of_nil in Hin.
  - apply NoDup_cons in Hnd as [Hk Hnd].
    apply elem_of_cons in Hin as [->|Hin]; simpl.
    + by rewrite decide_True.
    + rewrite decide_False; [by apply IH|].
      intros Heq. apply Hk. rewrite <- Heq. apply list_elem_of_fmap. by exists e.
Qed.

Lemma assoc_is_Some (d : list (K * V)) (k : K) :
  is_Some (assoc k d) ↔ k ∈ d.*1.
Proof.
  induction d as [|[k' v] d IH]; simpl.
  - split; [by intros [? ?]|by intros ?%elem_of_nil].
  - rewrite elem_of_cons. case_decide as Hk.
    + split; [by left|by eexists].
    + rewrite IH. split; [by right|]. by intros [?|?].
Qed.
End assoc_facts.

Section sim_facts.
Context {F : Type} `{Scalar F} {Box : Type}.
Variable get_iou_cc : Box → Box → F.
Local Abbreviation M := (M F Box).

Lemma recs_rel_alloc (h0 h : heap F Box) (crs : gmap img_id class_rec)
    (recs : gmap img_id (list Box * list bool)) (img : img_id)
    (boxes : list Box) (flags : list bool) :
  h0 ⊆ h → recs_rel h0 h crs recs →
  let b := fresh (dom h) in
  let h1 := <[b := OArray boxes]> h in
  let dl := fresh (dom h1) in
  let h2 := <[dl := ODetList flags]> h1 in
  h0 ⊆ h2 ∧
  recs_rel h0 h2 (<[img := ClassRec b dl]> crs) (<[img := (boxes, flags)]> recs).
Proof.
  intros Hsub (Hnone & Hobj & Hsep & Hfresh) b h1 dl h2.
  assert (h !! b = None) as Hb by apply fresh_lookup_None.
  assert (h1 !! dl = None) as Hdl1 by apply fresh_lookup_None.
  assert (h !! dl = None ∧ dl ≠ b) as [Hdl Hne].
  { unfold h1 in Hdl1. apply lookup_insert_None in Hdl1 as [? ?]. done. }
  assert (∀ i R, crs !! i = Some R →
                 is_Some (h !! bbox R) ∧ is_Some (h !! det R)) as Hin.
  { intros i R HR. destruct (recs !! i) as [v|] eqn:Hv.
    - destruct (Hobj i R v HR Hv) as [-> ->]. split; by eexists.
    - apply Hnone in Hv. congruence. }
  assert (∀ l, is_Some (h !! l) → l ≠ b ∧ l ≠ dl) as Hold.
  { intros l [o Hl]. split; intros ->; congruence. }
  split.
  { unfold h2, h1. etrans; [exact Hsub|].
    etrans; [apply (insert_subseteq h b (OArray boxes)); done|].
    by apply insert_subseteq. }
  split_and!.
  - intros i. rewrite !lookup_insert_None. by rewrite Hnone.
  - intros i R v. rewrite !lookup_insert. case_decide as Hi.
    + intros [= <-] [= <-]. simpl. unfold h2, h1. split.
      * rewrite lookup_insert_ne by done. by rewrite lookup_insert_eq.
      * by rewrite lookup_insert_eq.
    + intros HR Hv. destruct (Hobj i R v HR Hv) as [Hb' Hd'].
      destruct (Hin i R HR) as [Hib Hid].
      destruct (Hold _ Hib) as [? ?], (Hold _ Hid) as [? ?].
      unfold h2, h1. rewrite !lookup_insert_ne by done. done.
  - intros i1 i2 R1 R2. rewrite !lookup_insert.
    case_decide as H1; case_decide as H2.
    + intros [= <-] [= <-]. simpl. split; [done|]. congruence.
    + intros [= <-] HR2. simpl. destruct (Hin i2 R2 HR2) as [Hib Hid].
      destruct (Hold _ Hib) as [? ?], (Hold _ Hid) as [? ?]. split; [done|]. done.
    + intros HR1 [= <-]. simpl. destruct (Hin i1 R1 HR1) as [Hib Hid].
      destruct (Hold _ Hid) as [? ?]. split; [done|]. done.
    + intros HR1 HR2. by apply (Hsep i1 i2).
  - intros i R. rewrite lookup_insert. case_decide as Hi.
    + intros [= <-]. simpl. by eapply lookup_weaken_None.
    + by apply Hfresh.
Qed.

Lemma recs_rel_store (h0 h : heap F Box) (crs : gmap img_id class_rec)
    (recs : gmap img_id (list Box * list bool)) (img : img_id)
    (R : class_rec) (v : list Box * list bool) (flags : list bool) :
  h0 ⊆ h → recs_rel h0 h crs recs →
  crs !! img = Some R → recs !! img = Some v →
  h0 ⊆ <[det R := ODetList flags]> h ∧
  recs_rel h0 (<[det R := ODetList flags]> h) crs (<[img := (v.1, flags)]> recs).
Proof.
  intros Hsub (Hnone & Hobj & Hsep & Hfresh) HR Hv.
  split; [apply insert_subseteq_r; [by apply (Hfresh img)|done]|].
  split_and!.
  - intros i. rewrite lookup_insert_None, <- Hnone. split; [|by intros [? ?]].
    intros Hi. split; [done|]. intros ->. congruence.
  - intros i R' v' HR'. rewrite lookup_insert. case_decide as Hi.
    + subst i. intros [= <-]. simpl. assert (R' = R) as -> by congruence.
      destruct (Hsep img img R R HR HR) as [Hne _].
      rewrite lookup_insert_ne by done. rewrite lookup_insert_eq.
      by destruct (Hobj img R v HR Hv) as [-> _].
    + intros Hv'. destruct (Hsep img i R R' HR HR') as [Hne1 Hne2].
      rewrite !lookup_insert_ne by auto. by apply (Hobj i).
  - done.
  - done.
Qed.
End sim_facts.
Section sim_phases.
Context {F : Type} `{Scalar F} {Box : Type}.
Variable get_iou_cc : Box → Box → F.
Local Abbreviation M := (M F Box).

Lemma run_img_keys (l : loc) (d : list (img_id * loc)) (h : heap F Box) :
  h !! l = Some (OImgDict d) → img_keys l h = (Ok d.*1, h).
Proof.
  intros Hl. unfold img_keys.
  by rewrite (run_bind_Ok _ _ _ _ _ (run_read_img_dict _ _ _ Hl)).
Qed.

Lemma run_img_getitem (l : loc) (d : list (img_id * loc)) (k : img_id)
    (v : loc) (h : heap F Box) :
  h !! l = Some (OImgDict d) → assoc k d = Some v →
  img_getitem l k h = (Ok v, h).
Proof.
  intros Hl Hk. unfold img_getitem.
  rewrite (run_bind_Ok _ _ _ _ _ (run_read_img_dict _ _ _ Hl)).
  unfold lift. by rewrite Hk.
Qed.

Lemma run_img_contains (l : loc) (d : list (img_id * loc)) (k : img_id)
    (h : heap F Box) :
  h !! l = Some (OImgDict d) →
  img_contains l k h = (Ok (bool_decide (is_Some (assoc k d))), h).
Proof.
  intros Hl. unfold img_contains.
  by rewrite (run_bind_Ok _ _ _ _ _ (run_read_img_dict _ _ _ Hl)).
Qed.

Lemma recs_rel_empty (h0 : heap F Box) : recs_rel h0 h0 ∅ ∅.
Proof.
  split_and!.
  - intros img. by rewrite !lookup_empty.
  - intros img R v. by rewrite lookup_empty.
  - intros i1 i2 R1 R2. by rewrite lookup_empty.
  - intros img R. by rewrite lookup_empty.
Qed.

Lemma construct_gt_loop (h0 : heap F Box) (gt : loc) (d : list (img_id * loc))
    (ds : list (img_id * loc)) (gvs : list (img_id * list Box)) :
  h0 !! gt = Some (OImgDict d) → NoDup d.*1 →
  Forall2 (λ e v, e.1 = v.1 ∧
                  (h0 !! e.2 = Some (OBoxList v.2) ∨
                   h0 !! e.2 = Some (OArray v.2))) ds gvs →
  (∀ e, e ∈ ds → e ∈ d) →
  ∀ acc accv h,
    h0 ⊆ h → recs_rel h0 h acc.1 accv.1 → acc.2 = accv.2 →
    let endv :=
      fold_left (λ acc e,
                   (<[e.1 := (e.2, replicate (length e.2) false)]> acc.1,
                    acc.2 + Z.of_nat (length e.2))) gvs accv in
    ∃ crs h1,
      foldM (construct_gt_step gt) acc ds.*1 h = (Ok (crs, endv.2), h1) ∧
      h0 ⊆ h1 ∧ recs_rel h0 h1 crs endv.1.
Proof.
  intros Hgt Hnd Hall. induction Hall as [|e v ds gvs [Hk Hv] _ IH];
    intros Hin acc accv h Hsub Hrel Hnpos.
  - exists acc.1, h. simpl. rewrite <- Hnpos. by destruct acc.
  - assert (e ∈ d) as Hed by (apply Hin, elem_of_cons; auto).
    rewrite fmap_cons, run_foldM_cons. cbn [fold_left]. unfold construct_gt_step at 1.
    rewrite (run_bind_Ok _ _ _ _ _
               (run_img_getitem gt d e.1 e.2 h
                  (lookup_weaken _ _ _ _ Hgt Hsub) (assoc_NoDup d e Hnd Hed))).
    assert (read_boxes e.2 h = (Ok v.2, h)) as Hread.
    { apply run_read_boxes. destruct Hv as [Hv|Hv]; [left|right];
        by eapply lookup_weaken. }
    rewrite (run_bind_Ok _ _ _ _ _ Hread). rewrite !run_alloc_bind.
    destruct (recs_rel_alloc h0 h acc.1 accv.1 e.1 v.2
                (replicate (length v.2) false) Hsub Hrel) as [Hsub2 Hrel2].
    cbv zeta in Hsub2, Hrel2. rewrite Hk in Hrel2 at 2.
    apply (IH (λ e' He', Hin e' (proj2 (elem_of_cons _ _ _) (or_intror He')))
              (_, _) (_, _) _ Hsub2 Hrel2).
    simpl. by rewrite Hnpos.
Qed.

Lemma construct_gt_sim (h0 : heap F Box) (gt : loc)
    (gv : list (img_id * list Box)) :
  holds_gt h0 gt gv →
  ∃ crs h1,
    construct_gt gt h0 = (Ok (crs, (construct_gt_v gv).2), h1) ∧
    h0 ⊆ h1 ∧ recs_rel h0 h1 crs (construct_gt_v gv).1.
Proof.
  intros (d & Hgt & Hnd & Hall). unfold construct_gt.
  rewrite (run_bind_Ok _ _ _ _ _ (run_img_keys _ _ _ Hgt)).
  apply (construct_gt_loop h0 gt d d gv Hgt Hnd Hall (λ e He, He) (∅, 0) (∅, 0));
    [done|apply recs_rel_empty|done].
Qed.

Lemma assoc_keys_is_Some {V W} (d : list (img_id * V)) (dv : list (img_id * W))
    (k : img_id) :
  d.*1 = dv.*1 → (is_Some (assoc k d) ↔ is_Some (assoc k dv)).
Proof. intros Hk. by rewrite !assoc_is_Some, Hk. Qed.

Lemma Forall2_keys {V W} (P : V → W → Prop) (d : list (img_id * V))
    (dv : list (img_id * W)) :
  Forall2 (λ e v, e.1 = v.1 ∧ P e.2 v.2) d dv → d.*1 = dv.*1.
Proof.
  induction 1 as [|e v d dv [Hk _] _ IH]; [done|].
  rewrite !fmap_cons. by rewrite Hk, IH.
Qed.

Lemma pad_empty_loop (h0 : heap F Box) (gt : loc) (dg : list (img_id * loc))
    (gv : list (img_id * list Box))
    (ds : list (img_id * loc)) (pvs : list (img_id * list (Box * F))) :
  h0 !! gt = Some (OImgDict dg) → dg.*1 = gv.*1 → ds.*1 = pvs.*1 →
  ∀ crs recs h,
    h0 ⊆ h → recs_rel h0 h crs recs →
    ∃ crs' h1,
      foldM (pad_empty_step gt) crs ds.*1 h = (Ok crs', h1) ∧
      h0 ⊆ h1 ∧ recs_rel h0 h1 crs' (pad_empty_v pvs gv recs).
Proof.
  intros Hgt Hkeys. revert pvs.
  induction ds as [|e ds IH]; intros [|v pvs] Hk crs recs h Hsub Hrel;
    simpl in Hk; try done.
  - by exists crs, h.
  - injection Hk as Hk1 Hk. rewrite fmap_cons, run_foldM_cons.
    unfold pad_empty_step at 1.
    rewrite (run_bind_Ok _ _ _ _ _
               (run_img_contains gt dg e.1 h (lookup_weaken _ _ _ _ Hgt Hsub))).
    change (pad_empty_v (v :: pvs) gv recs)
      with (pad_empty_v pvs gv
              (if bool_decide (is_Some (assoc v.1 gv)) then recs
               else <[v.1 := ([], [])]> recs)).
    rewrite <- Hk1.
    rewrite (bool_decide_ext _ _ (assoc_keys_is_Some dg gv e.1 Hkeys)).
    destruct (bool_decide (is_Some (assoc e.1 gv))).
    + by apply IH.
    + rewrite !run_alloc_bind.
      destruct (recs_rel_alloc h0 h crs recs e.1 [] [] Hsub Hrel) as [Hsub2 Hrel2].
      by apply IH.
Qed.

Lemma pad_empty_sim (h0 : heap F Box) (pred gt : loc)
    (pv : list (img_id * list (Box * F))) (gv : list (img_id * list Box))
    (crs : gmap img_id class_rec) (recs : gmap img_id (list Box * list bool))
    (h : heap F Box) :
  holds_pred h0 pred pv → holds_gt h0 gt gv →
  h0 ⊆ h → recs_rel h0 h crs recs →
  ∃ crs' h1,
    pad_empty pred gt crs h = (Ok crs', h1) ∧
    h0 ⊆ h1 ∧ recs_rel h0 h1 crs' (pad_empty_v pv gv recs).
Proof.
  intros (dp & Hpred & _ & Hallp) (dg & Hgt & _ & Hallg) Hsub Hrel.
  unfold pad_empty.
  rewrite (run_bind_Ok _ _ _ _ _
             (run_img_keys _ _ _ (lookup_weaken _ _ _ _ Hpred Hsub))).
  apply (pad_empty_loop h0 gt dg gv dp pv Hgt); [| |done|done].
  - exact (Forall2_keys (λ l b, h0 !! l = Some (OBoxList b) ∨
                                h0 !! l = Some (OArray b)) _ _ Hallg).
  - exact (Forall2_keys (λ l p, h0 !! l = Some (OPredList p)) _ _ Hallp).
Qed.

Lemma construct_dets_loop (h0 : heap F Box) (pred : loc)
    (d : list (img_id * loc))
    (ds : list (img_id * loc)) (pvs : list (img_id * list (Box * F))) :
  h0 !! pred = Some (OImgDict d) → NoDup d.*1 →
  Forall2 (λ e v, e.1 = v.1 ∧ h0 !! e.2 = Some (OPredList v.2)) ds pvs →
  (∀ e, e ∈ ds → e ∈ d) →
  ∀ acc h,
    h0 ⊆ h →
    foldM (construct_dets_step pred) acc ds.*1 h
    = (Ok (fold_left (λ acc e, fold_left (append_det e.1) e.2 acc) pvs acc), h).
Proof.
  intros Hpred Hnd Hall. induction Hall as [|e v ds pvs [Hk Hv] _ IH];
    intros Hin acc h Hsub; [done|].
  assert (e ∈ d) as Hed by (apply Hin, elem_of_cons; auto).
  rewrite fmap_cons, run_foldM_cons. unfold construct_dets_step at 1.
  rewrite (run_bind_Ok _ _ _ _ _
             (run_img_getitem pred d e.1 e.2 h
                (lookup_weaken _ _ _ _ Hpred Hsub) (assoc_NoDup d e Hnd Hed))).
  rewrite (run_bind_Ok _ _ _ _ _
             (run_read_pred_list e.2 v.2 h (lookup_weaken _ _ _ _ Hv Hsub))).
  cbn [fold_left]. rewrite Hk. apply IH; [|done].
  intros e' He'. apply Hin, elem_of_cons. auto.
Qed.

Lemma construct_dets_sim (h0 : heap F Box) (pred : loc)
    (pv : list (img_id * list (Box * F))) (h : heap F Box) :
  holds_pred h0 pred pv → h0 ⊆ h →
  construct_dets pred h = (Ok (construct_dets_v pv), h).
Proof.
  intros (d & Hpred & Hnd & Hall) Hsub. unfold construct_dets.
  rewrite (run_bind_Ok _ _ _ _ _
             (run_img_keys _ _ _ (lookup_weaken _ _ _ _ Hpred Hsub))).
  by apply (construct_dets_loop h0 pred d d pv).
Qed.
End sim_phases.
Lemma result_bind_Raise {A B} (f : A → result B) (e : exn) :
  Raise e ≫= f = Raise e.
Proof. reflexivity. Qed.

Section sim_marking.
Context {F : Type} `{Scalar F} {Box : Type}.
Variable get_iou_cc : Box → Box → F.
Local Abbreviation M := (M F Box).

Lemma run_det_setitem (l : loc) (dets : list bool) (j : nat) (v : bool)
    (h : heap F Box) :
  h !! l = Some (ODetList dets) → (j < length dets)%nat →
  det_setitem l j v h = (Ok (), <[l := ODetList (<[j := v]> dets)]> h).
Proof.
  intros Hl Hj. unfold det_setitem.
  rewrite (run_bind_Ok _ _ _ _ _ (run_read_det_list _ _ _ Hl)).
  by rewrite decide_True.
Qed.

(** One round of the marking loop, in the store and on values. *)
Lemma mark_det_sim (h0 h : heap F Box) (crs : gmap img_id class_rec)
    (recs : gmap img_id (list Box * list bool))
    (image_ids : list img_id) (BB : list Box) (ovthresh : F)
    (st : mark_state F) (d : nat) :
  h0 ⊆ h → recs_rel h0 h crs recs →
  ∃ h', h0 ⊆ h' ∧
    match mark_det_v get_iou_cc image_ids BB ovthresh (recs, st) d with
    | Ok s' =>
        mark_det get_iou_cc crs image_ids BB ovthresh st d h = (Ok s'.2, h') ∧
        recs_rel h0 h' crs s'.1
    | Raise e =>
        mark_det get_iou_cc crs image_ids BB ovthresh st d h = (Raise e, h')
    end.
Proof.
  intros Hsub Hrel. pose proof Hrel as (Hnone & Hobj & _ & _).
  unfold mark_det, mark_det_v. cbn [fst snd].
  rewrite run_lift_bind.
  destruct (image_ids !! d) as [img|]; cbn [or_raise];
    [rewrite result_bind_Ok|by exists h].
  rewrite run_lift_bind.
  destruct (crs !! img) as [R|] eqn:HR, (recs !! img) as [v|] eqn:Hv;
    cbn [or_raise].
  2: { apply Hnone in Hv. congruence. }
  2: { apply Hnone in HR. congruence. }
  2: { by exists h. }
  rewrite result_bind_Ok. rewrite run_lift_bind.
  destruct (BB !! d) as [bb|]; cbn [or_raise];
    [rewrite result_bind_Ok|by exists h].
  destruct (Hobj img R v HR Hv) as [Hbox Hdet].
  rewrite (run_bind_Ok _ _ _ _ _ (run_read_array _ _ _ Hbox)).
  set (scan := match v.1 with
               | [] => (None, jmax st)
               | _ => overlap_scan get_iou_cc bb v.1 None (jmax st)
               end).
  destruct (exceeds scan.1 ovthresh); [|by exists h].
  rewrite run_lift_bind.
  destruct scan.2 as [j|]; cbn [or_raise];
    [rewrite result_bind_Ok|by exists h].
  rewrite (run_bind_Ok _ _ _ _ _ (run_read_det_list _ _ _ Hdet)).
  rewrite run_lift_bind.
  destruct (v.2 !! j) as [flag|] eqn:Hflag; cbn [or_raise];
    [rewrite result_bind_Ok|by exists h].
  destruct flag; cbn [negb]; [by exists h|].
  apply lookup_lt_Some in Hflag.
  rewrite (run_bind_Ok _ _ _ _ _ (run_det_setitem _ _ _ true _ Hdet Hflag)).
  destruct (recs_rel_store h0 h crs recs img R v (<[j := true]> v.2)
              Hsub Hrel HR Hv) as [Hsub' Hrel'].
  eexists. split; [exact Hsub'|]. split; [reflexivity|exact Hrel'].
Qed.

Lemma mark_loop_sim (h0 : heap F Box) (crs : gmap img_id class_rec)
    (image_ids : list img_id) (BB : list Box) (ovthresh : F) (l : list nat) :
  ∀ (recs : gmap img_id (list Box * list bool)) (st : mark_state F)
    (h : heap F Box),
    h0 ⊆ h → recs_rel h0 h crs recs →
    ∃ h', h0 ⊆ h' ∧
      match foldM (mark_det_v get_iou_cc image_ids BB ovthresh) (recs, st) l with
      | Ok s' =>
          foldM (mark_det get_iou_cc crs image_ids BB ovthresh) st l h
          = (Ok s'.2, h') ∧
          recs_rel h0 h' crs s'.1
      | Raise e =>
          foldM (mark_det get_iou_cc crs image_ids BB ovthresh) st l h
          = (Raise e, h')
      end.
Proof.
  induction l as [|d l IH]; intros recs st h Hsub Hrel.
  - exists h. by cbn.
  - rewrite foldM_cons, run_foldM_cons.
    destruct (mark_det_sim h0 h crs recs image_ids BB ovthresh st d Hsub Hrel)
      as (h1 & Hsub1 & Hstep).
    destruct (mark_det_v _ _ _ _ (recs, st) d) as [[recs1 st1]|e].
    + destruct Hstep as [-> Hrel1]. rewrite result_bind_Ok. by apply IH.
    + rewrite Hstep, result_bind_Raise. by exists h1.
Qed.

(** [eval_det_cls] on maps with the contents [pv] and [gv] returns what
    [eval_det_cls_v] returns on [pv] and [gv], and keeps the store it
    started from. *)
Lemma eval_det_cls_sim (pred gt : loc) (ovthresh : F) (use_07_metric : bool)
    (pv : list (img_id * list (Box * F))) (gv : list (img_id * list Box))
    (h : heap F Box) :
  holds_pred h pred pv → holds_gt h gt gv →
  (eval_det_cls get_iou_cc pred gt ovthresh use_07_metric h).1
  = eval_det_cls_v get_iou_cc pv gv ovthresh use_07_metric.
Proof.
  intros Hpred Hgt. unfold eval_det_cls, eval_det_cls_v.
  destruct (construct_gt_sim h gt gv Hgt) as (crs1 & h1 & Hrun1 & Hsub1 & Hrel1).
  rewrite (run_bind_Ok _ _ _ _ _ Hrun1). cbn [fst snd].
  destruct (pad_empty_sim h pred gt pv gv crs1 _ h1 Hpred Hgt Hsub1 Hrel1)
    as (crs2 & h2 & Hrun2 & Hsub2 & Hrel2).
  rewrite (run_bind_Ok _ _ _ _ _ Hrun2).
  rewrite (run_bind_Ok _ _ _ _ _ (construct_dets_sim h pred pv h2 Hpred Hsub2)).
  destruct (construct_dets_v pv) as [[image_ids confidence] BB]. cbn [fst snd].
  rewrite run_lift_bind.
  destruct (take_indices BB _) as [BB'|e]; [|done]. rewrite result_bind_Ok.
  rewrite run_lift_bind.
  destruct (take_indices image_ids _) as [ids'|e]; [|done]. rewrite result_bind_Ok.
  unfold mark_dets. rewrite run_bind.
  destruct (mark_loop_sim h crs2 ids' BB' ovthresh (seq 0 (length ids'))
              (pad_empty_v pv gv (construct_gt_v gv).1)
              (MarkState (replicate (length ids') lit_0)
                         (replicate (length ids') lit_0) None) h2 Hsub2 Hrel2)
    as (h3 & Hsub3 & Hloop).
  destruct (foldM (mark_det_v _ _ _ _) _ _) as [[recs3 st3]|e].
  - destruct Hloop as [-> _]. rewrite result_bind_Ok. cbn [fst snd].
    destruct (precision_recall _ _ _) as [rec prec]. cbn [fst snd].
    rewrite run_lift_bind. by destruct (voc_ap rec prec use_07_metric).
  - by rewrite Hloop.
Qed.
End sim_marking.

(** C9.  Two calls of the per-class evaluator in a row on the same
    prediction map and ground-truth map return the same recall, precision
    and AP (or raise the same exception): the second call finds the maps as
    the first one found them, and builds its [class_recs] anew. *)
Theorem eval_det_cls_twice {F : Type} `{Scalar F} {Box : Type}
    (get_iou_cc : Box → Box → F) (pred gt : loc) (ovthresh : F)
    (use_07_metric : bool) (pv : list (img_id * list (Box * F)))
    (gv : list (img_id * list Box)) (h : heap F Box) :
  holds_pred h pred pv → holds_gt h gt gv →
  let first := eval_det_cls get_iou_cc pred gt ovthresh use_07_metric h in
  let second :=
    eval_det_cls get_iou_cc pred gt ovthresh use_07_metric first.2 in
  second.1 = first.1 ∧
  first.1 = eval_det_cls_v get_iou_cc pv gv ovthresh use_07_metric.
Proof.
  intros Hpred Hgt first second.
  pose proof (eval_det_cls_frame get_iou_cc pred gt ovthresh use_07_metric h)
    as Hsub.
  unfold second, first.
  rewrite (eval_det_cls_sim get_iou_cc pred gt ovthresh use_07_metric pv gv h)
    by done.
  split; [|done].
  apply eval_det_cls_sim;
    [by eapply holds_pred_weaken|by eapply holds_gt_weaken].
Qed.

Lemma scenario_B_holds {F : Type} `{Scalar F} :
  holds_pred (scenario_B (F:=F)) 1%positive
    [(0%nat, [(7%nat, div (of_Z 9) (of_Z 10)); (7%nat, div (of_Z 5) (of_Z 10))])] ∧
  holds_gt (scenario_B (F:=F)) 2%positive [(0%nat, [7%nat])].
Proof.
  split.
  - exists [(0%nat, 3%positive)]. split_and!; [done| |].
    + apply NoDup_singleton.
    + repeat constructor.
  - exists [(0%nat, 4%positive)]. split_and!; [done| |].
    + apply NoDup_singleton.
    + repeat constructor.
Qed.

(** Scenario B, in binary64, evaluated twice. *)
Lemma eval_det_cls_twice_witness :
  let first :=
    eval_det_cls (F:=float) iou_one 1%positive 2%positive
                 (div (of_Z 1) (of_Z 4)) false scenario_B in
  let second :=
    eval_det_cls (F:=float) iou_one 1%positive 2%positive
                 (div (of_Z 1) (of_Z 4)) false first.2 in
  second.1 = first.1 ∧
  first.1
  = eval_det_cls_v iou_one
      [(0%nat, [(7%nat, div (of_Z 9) (of_Z 10)); (7%nat, div (of_Z 5) (of_Z 10))])]
      [(0%nat, [7%nat])] (div (of_Z 1) (of_Z 4)) false.
Proof.
  apply (eval_det_cls_twice (F:=float) iou_one 1%positive 2%positive
           (div (of_Z 1) (of_Z 4)) false
           [(0%nat, [(7%nat, div (of_Z 9) (of_Z 10));
                     (7%nat, div (of_Z 5) (of_Z 10))])]
           [(0%nat, [7%nat])] scenario_B);
    [apply (proj1 scenario_B_holds)|apply (proj2 scenario_B_holds)].
Defined.

Section driver_facts.
Context {F : Type} `{Scalar F} {Box : Type}.
Variable get_iou_cc : Box → Box → F.
Variable report :
  string → gmap string (list F) * gmap string (list F) * gmap string F →
  result unit.

Lemma eval_det_step_frame (pred_all gt_all : loc) (ovthresh : F)
    (use_07_metric : bool)
    (acc : gmap string (list F) * gmap string (list F) * gmap string F)
    (classname : string) (h : heap F Box) :
  h ⊆ (eval_det_step get_iou_cc pred_all gt_all ovthresh use_07_metric
         acc classname h).2.
Proof.
  unfold eval_det_step. destruct acc as [[rec prec] ap].
  rewrite run_bind_read by apply class_getitem_store.
  destruct (class_getitem pred_all classname h).1 as [p|e]; [|done].
  rewrite run_bind_read by apply class_getitem_store.
  destruct (class_getitem gt_all classname h).1 as [g|e]; [|done].
  rewrite run_bind.
  pose proof (eval_det_cls_frame get_iou_cc p g ovthresh use_07_metric h) as Hsub.
  by destruct (eval_det_cls get_iou_cc p g ovthresh use_07_metric h) as [[r|e] h1].
Qed.

Lemma run_class_getitem_missing (l : loc) (d : list (string * loc))
    (k : string) (h : heap F Box) :
  h !! l = Some (OClassDict d) → assoc k d = None →
  class_getitem l k h = (Raise KeyError, h).
Proof.
  intros Hl Hk. unfold class_getitem.
  rewrite (run_bind_Ok _ _ _ _ _ (run_read_class_dict _ _ _ Hl)).
  unfold lift. by rewrite Hk.
Qed.

Lemma run_class_keys (l : loc) (d : list (string * loc)) (h : heap F Box) :
  h !! l = Some (OClassDict d) → class_keys l h = (Ok d.*1, h).
Proof.
  intros Hl. unfold class_keys.
  by rewrite (run_bind_Ok _ _ _ _ _ (run_read_class_dict _ _ _ Hl)).
Qed.

(** The loop over the classes raises once a class of the ground truth has
    no entry in the prediction map (if it has not raised before). *)
Lemma eval_det_loop_missing (pred_all gt_all : loc) (ovthresh : F)
    (use_07_metric : bool) (h0 : heap F Box) (dp : list (string * loc))
    (c : string) (keys : list string) :
  h0 !! pred_all = Some (OClassDict dp) → assoc c dp = None → c ∈ keys →
  ∀ acc h, h0 ⊆ h →
    ∃ e, (foldM (eval_det_step get_iou_cc pred_all gt_all ovthresh
                   use_07_metric) acc keys h).1 = Raise e.
Proof.
  intros Hpred Hc. induction keys as [|k keys IH]; intros Hin acc h Hsub.
  - by apply elem_of_nil in Hin.
  - rewrite run_foldM_cons. destruct (decide (k = c)) as [->|Hkc].
    + unfold eval_det_step at 1. destruct acc as [[rec prec] ap].
      rewrite (run_bind_Raise _ _ _ _ _
                 (run_class_getitem_missing pred_all dp c h
                    (lookup_weaken _ _ _ _ Hpred Hsub) Hc)).
      by exists KeyError.
    + pose proof (eval_det_step_frame pred_all gt_all ovthresh use_07_metric
                    acc k h) as Hsub1.
      destruct (eval_det_step _ _ _ _ _ acc k h) as [[acc1|e] h1];
        [|by exists e].
      apply IH; [|by etrans].
      apply elem_of_cons in Hin as [->|Hin]; done.
Qed.

Lemma eval_det_missing (pred_all gt_all : loc) (ovthresh : F)
    (use_07_metric : bool) (result_dir : option string) (h : heap F Box)
    (dp dg : list (string * loc)) (c : string) :
  h !! pred_all = Some (OClassDict dp) →
  h !! gt_all = Some (OClassDict dg) →
  c ∈ dg.*1 → assoc c dp = None →
  ∃ e, (eval_det get_iou_cc report pred_all gt_all ovthresh use_07_metric
          result_dir h).1 = Raise e.
Proof.
  intros Hpred Hgt Hin Hc. unfold eval_det.
  rewrite (run_bind_Ok _ _ _ _ _ (run_class_keys _ _ _ Hgt)). rewrite run_bind.
  destruct (eval_det_loop_missing pred_all gt_all ovthresh use_07_metric h dp c
              dg.*1 Hpred Hc Hin (∅, ∅, ∅) h) as [e He]; [done|].
  destruct (foldM (eval_det_step _ _ _ _ _) _ _ h) as [[r|e'] h1];
    simpl in He; [done|].
  by exists e'.
Qed.

(** With no prediction the value form is the AP of empty curves. *)
Lemma eval_det_cls_v_no_pred (gv : list (img_id * list Box)) (ovthresh : F)
    (use_07_metric : bool) :
  eval_det_cls_v get_iou_cc [] gv ovthresh use_07_metric
  = (ap ← voc_ap [] [] use_07_metric; Ok ([], [], ap)).
Proof. reflexivity. Qed.
End driver_facts.


Section two_detections.
Context {F : Type} `{ScalarCompare F} {Box : Type}.
Variable get_iou_cc : Box → Box → F.

Lemma overlap_scan_single (bb g : Box) (jmax : option nat) (ovthresh : F) :
  ltb ovthresh (get_iou_cc bb g) = true →
  overlap_scan get_iou_cc bb [g] None jmax = (Some (get_iou_cc bb g), Some 0%nat).
Proof.
  intros Hlt. unfold overlap_scan, overlap_step. simpl.
  by rewrite (ltb_above_ninf _ _ Hlt).
Qed.

(** Two detections of one image whose only ground-truth box is not yet
    claimed, both above the threshold, in the order of their confidence:
    the first claims the box, the second is a false positive. *)
Lemma mark_dets_two (class_recs : gmap img_id class_rec) (img : img_id)
    (R : class_rec) (b1 b2 g : Box) (ovthresh : F) (h : heap F Box) :
  class_recs !! img = Some R →
  h !! bbox R = Some (OArray [g]) →
  h !! det R = Some (ODetList [false]) →
  ltb ovthresh (get_iou_cc b1 g) = true →
  ltb ovthresh (get_iou_cc b2 g) = true →
  mark_dets get_iou_cc class_recs [img; img] [b1; b2] ovthresh h
  = (Ok (MarkState [lit_1; lit_0] [lit_0; lit_1] (Some 0%nat)),
     <[det R := ODetList [true]]> h).
Proof.
  intros HR Hbox Hdet H1 H2.
  assert (bbox R ≠ det R) as Hne by (intros Heq; congruence).
  set (h1 := <[det R := ODetList [true]]> h).
  assert (h1 !! bbox R = Some (OArray [g])) as Hbox1.
  { unfold h1. by rewrite lookup_insert_ne. }
  assert (h1 !! det R = Some (ODetList [true])) as Hdet1.
  { unfold h1. by rewrite lookup_insert_eq. }
  assert (mark_det get_iou_cc class_recs [img; img] [b1; b2] ovthresh
            (MarkState [lit_0; lit_0] [lit_0; lit_0] None) 0 h
          = (Ok (MarkState [lit_1; lit_0] [lit_0; lit_0] (Some 0%nat)), h1))
    as Hstep0.
  { rewrite (run_mark_det get_iou_cc class_recs [img; img] [b1; b2] ovthresh
               _ 0 h img R b1 [g] eq_refl HR eq_refl Hbox).
    rewrite (overlap_scan_single _ _ _ _ H1).
    cbn [fst snd exceeds jmax tp fp]. rewrite H1.
    rewrite run_lift_bind. cbn [or_raise].
    rewrite (run_bind_Ok _ _ _ _ _ (run_read_det_list _ _ _ Hdet)).
    rewrite run_lift_bind. simpl lookup. cbn [or_raise negb].
    rewrite (run_bind_Ok _ _ _ _ _
               (run_det_setitem (det R) [false] 0 true h Hdet ltac:(simpl; lia))).
    reflexivity. }
  assert (mark_det get_iou_cc class_recs [img; img] [b1; b2] ovthresh
            (MarkState [lit_1; lit_0] [lit_0; lit_0] (Some 0%nat)) 1 h1
          = (Ok (MarkState [lit_1; lit_0] [lit_0; lit_1] (Some 0%nat)), h1))
    as Hstep1.
  { rewrite (run_mark_det get_iou_cc class_recs [img; img] [b1; b2] ovthresh
               _ 1 h1 img R b2 [g] eq_refl HR eq_refl Hbox1).
    rewrite (overlap_scan_single _ _ _ _ H2).
    cbn [fst snd exceeds jmax tp fp]. rewrite H2.
    rewrite run_lift_bind. cbn [or_raise].
    rewrite (run_bind_Ok _ _ _ _ _ (run_read_det_list _ _ _ Hdet1)).
    rewrite run_lift_bind. simpl lookup. cbn [or_raise negb].
    reflexivity. }
  unfold mark_dets. cbn [length seq replicate].
  rewrite run_foldM_cons, Hstep0, run_foldM_cons, Hstep1. reflexivity.
Qed.
End two_detections.

Section two_detections_sorted.
Context {F : Type} `{ScalarCompare F} {Box : Type}.
Variable get_iou_cc : Box → Box → F.

(** [BB[sorted_ind]] and [image_ids[sorted_ind]] for two predictions of one
    image, in either order of the list: the box with the higher score
    comes first. *)
Lemma take_indices_two (img : img_id) (bh bl : Box) (sh sl : F)
    (items : list (Box * F)) :
  items = [(bh, sh); (bl, sl)] ∨ items = [(bl, sl); (bh, sh)] →
  ltb (neg sh) (neg sl) = true → ltb (neg sl) (neg sh) = false →
  take_indices items.*1 (argsort (neg <$> items.*2)) = Ok [bh; bl] ∧
  take_indices [img; img] (argsort (neg <$> items.*2)) = Ok [img; img].
Proof.
  intros [->| ->] Hlt Hge; unfold argsort; simpl imap;
    cbn [fold_left argsort_insert fst snd]; rewrite ?Hlt, ?Hge; done.
Qed.

(** The first round of the marking loop on two detections of one image
    whose only box is not yet claimed: the detection claims the box. *)
Lemma mark_det_two_first (class_recs : gmap img_id class_rec) (img : img_id)
    (R : class_rec) (b1 b2 g : Box) (ovthresh : F) (h : heap F Box) :
  class_recs !! img = Some R →
  h !! bbox R = Some (OArray [g]) →
  h !! det R = Some (ODetList [false]) →
  ltb ovthresh (get_iou_cc b1 g) = true →
  mark_det get_iou_cc class_recs [img; img] [b1; b2] ovthresh
           (MarkState [lit_0; lit_0] [lit_0; lit_0] None) 0 h
  = (Ok (MarkState [lit_1; lit_0] [lit_0; lit_0] (Some 0%nat)),
     <[det R := ODetList [true]]> h).
Proof.
  intros HR Hbox Hdet H1.
  rewrite (run_mark_det get_iou_cc class_recs [img; img] [b1; b2] ovthresh
             _ 0 h img R b1 [g] eq_refl HR eq_refl Hbox).
  rewrite (overlap_scan_single _ _ _ _ _ H1).
  cbn [fst snd exceeds jmax tp fp]. rewrite H1.
  rewrite run_lift_bind. cbn [or_raise].
  rewrite (run_bind_Ok _ _ _ _ _ (run_read_det_list _ _ _ Hdet)).
  rewrite run_lift_bind. simpl lookup. cbn [or_raise negb].
  rewrite (run_bind_Ok _ _ _ _ _
             (run_det_setitem (det R) [false] 0 true h Hdet ltac:(simpl; lia))).
  reflexivity.
Qed.

(** The second round: the box is claimed, the detection is a false
    positive and the store stays as it is. *)
Lemma mark_det_two_second (class_recs : gmap img_id class_rec) (img : img_id)
    (R : class_rec) (b1 b2 g : Box) (ovthresh : F) (h : heap F Box) :
  class_recs !! img = Some R →
  h !! bbox R = Some (OArray [g]) →
  h !! det R = Some (ODetList [true]) →
  ltb ovthresh (get_iou_cc b2 g) = true →
  mark_det get_iou_cc class_recs [img; img] [b1; b2] ovthresh
           (MarkState [lit_1; lit_0] [lit_0; lit_0] (Some 0%nat)) 1 h
  = (Ok (MarkState [lit_1; lit_0] [lit_0; lit_1] (Some 0%nat)), h).
Proof.
  intros HR Hbox Hdet H2.
  rewrite (run_mark_det get_iou_cc class_recs [img; img] [b1; b2] ovthresh
             _ 1 h img R b2 [g] eq_refl HR eq_refl Hbox).
  rewrite (overlap_scan_single _ _ _ _ _ H2).
  cbn [fst snd exceeds jmax tp fp]. rewrite H2.
  rewrite run_lift_bind. cbn [or_raise].
  rewrite (run_bind_Ok _ _ _ _ _ (run_read_det_list _ _ _ Hdet)).
  rewrite run_lift_bind. simpl lookup. cbn [or_raise negb].
  reflexivity.
Qed.

(** [eval_det_cls] on one image with one ground-truth box and two
    predictions, listed in either order, that both overlap the box above
    the threshold, phase by phase. *)
Lemma eval_det_cls_two (pred gt : loc) (ovthresh : F) (use_07_metric : bool)
    (img : img_id) (bh bl g : Box) (sh sl : F) (items : list (Box * F))
    (h : heap F Box) :
  holds_pred h pred [(img, items)] →
  holds_gt h gt [(img, [g])] →
  items = [(bh, sh); (bl, sl)] ∨ items = [(bl, sl); (bh, sh)] →
  ltb (neg sh) (neg sl) = true → ltb (neg sl) (neg sh) = false →
  ltb ovthresh (get_iou_cc bh g) = true →
  ltb ovthresh (get_iou_cc bl g) = true →
  let l1 := fresh (dom h) in
  let h1 := <[l1 := OArray [g]]> h in
  let l2 := fresh (dom h1) in
  let h2 := <[l2 := ODetList [false]]> h1 in
  let h3 := <[l2 := ODetList [true]]> h2 in
  let class_recs : gmap img_id class_rec := {[img := ClassRec l1 l2]} in
  let sorted_ind := argsort (neg <$> items.*2) in
  let pr := precision_recall [lit_1; lit_0] [lit_0; lit_1] 1 in
  construct_gt gt h = (Ok (class_recs, 1), h2) ∧
  pad_empty pred gt class_recs h2 = (Ok class_recs, h2) ∧
  construct_dets pred h2 = (Ok ([img; img], items.*2, items.*1), h2) ∧
  take_indices items.*1 sorted_ind = Ok [bh; bl] ∧
  take_indices [img; img] sorted_ind = Ok [img; img] ∧
  mark_det get_iou_cc class_recs [img; img] [bh; bl] ovthresh
           (MarkState [lit_0; lit_0] [lit_0; lit_0] None) 0 h2
  = (Ok (MarkState [lit_1; lit_0] [lit_0; lit_0] (Some 0%nat)), h3) ∧
  mark_det get_iou_cc class_recs [img; img] [bh; bl] ovthresh
           (MarkState [lit_1; lit_0] [lit_0; lit_0] (Some 0%nat)) 1 h3
  = (Ok (MarkState [lit_1; lit_0] [lit_0; lit_1] (Some 0%nat)), h3) ∧
  eval_det_cls get_iou_cc pred gt ovthresh use_07_metric h
  = (match voc_ap pr.1 pr.2 use_07_metric with
     | Ok ap => Ok (pr.1, pr.2, ap)
     | Raise e => Raise e
     end, h3).
Proof.
  intros Hpred Hgt Hitems Hlt Hge Hh Hl l1 h1 l2 h2 h3 class_recs sorted_ind pr.
  destruct Hgt as (dg & Hgt & _ & HFg).
  apply Forall2_cons_inv_r in HFg as (eg & dg' & [Heg Hlg] & HFg & ->).
  apply Forall2_nil_inv_r in HFg as ->. cbn [fst snd] in Heg, Hlg.
  destruct eg as [ig lg]. cbn [fst snd] in Heg, Hlg. subst ig.
  destruct Hpred as (dp & Hpred & _ & HFp).
  apply Forall2_cons_inv_r in HFp as (ep & dp' & [Hep Hlp] & HFp & ->).
  apply Forall2_nil_inv_r in HFp as ->. cbn [fst snd] in Hep, Hlp.
  destruct ep as [ip lp]. cbn [fst snd] in Hep, Hlp. subst ip.
  assert (h ⊆ h1) as Hsub1 by apply insert_subseteq, fresh_lookup_None.
  assert (h1 ⊆ h2) as Hsub2 by apply insert_subseteq, fresh_lookup_None.
  assert (h ⊆ h2) as Hsub by (by etrans).
  assert (l1 ≠ l2) as Hne.
  { intros Heq. pose proof (fresh_lookup_None h1) as Hn. fold l2 in Hn.
    rewrite <- Heq in Hn. unfold h1 in Hn. by rewrite lookup_insert_eq in Hn. }
  assert (construct_gt gt h = (Ok (class_recs, 1), h2)) as Hcg.
  { unfold construct_gt.
    rewrite (run_bind_Ok _ _ _ _ _ (run_img_keys _ _ _ Hgt)).
    simpl fmap. rewrite run_foldM_cons. unfold construct_gt_step.
    rewrite (run_bind_Ok _ _ _ _ _
               (run_img_getitem gt [(img, lg)] img lg h Hgt
                  ltac:(simpl; by rewrite decide_True))).
    rewrite (run_bind_Ok _ _ _ _ _ (run_read_boxes lg [g] h Hlg)).
    rewrite !run_alloc_bind. reflexivity. }
  assert (pad_empty pred gt class_recs h2 = (Ok class_recs, h2)) as Hpe.
  { unfold pad_empty.
    rewrite (run_bind_Ok _ _ _ _ _
               (run_img_keys _ _ _ (lookup_weaken _ _ _ _ Hpred Hsub))).
    simpl fmap. rewrite run_foldM_cons. unfold pad_empty_step.
    rewrite (run_bind_Ok _ _ _ _ _
               (run_img_contains gt [(img, lg)] img h2
                  (lookup_weaken _ _ _ _ Hgt Hsub))).
    assert (is_Some (assoc img [(img, lg)])) as Hsome.
    { simpl. rewrite decide_True by done. eauto. }
    by rewrite (bool_decide_true _ Hsome). }
  assert (construct_dets pred h2 = (Ok ([img; img], items.*2, items.*1), h2))
    as Hcd.
  { unfold construct_dets.
    rewrite (run_bind_Ok _ _ _ _ _
               (run_img_keys _ _ _ (lookup_weaken _ _ _ _ Hpred Hsub))).
    simpl fmap. rewrite run_foldM_cons. unfold construct_dets_step.
    rewrite (run_bind_Ok _ _ _ _ _
               (run_img_getitem pred [(img, lp)] img lp h2
                  (lookup_weaken _ _ _ _ Hpred Hsub)
                  ltac:(simpl; by rewrite decide_True))).
    rewrite (run_bind_Ok _ _ _ _ _
               (run_read_pred_list lp items h2
                  (lookup_weaken _ _ _ _ Hlp Hsub))).
    by destruct Hitems as [-> | ->]. }
  destruct (take_indices_two img bh bl sh sl items Hitems Hlt Hge)
    as [HBB Hids].
  assert (class_recs !! img = Some (ClassRec l1 l2)) as HR
    by apply lookup_singleton_eq.
  assert (h2 !! l1 = Some (OArray [g])) as Hbox2.
  { unfold h2, h1. by rewrite lookup_insert_ne, lookup_insert_eq. }
  assert (h2 !! l2 = Some (ODetList [false])) as Hdet2.
  { unfold h2. by rewrite lookup_insert_eq. }
  assert (h3 !! l1 = Some (OArray [g])) as Hbox3.
  { unfold h3. by rewrite lookup_insert_ne. }
  assert (h3 !! l2 = Some (ODetList [true])) as Hdet3.
  { unfold h3. by rewrite lookup_insert_eq. }
  pose proof (mark_det_two_first class_recs img (ClassRec l1 l2) bh bl g
                ovthresh h2 HR Hbox2 Hdet2 Hh) as Hm1.
  pose proof (mark_det_two_second class_recs img (ClassRec l1 l2) bh bl g
                ovthresh h3 HR Hbox3 Hdet3 Hl) as Hm2.
  cbn [det] in Hm1. fold h3 in Hm1.
  split_and!; try done.
  unfold eval_det_cls.
  rewrite (run_bind_Ok _ _ _ _ _ Hcg). cbn [fst snd].
  rewrite (run_bind_Ok _ _ _ _ _ Hpe).
  rewrite (run_bind_Ok _ _ _ _ _ Hcd).
  fold sorted_ind in HBB, Hids |- *.
  rewrite run_lift_bind, HBB, run_lift_bind, Hids.
  assert (mark_dets get_iou_cc class_recs [img; img] [bh; bl] ovthresh h2
          = (Ok (MarkState [lit_1; lit_0] [lit_0; lit_1] (Some 0%nat)), h3))
    as Hmd.
  { unfold mark_dets. cbn [length seq replicate].
    by rewrite run_foldM_cons, Hm1, run_foldM_cons, Hm2. }
  rewrite (run_bind_Ok _ _ _ _ _ Hmd). cbn [tp fp].
  fold pr. destruct pr as [rec prec]. cbn [fst snd].
  rewrite run_lift_bind. by destruct (voc_ap rec prec use_07_metric).
Qed.
End two_detections_sorted.

(** Sorting by [-confidence] puts the detection with the higher score
    first, wherever it stands in the prediction list. *)
Lemma argsort_two (s1 s2 : Q) :
  (s2 < s1)%Q →
  argsort (neg <$> [s1; s2]) = [0%nat; 1%nat] ∧
  argsort (neg <$> [s2; s1]) = [1%nat; 0%nat].
Proof.
  intros Hlt. unfold argsort. simpl imap. cbn [fold_left argsort_insert fst snd].
  assert (ltb (- s2)%Q (- s1)%Q = false) as -> by (apply Q_ltb_ge; lra).
  assert (ltb (- s1)%Q (- s2)%Q = true) as -> by (apply Q_ltb_lt; lra).
  done.
Qed.

(** C4.  One image with one ground-truth box and two predictions that both
    overlap the box above the threshold, listed in either order: after
    [BB = BB[sorted_ind]] the prediction with the higher confidence stands
    first; the first round of the marking loop marks it true positive and
    sets the box's flag, the second round marks the other one false
    positive; and the evaluator returns the precision and recall of
    [tp = [1, 0]], [fp = [0, 1]] and one box.  The marking of two such
    detections taken in the order of their confidence, and the sort order
    of two scores.  In Scenario B (scores 0.9 and 0.5, IoU 1.0, threshold
    0.25) the evaluator returns recall [1, 1] and precision [1, 0.5], in
    binary64 and in exact arithmetic. *)
Theorem two_detections_one_box :
  (∀ (F : Type) `(ScalarCompare F) (Box : Type) (get_iou_cc : Box → Box → F)
     (pred gt : loc) (ovthresh : F) (use_07_metric : bool)
     (img : img_id) (bh bl g : Box) (sh sl : F) (items : list (Box * F))
     (h : heap F Box),
     holds_pred h pred [(img, items)] →
     holds_gt h gt [(img, [g])] →
     items = [(bh, sh); (bl, sl)] ∨ items = [(bl, sl); (bh, sh)] →
     ltb (neg sh) (neg sl) = true → ltb (neg sl) (neg sh) = false →
     ltb ovthresh (get_iou_cc bh g) = true →
     ltb ovthresh (get_iou_cc bl g) = true →
     let l1 := fresh (dom h) in
     let h1 := <[l1 := OArray [g]]> h in
     let l2 := fresh (dom h1) in
     let h2 := <[l2 := ODetList [false]]> h1 in
     let h3 := <[l2 := ODetList [true]]> h2 in
     let class_recs : gmap img_id class_rec := {[img := ClassRec l1 l2]} in
     let sorted_ind := argsort (neg <$> items.*2) in
     let pr := precision_recall [lit_1; lit_0] [lit_0; lit_1] 1 in
     construct_gt gt h = (Ok (class_recs, 1), h2) ∧
     pad_empty pred gt class_recs h2 = (Ok class_recs, h2) ∧
     construct_dets pred h2 = (Ok ([img; img], items.*2, items.*1), h2) ∧
     take_indices items.*1 sorted_ind = Ok [bh; bl] ∧
     take_indices [img; img] sorted_ind = Ok [img; img] ∧
     mark_det get_iou_cc class_recs [img; img] [bh; bl] ovthresh
              (MarkState [lit_0; lit_0] [lit_0; lit_0] None) 0 h2
     = (Ok (MarkState [lit_1; lit_0] [lit_0; lit_0] (Some 0%nat)), h3) ∧
     mark_det get_iou_cc class_recs [img; img] [bh; bl] ovthresh
              (MarkState [lit_1; lit_0] [lit_0; lit_0] (Some 0%nat)) 1 h3
     = (Ok (MarkState [lit_1; lit_0] [lit_0; lit_1] (Some 0%nat)), h3) ∧
     eval_det_cls get_iou_cc pred gt ovthresh use_07_metric h
     = (match voc_ap pr.1 pr.2 use_07_metric with
        | Ok ap => Ok (pr.1, pr.2, ap)
        | Raise e => Raise e
        end, h3)) ∧
  (∀ (F : Type) `(ScalarCompare F) (Box : Type) (get_iou_cc : Box → Box → F)
     (class_recs : gmap img_id class_rec) (img : img_id) (R : class_rec)
     (b1 b2 g : Box) (ovthresh : F) (h : heap F Box),
     class_recs !! img = Some R →
     h !! bbox R = Some (OArray [g]) →
     h !! det R = Some (ODetList [false]) →
     ltb ovthresh (get_iou_cc b1 g) = true →
     ltb ovthresh (get_iou_cc b2 g) = true →
     mark_dets get_iou_cc class_recs [img; img] [b1; b2] ovthresh h
     = (Ok (MarkState [lit_1; lit_0] [lit_0; lit_1] (Some 0%nat)),
        <[det R := ODetList [true]]> h)) ∧
  (∀ s1 s2 : Q,
     (s2 < s1)%Q →
     argsort (neg <$> [s1; s2]) = [0%nat; 1%nat] ∧
     argsort (neg <$> [s2; s1]) = [1%nat; 0%nat]) ∧
  (eval_det_cls (F:=float) iou_one 1%positive 2%positive
                (div (of_Z 1) (of_Z 4)) false scenario_B).1
  = Ok ([1%float; 1%float], [1%float; 0.5%float], 1%float) ∧
  (eval_det_cls (F:=Q) iou_one 1%positive 2%positive
                (div (of_Z 1) (of_Z 4)) false scenario_B).1
  = Ok ([1%Q; 1%Q], [1%Q; (1 # 2)%Q], 1%Q).
Proof.
  split_and!.
  - intros F HF HO Box get_iou_cc pred gt ovthresh use_07_metric img bh bl g
      sh sl items h. apply eval_det_cls_two.
  - intros F HF HO Box get_iou_cc class_recs img R b1 b2 g ovthresh h.
    apply mark_dets_two.
  - apply argsort_two.
  - vm_compute. reflexivity.
  - vm_compute. reflexivity.
Qed.

Lemma scenario_B_reversed_holds {F : Type} `{Scalar F} :
  holds_pred (scenario_B_reversed (F:=F)) 1%positive
    [(0%nat, [(8%nat, div (of_Z 5) (of_Z 10));
              (7%nat, div (of_Z 9) (of_Z 10))])] ∧
  holds_gt (scenario_B_reversed (F:=F)) 2%positive [(0%nat, [7%nat])].
Proof.
  split.
  - exists [(0%nat, 3%positive)]. split_and!; [done| |].
    + apply NoDup_singleton.
    + repeat constructor.
  - exists [(0%nat, 4%positive)]. split_and!; [done| |].
    + apply NoDup_singleton.
    + repeat constructor.
Qed.

(** Scenario B with the lower score listed first, in binary64: the sort
    puts box 7 (score 0.9) before box 8 (score 0.5), and the evaluator
    returns recall [1, 1] and precision [1, 0.5]. *)
Lemma two_detections_one_box_witness :
  take_indices [8%nat; 7%nat]
               (argsort (neg <$> [div (of_Z 5) (of_Z 10);
                                  div (of_Z 9) (of_Z 10) : float]))
  = Ok [7%nat; 8%nat] ∧
  (eval_det_cls (F:=float) iou_one 1%positive 2%positive
                (div (of_Z 1) (of_Z 4)) false scenario_B_reversed).1
  = Ok ([1%float; 1%float], [1%float; 0.5%float], 1%float).
Proof.
  pose proof (proj1 two_detections_one_box float _ float_compare nat iou_one
                1%positive 2%positive (div (of_Z 1) (of_Z 4)) false 0%nat
                7%nat 8%nat 7%nat (div (of_Z 9) (of_Z 10))
                (div (of_Z 5) (of_Z 10))
                [(8%nat, div (of_Z 5) (of_Z 10));
                 (7%nat, div (of_Z 9) (of_Z 10))]
                scenario_B_reversed
                (proj1 scenario_B_reversed_holds)
                (proj2 scenario_B_reversed_holds)
                (or_intror eq_refl) eq_refl eq_refl eq_refl eq_refl)
    as (_ & _ & _ & HBB & _ & _ & _ & Hev).
  split; [exact HBB|]. rewrite Hev. reflexivity.
Defined.

(* ===================================================================== *)
(** ** Further properties of the evaluator *)
(* ===================================================================== *)

Section shape_facts.
Context {F : Type} `{Scalar F}.

Lemma argsort_insert_perm (x : nat * F) (sorted : list (nat * F)) :
  argsort_insert x sorted ≡ₚ x :: sorted.
Proof.
  induction sorted as [|y rest IH]; simpl; [done|].
  destruct (ltb x.2 y.2); [done|].
  rewrite IH. apply Permutation_swap.
Qed.

Lemma argsort_fold_perm (l acc : list (nat * F)) :
  fold_left (λ sorted x, argsort_insert x sorted) l acc ≡ₚ l ++ acc.
Proof.
  revert acc. induction l as [|x l IH]; intros acc; simpl; [done|].
  rewrite IH, argsort_insert_perm. by rewrite Permutation_middle.
Qed.

Lemma imap_pair_fst {A} (l : list A) (k : nat) :
  (imap (λ i x, (k + i, x)%nat) l).*1 = seq k (length l).
Proof.
  revert k. induction l as [|x l IH]; intros k; simpl; [done|].
  f_equal; [lia|].
  rewrite <- (IH (S k)). f_equal. apply imap_ext. intros; simpl. f_equal. lia.
Qed.

Lemma argsort_perm (a : list F) : argsort a ≡ₚ seq 0 (length a).
Proof.
  unfold argsort. rewrite argsort_fold_perm, app_nil_r.
  by rewrite <- (imap_pair_fst a 0).
Qed.

Lemma argsort_length (a : list F) : length (argsort a) = length a.
Proof. by rewrite argsort_perm, length_seq. Qed.

Lemma argsort_bounds (a : list F) :
  Forall (λ i, (i < length a)%nat) (argsort a).
Proof.
  rewrite argsort_perm. apply Forall_forall. intros i Hi.
  apply elem_of_seq in Hi. lia.
Qed.

Lemma take_indices_Ok {A} (a : list A) (ind : list nat) :
  Forall (λ i, (i < length a)%nat) ind →
  ∃ r, take_indices a ind = Ok r ∧ Forall2 (λ i x, a !! i = Some x) ind r.
Proof.
  induction 1 as [|i ind Hi _ (r & Hr & HF)].
  - by exists [].
  - destruct (lookup_lt_is_Some_2 a i Hi) as [x Hx].
    exists (x :: r). split.
    + apply mapM_cons_Ok; [by rewrite Hx|done].
    + by constructor.
Qed.

End shape_facts.
Section dets_facts.
Context {F : Type} `{Scalar F} {Box : Type}.

Lemma append_det_fold (img : img_id) (items : list (Box * F))
    (acc : list img_id * list F * list Box) :
  fold_left (append_det img) items acc
  = (acc.1.1 ++ ((λ _, img) <$> items), acc.1.2 ++ items.*2, acc.2 ++ items.*1).
Proof.
  revert acc. induction items as [|it items IH]; intros [[i c] b]; simpl.
  - by rewrite !app_nil_r.
  - rewrite IH. simpl. by rewrite <- !app_assoc.
Qed.

Lemma construct_dets_fold (pv : list (img_id * list (Box * F)))
    (acc : list img_id * list F * list Box) :
  fold_left (λ acc e, fold_left (append_det e.1) e.2 acc) pv acc
  = (acc.1.1 ++ (pv ≫= λ e, (λ _, e.1) <$> e.2),
     acc.1.2 ++ (pv ≫= λ e, e.2.*2),
     acc.2 ++ (pv ≫= λ e, e.2.*1)).
Proof.
  revert acc. induction pv as [|e pv IH]; intros [[i c] b]; simpl.
  - by rewrite !app_nil_r.
  - rewrite IH, append_det_fold. simpl. by rewrite <- !app_assoc.
Qed.

Lemma construct_dets_v_eq (pv : list (img_id * list (Box * F))) :
  construct_dets_v pv
  = (pv ≫= λ e, (λ _, e.1) <$> e.2, pv ≫= λ e, e.2.*2, pv ≫= λ e, e.2.*1).
Proof. unfold construct_dets_v. by rewrite construct_dets_fold. Qed.

Lemma construct_dets_v_lengths (pv : list (img_id * list (Box * F))) :
  length (construct_dets_v pv).1.1 = length (pv ≫= snd) ∧
  length (construct_dets_v pv).1.2 = length (pv ≫= snd) ∧
  length (construct_dets_v pv).2 = length (pv ≫= snd).
Proof.
  rewrite construct_dets_v_eq. simpl.
  induction pv as [|e pv (IH1 & IH2 & IH3)]; [done|].
  rewrite !bind_cons, !length_app, !length_fmap, IH1, IH2, IH3. done.
Qed.

Lemma construct_dets_v_keys (pv : list (img_id * list (Box * F))) (img : img_id) :
  img ∈ (construct_dets_v pv).1.1 → img ∈ pv.*1.
Proof.
  rewrite construct_dets_v_eq. simpl. intros Hin.
  apply list_elem_of_bind in Hin as (e & Hin & He).
  apply list_elem_of_fmap in Hin as (_ & -> & _).
  apply list_elem_of_fmap. by exists e.
Qed.
End dets_facts.
Lemma or_raise_Some_bind {A B} (e : exn) (a : A) (f : A → result B) :
  or_raise e (Some a) ≫= f = f a.
Proof. done. Qed.

Section scan_shape.
Context {F : Type} `{Scalar F} {Box : Type}.
Variable get_iou_cc : Box → Box → F.

Lemma overlap_scan_shape (bb : Box) (BBGT : list Box) (j0 : option nat) :
  overlap_scan get_iou_cc bb BBGT None j0 = (None, j0) ∨
  ∃ k g, BBGT !! k = Some g ∧
         overlap_scan get_iou_cc bb BBGT None j0
         = (Some (get_iou_cc bb g), Some k).
Proof.
  induction BBGT as [|g BBGT IH] using rev_ind; [by left|].
  rewrite overlap_scan_snoc. unfold overlap_step. simpl.
  destruct (above _ _) eqn:Ha.
  - right. exists (length BBGT), g. split; [|done].
    by rewrite lookup_app_r, Nat.sub_diag by lia.
  - destruct IH as [IH|(k & g' & Hk & IH)]; [by left|].
    right. exists k, g'. split; [|done].
    by apply lookup_app_l_Some.
Qed.

Lemma mark_det_v_cases (image_ids : list img_id) (BB : list Box) (ovthresh : F)
    (recs : gmap img_id (list Box * list bool)) (st : mark_state F) (d : nat)
    (img : img_id) (bb : Box) (R : list Box * list bool) :
  image_ids !! d = Some img → BB !! d = Some bb → recs !! img = Some R →
  length R.2 = length R.1 →
  let scan := overlap_scan get_iou_cc bb R.1 None (jmax st) in
  (exceeds scan.1 ovthresh = false ∧
   mark_det_v get_iou_cc image_ids BB ovthresh (recs, st) d
   = Ok (recs, MarkState (tp st) (<[d := lit_1]> (fp st)) scan.2)) ∨
  (∃ j g, R.1 !! j = Some g ∧ ltb ovthresh (get_iou_cc bb g) = true ∧
          scan = (Some (get_iou_cc bb g), Some j) ∧
          ((R.2 !! j = Some true ∧
            mark_det_v get_iou_cc image_ids BB ovthresh (recs, st) d
            = Ok (recs, MarkState (tp st) (<[d := lit_1]> (fp st)) (Some j))) ∨
           (R.2 !! j = Some false ∧
            mark_det_v get_iou_cc image_ids BB ovthresh (recs, st) d
            = Ok (<[img := (R.1, <[j := true]> R.2)]> recs,
                  MarkState (<[d := lit_1]> (tp st)) (fp st) (Some j))))).
Proof.
  intros Hi Hb HR Hlen scan.
  assert (match R.1 with
          | [] => (None, jmax st)
          | _ => overlap_scan get_iou_cc bb R.1 None (jmax st)
          end = scan) as Hscan by (subst scan; by destruct R.1).
  unfold mark_det_v. simpl.
  rewrite Hi, or_raise_Some_bind, HR, or_raise_Some_bind, Hb, or_raise_Some_bind.
  rewrite Hscan. clear Hscan.
  destruct (overlap_scan_shape bb R.1 (jmax st)) as [Hs|(k & g & Hk & Hs)];
    fold scan in Hs; rewrite Hs; simpl.
  - by left.
  - destruct (ltb ovthresh (get_iou_cc bb g)) eqn:Hlt; [|by left].
    assert (k < length R.2)%nat as Hkl.
    { rewrite Hlen. by eapply lookup_lt_Some. }
    destruct (lookup_lt_is_Some_2 R.2 k Hkl) as [flag Hflag].
    rewrite Hflag, or_raise_Some_bind.
    right. exists k, g. split_and!; [done..|].
    destruct flag; simpl; [by left|by right].
Qed.
End scan_shape.
Section mark_loop.
Context {F : Type} `{Scalar F} {Box : Type}.
Variable get_iou_cc : Box → Box → F.
Variables (image_ids : list img_id) (BB : list Box) (ovthresh : F).
Variable I : nat → gmap img_id (list Box * list bool) → mark_state F → Prop.
Hypothesis HBB : length BB = length image_ids.
Hypothesis Hstep :
  ∀ d recs st img bb R,
    image_ids !! d = Some img → BB !! d = Some bb → recs !! img = Some R →
    length R.2 = length R.1 → I d recs st →
    let scan := overlap_scan get_iou_cc bb R.1 None (jmax st) in
    (exceeds scan.1 ovthresh = false →
     I (S d) recs (MarkState (tp st) (<[d := lit_1]> (fp st)) scan.2)) ∧
    (∀ j g, R.1 !! j = Some g → ltb ovthresh (get_iou_cc bb g) = true →
            scan = (Some (get_iou_cc bb g), Some j) →
            (R.2 !! j = Some true →
             I (S d) recs (MarkState (tp st) (<[d := lit_1]> (fp st)) (Some j))) ∧
            (R.2 !! j = Some false →
             I (S d) (<[img := (R.1, <[j := true]> R.2)]> recs)
               (MarkState (<[d := lit_1]> (tp st)) (fp st) (Some j)))).

Lemma mark_loop_v_inv (n : nat) :
  ∀ k recs st,
    (k + n ≤ length image_ids)%nat →
    (∀ img, img ∈ image_ids → is_Some (recs !! img)) →
    flags_fit recs → I k recs st →
    ∃ recs' st',
      foldM (mark_det_v get_iou_cc image_ids BB ovthresh) (recs, st) (seq k n)
      = Ok (recs', st') ∧
      flags_fit recs' ∧
      (∀ img, img ∈ image_ids → is_Some (recs' !! img)) ∧
      I (k + n)%nat recs' st'.
Proof.
  induction n as [|n IH]; intros k recs st Hk Hkeys Hfit HI.
  - exists recs, st. rewrite Nat.add_0_r. done.
  - simpl seq. rewrite foldM_cons.
    destruct (lookup_lt_is_Some_2 image_ids k) as [img Himg]; [lia|].
    destruct (lookup_lt_is_Some_2 BB k) as [bb Hbb]; [lia|].
    destruct (Hkeys img) as [R HR]; [by eapply list_elem_of_lookup_2|].
    pose proof (Hfit img R HR) as HRlen. simpl in HRlen.
    destruct (Hstep k recs st img bb R Himg Hbb HR HRlen HI) as [Hfp Htp].
    replace (k + S n)%nat with (S k + n)%nat by lia.
    destruct (mark_det_v_cases get_iou_cc image_ids BB ovthresh recs st k
                img bb R Himg Hbb HR HRlen)
      as [[Hex ->]|(j & g & Hj & Hlt & Hs & [[Hflag ->]|[Hflag ->]])];
      rewrite result_bind_Ok.
    + apply IH; [lia|done|done|by apply Hfp].
    + apply IH; [lia|done|done|]. by apply (Htp j g).
    + apply IH; [lia| | |by apply (Htp j g)].
      * intros i Hi. destruct (decide (i = img)) as [->|Hne].
        -- by rewrite lookup_insert_eq.
        -- rewrite lookup_insert_ne by done. by apply Hkeys.
      * apply map_Forall_insert_2; [|done]. simpl.
        by rewrite length_insert.
Qed.
End mark_loop.
Lemma fold_left_inv {A B} (f : A → B → A) (P : A → Prop) (l : list B) (a : A) :
  P a → (∀ a x, x ∈ l → P a → P (f a x)) → P (fold_left f l a).
Proof.
  revert a. induction l as [|x l IH]; intros a Ha Hf; simpl; [done|].
  apply IH.
  - apply Hf; [left|done].
  - intros a' y Hy. apply Hf. by right.
Qed.

Section records_facts.
Context {F : Type} `{Scalar F} {Box : Type}.

Lemma construct_gt_v_inv (P : gmap img_id (list Box * list bool) → Z → Prop)
    (gv : list (img_id * list Box)) :
  P ∅ 0 →
  (∀ m z e, e ∈ gv → P m z →
            P (<[e.1 := (e.2, replicate (length e.2) false)]> m)
              (z + Z.of_nat (length e.2))) →
  P (construct_gt_v gv).1 (construct_gt_v gv).2.
Proof.
  intros H0 Hs. unfold construct_gt_v.
  apply (fold_left_inv _ (λ a, P a.1 a.2)); [done|].
  intros [m z] e He Ha. by apply Hs.
Qed.

Lemma pad_empty_v_inv (P : gmap img_id (list Box * list bool) → Prop)
    (pv : list (img_id * list (Box * F))) (gv : list (img_id * list Box))
    (recs : gmap img_id (list Box * list bool)) :
  P recs →
  (∀ m e, e ∈ pv → assoc e.1 gv = None → P m → P (<[e.1 := ([], [])]> m)) →
  P (pad_empty_v pv gv recs).
Proof.
  intros H0 Hs. unfold pad_empty_v.
  apply (fold_left_inv _ P); [done|].
  intros m e He Hm. case_bool_decide as Hd; [done|].
  apply Hs; [done| |done].
  destruct (assoc e.1 gv) eqn:E; [|done]. by destruct Hd.
Qed.

Lemma construct_gt_v_fit (gv : list (img_id * list Box)) :
  flags_fit (construct_gt_v gv).1.
Proof.
  apply (construct_gt_v_inv (λ m _, flags_fit m)).
  - apply map_Forall_empty.
  - intros m z e _ Hm. apply map_Forall_insert_2; [|done]. simpl.
    by rewrite length_replicate.
Qed.

Lemma construct_gt_v_keys (gv : list (img_id * list Box)) (k : img_id) :
  is_Some ((construct_gt_v gv).1 !! k) ↔ k ∈ gv.*1.
Proof.
  unfold construct_gt_v.
  cut (∀ acc : gmap img_id (list Box * list bool) * Z,
         is_Some ((fold_left (λ acc e,
                     (<[e.1 := (e.2, replicate (length e.2) false)]> acc.1,
                      acc.2 + Z.of_nat (length e.2))) gv acc).1 !! k)
         ↔ k ∈ gv.*1 ∨ is_Some (acc.1 !! k)).
  { intros Hc. rewrite Hc. simpl. rewrite lookup_empty.
    split; [intros [?|[? ?]]; done|by left]. }
  induction gv as [|e gv IH]; intros acc; simpl.
  - split; [by right|]. intros [Hin|?]; [|done]. by apply elem_of_nil in Hin.
  - rewrite IH. simpl. rewrite elem_of_cons.
    destruct (decide (k = e.1)) as [->|Hne].
    + rewrite lookup_insert_eq. split; [intros _; by left; left|].
      intros _. right. by eexists.
    + rewrite lookup_insert_ne by done. split; [intros [?|?]; [left; by right|by right]|].
      intros [[?|?]|?]; [done|by left|by right].
Qed.

Lemma construct_gt_v_npos (gv : list (img_id * list Box)) :
  (construct_gt_v gv).2 = Z.of_nat (length (gv ≫= snd)).
Proof.
  unfold construct_gt_v.
  cut (∀ acc : gmap img_id (list Box * list bool) * Z,
         (fold_left (λ acc e,
                     (<[e.1 := (e.2, replicate (length e.2) false)]> acc.1,
                      acc.2 + Z.of_nat (length e.2))) gv acc).2
         = acc.2 + Z.of_nat (length (gv ≫= snd))).
  { intros Hc. by rewrite Hc. }
  induction gv as [|e gv IH]; intros acc; [simpl; lia|].
  rewrite bind_cons, length_app. simpl. rewrite IH. simpl. lia.
Qed.

Lemma pad_empty_v_fit (pv : list (img_id * list (Box * F)))
    (gv : list (img_id * list Box)) (recs : gmap img_id (list Box * list bool)) :
  flags_fit recs → flags_fit (pad_empty_v pv gv recs).
Proof.
  intros Hfit. apply (pad_empty_v_inv flags_fit); [done|].
  intros m e _ _ Hm. by apply map_Forall_insert_2.
Qed.

Lemma pad_empty_v_keys (pv : list (img_id * list (Box * F)))
    (gv : list (img_id * list Box)) (recs : gmap img_id (list Box * list bool))
    (k : img_id) :
  (∀ i, i ∈ gv.*1 → is_Some (recs !! i)) →
  k ∈ pv.*1 → is_Some (pad_empty_v pv gv recs !! k).
Proof.
  unfold pad_empty_v. revert recs.
  induction pv as [|e pv IH]; intros recs Hg Hk; simpl.
  { by apply elem_of_nil in Hk. }
  assert (∀ m : gmap img_id (list Box * list bool),
            is_Some (m !! k) →
            is_Some (fold_left (λ recs e,
                       if bool_decide (is_Some (assoc e.1 gv)) then recs
                       else <[e.1 := ([], [])]> recs) pv m !! k)) as Hkeep.
  { intros m Hm. apply (fold_left_inv _ (λ m, is_Some (m !! k))); [done|].
    intros m' e' _ Hm'. case_bool_decide; [done|].
    destruct (decide (k = e'.1)) as [->|Hne].
    - by rewrite lookup_insert_eq.
    - by rewrite lookup_insert_ne. }
  simpl in Hk. apply elem_of_cons in Hk as [->|Hk].
  - apply Hkeep. case_bool_decide as Hd.
    + apply Hg. by apply assoc_is_Some.
    + by rewrite lookup_insert_eq.
  - apply IH; [|done]. intros i Hi. case_bool_decide; [by apply Hg|].
    destruct (decide (i = e.1)) as [->|Hne].
    + by rewrite lookup_insert_eq.
    + rewrite lookup_insert_ne by done. by apply Hg.
Qed.
End records_facts.
Section voc_ap_total.
Context {F : Type} `{Scalar F}.

Lemma compress_nonempty (a : list F) (mask : list bool) :
  length mask = length a → count_true mask ≠ 0%nat → compress a mask ≠ [].
Proof.
  revert mask. induction a as [|x a IH]; intros [|b mask] Hlen Hc; simplify_eq/=.
  destruct b; [done|]. apply IH; [done|].
  unfold count_true in *. by rewrite filter_cons_False in Hc.
Qed.

Lemma voc_ap_07_step_Ok (rec prec : list F) (ap t : F) :
  length rec = length prec → ∃ ap', voc_ap_07_step rec prec ap t = Ok ap'.
Proof.
  intros Hlen. unfold voc_ap_07_step.
  destruct (Nat.eqb _ 0) eqn:Hc; [by eexists|].
  apply Nat.eqb_neq in Hc. unfold bool_index.
  rewrite decide_True by (by rewrite length_fmap).
  rewrite result_bind_Ok.
  destruct (compress prec _) eqn:Hcomp.
  - apply compress_nonempty in Hcomp; [done|by rewrite length_fmap|done].
  - by eexists.
Qed.

Lemma voc_ap_07_steps_Ok (rec prec ts : list F) (ap : F) :
  length rec = length prec →
  ∃ ap', foldM (voc_ap_07_step rec prec) ap ts = Ok ap'.
Proof.
  intros Hlen. revert ap. induction ts as [|t ts IH]; intros ap.
  - by eexists.
  - rewrite foldM_cons.
    destruct (voc_ap_07_step_Ok rec prec ap t Hlen) as [ap' ->].
    rewrite result_bind_Ok. apply IH.
Qed.

Lemma area_terms_Ok (mrec mpre : list F) (ind : list nat) :
  Forall (λ i, (S i < length mrec)%nat ∧ (S i < length mpre)%nat) ind →
  ∃ terms, mapM (area_term mrec mpre) ind = Ok terms ∧
           Forall2 (λ i t, ∃ a b c, mrec !! S i = Some a ∧ mrec !! i = Some b ∧
                                    mpre !! S i = Some c ∧ t = mul (sub a b) c)
                   ind terms.
Proof.
  induction 1 as [|i ind [Hi1 Hi2] _ (terms & Ht & HF)]; [by exists []|].
  destruct (lookup_lt_is_Some_2 mrec (S i)) as [a Ha]; [done|].
  destruct (lookup_lt_is_Some_2 mrec i) as [b Hb]; [lia|].
  destruct (lookup_lt_is_Some_2 mpre (S i)) as [c Hc]; [done|].
  exists (mul (sub a b) c :: terms). split.
  - apply mapM_cons_Ok; [|done]. unfold area_term.
    replace (i + 1)%nat with (S i) by lia. by rewrite Ha, Hb, Hc.
  - constructor; [|done]. by exists a, b, c.
Qed.

Lemma where_ne_bounds (mrec : list F) :
  Forall (λ i, (S i < length mrec)%nat) (where_ne (tail mrec) (removelast mrec)).
Proof.
  destruct (where_ne_from_bounds (tail mrec) (removelast mrec) 0) as [_ Hb].
  eapply Forall_impl; [exact Hb|]. simpl. intros i Hi.
  rewrite length_tl in Hi. lia.
Qed.

Lemma voc_ap_exact_Ok (rec prec : list F) :
  length rec = length prec → ∃ ap, voc_ap_exact rec prec = Ok ap.
Proof.
  intros Hlen. unfold voc_ap_exact.
  destruct (envelope_fold (λ _, True)
              (range_down (length ([lit_0] ++ prec ++ [lit_0]) - 1))
              ([lit_0] ++ prec ++ [lit_0]))
    as (mpre & -> & Hl & _).
  { done. }
  { by apply Forall_forall. }
  { simpl. rewrite Nat.sub_0_r. apply range_down_bounds. }
  rewrite result_bind_Ok.
  destruct (area_terms_Ok ([lit_0] ++ rec ++ [lit_1]) mpre
              (where_ne (tail ([lit_0] ++ rec ++ [lit_1]))
                        (removelast ([lit_0] ++ rec ++ [lit_1]))))
    as (terms & -> & _).
  { eapply Forall_impl; [apply where_ne_bounds|]. simpl. intros i Hi.
    split; [done|]. rewrite Hl. simpl in *. rewrite !length_app in *. simpl in *.
    lia. }
  by eexists.
Qed.

Lemma voc_ap_Ok (rec prec : list F) (use_07_metric : bool) :
  length rec = length prec → ∃ ap, voc_ap rec prec use_07_metric = Ok ap.
Proof.
  intros Hlen. destruct use_07_metric; simpl.
  - by apply voc_ap_07_steps_Ok.
  - by apply voc_ap_exact_Ok.
Qed.

Lemma cumsum_from_length (acc : F) (l : list F) :
  length (cumsum_from acc l) = length l.
Proof. revert acc. induction l; intros; simpl; [done|]. by rewrite IHl. Qed.

Lemma cumsum_length (l : list F) : length (cumsum l) = length l.
Proof. destruct l; simpl; [done|]. by rewrite cumsum_from_length. Qed.

Lemma precision_recall_lengths (tp fp : list F) (npos : Z) :
  length tp = length fp →
  length (precision_recall tp fp npos).1 = length tp ∧
  length (precision_recall tp fp npos).2 = length tp.
Proof.
  intros Hlen. unfold precision_recall. simpl.
  rewrite length_fmap, !length_zip_with, length_fmap, length_zip_with,
    !cumsum_length. lia.
Qed.
End voc_ap_total.
Section evaluator_run.
Context {F : Type} `{Scalar F} {Box : Type}.
Variable get_iou_cc : Box → Box → F.
Variables (pv : list (img_id * list (Box * F))) (gv : list (img_id * list Box)).
Variables (ovthresh : F) (use_07_metric : bool).

Lemma eval_det_cls_v_sorted :
  let dets := construct_dets_v pv in
  let sorted_ind := argsort (neg <$> dets.1.2) in
  ∃ image_ids BB,
    take_indices dets.1.1 sorted_ind = Ok image_ids ∧
    take_indices dets.2 sorted_ind = Ok BB ∧
    Forall2 (λ i x, dets.1.1 !! i = Some x) sorted_ind image_ids ∧
    Forall2 (λ i x, dets.2 !! i = Some x) sorted_ind BB ∧
    length image_ids = length (pv ≫= snd) ∧
    length BB = length image_ids ∧
    (∀ img, img ∈ image_ids → img ∈ pv.*1).
Proof.
  intros dets sorted_ind.
  destruct (construct_dets_v_lengths pv) as (L1 & L2 & L3).
  fold dets in L1, L2, L3.
  assert (Forall (λ i, (i < length (pv ≫= snd))%nat) sorted_ind) as Hb.
  { subst sorted_ind. rewrite <- L2, <- (length_fmap neg). apply argsort_bounds. }
  assert (length sorted_ind = length (pv ≫= snd)) as Hl.
  { subst sorted_ind. by rewrite argsort_length, length_fmap. }
  destruct (take_indices_Ok dets.1.1 sorted_ind) as (image_ids & Hi & HFi).
  { by rewrite L1. }
  destruct (take_indices_Ok dets.2 sorted_ind) as (BB & HB & HFB).
  { by rewrite L3. }
  exists image_ids, BB. split_and!; [done..| | |].
  - apply Forall2_length in HFi. lia.
  - apply Forall2_length in HFi, HFB. lia.
  - intros img Himg. apply list_elem_of_lookup in Himg as [k Hk].
    eapply Forall2_lookup_r in HFi as (i & _ & Hi'); [|exact Hk].
    apply construct_dets_v_keys. by eapply list_elem_of_lookup_2.
Qed.

Lemma eval_det_cls_v_run
    (I : nat → gmap img_id (list Box * list bool) → mark_state F → Prop)
    (image_ids : list img_id) (BB : list Box) :
  let dets := construct_dets_v pv in
  let sorted_ind := argsort (neg <$> dets.1.2) in
  let recs := pad_empty_v pv gv (construct_gt_v gv).1 in
  let nd := length image_ids in
  take_indices dets.1.1 sorted_ind = Ok image_ids →
  take_indices dets.2 sorted_ind = Ok BB →
  length BB = length image_ids →
  (∀ img, img ∈ image_ids → img ∈ pv.*1) →
  (∀ d recs st img bb R,
     image_ids !! d = Some img → BB !! d = Some bb → recs !! img = Some R →
     length R.2 = length R.1 → I d recs st →
     length (tp st) = nd → length (fp st) = nd →
     let scan := overlap_scan get_iou_cc bb R.1 None (jmax st) in
     (exceeds scan.1 ovthresh = false →
      I (S d) recs (MarkState (tp st) (<[d := lit_1]> (fp st)) scan.2)) ∧
     (∀ j g, R.1 !! j = Some g → ltb ovthresh (get_iou_cc bb g) = true →
             scan = (Some (get_iou_cc bb g), Some j) →
             (R.2 !! j = Some true →
              I (S d) recs (MarkState (tp st) (<[d := lit_1]> (fp st)) (Some j))) ∧
             (R.2 !! j = Some false →
              I (S d) (<[img := (R.1, <[j := true]> R.2)]> recs)
                (MarkState (<[d := lit_1]> (tp st)) (fp st) (Some j))))) →
  I 0%nat recs (MarkState (replicate nd lit_0) (replicate nd lit_0) None) →
  ∃ recs' st' ap,
    I nd recs' st' ∧
    length (tp st') = nd ∧ length (fp st') = nd ∧
    let pr := precision_recall (tp st') (fp st') (construct_gt_v gv).2 in
    voc_ap pr.1 pr.2 use_07_metric = Ok ap ∧
    eval_det_cls_v get_iou_cc pv gv ovthresh use_07_metric = Ok (pr.1, pr.2, ap).
Proof.
  intros dets sorted_ind recs nd Hids HBB Hlen Hkeys Hstep H0.
  destruct (mark_loop_v_inv get_iou_cc image_ids BB ovthresh
              (λ d recs st, I d recs st ∧ length (tp st) = nd ∧ length (fp st) = nd)
              Hlen) with (n := nd) (k := 0%nat) (recs := recs)
              (st := MarkState (replicate nd lit_0) (replicate nd lit_0) None)
    as (recs' & st' & Hloop & _ & _ & HI & Htp & Hfp).
  - intros d recs1 st img bb R Hd Hb HR HRl (HI & Htp & Hfp). simpl.
    destruct (Hstep d recs1 st img bb R Hd Hb HR HRl HI Htp Hfp) as [Hf Ht].
    split.
    + intros Hex. split; [by apply Hf|]. by rewrite length_insert.
    + intros j g Hj Hlt Hs. destruct (Ht j g Hj Hlt Hs) as [Ht1 Ht2].
      split; intros Hflag; (split; [auto|]); by rewrite length_insert.
  - done.
  - intros img Himg. apply pad_empty_v_keys; [|by apply Hkeys].
    intros i Hi. by apply construct_gt_v_keys.
  - apply pad_empty_v_fit, construct_gt_v_fit.
  - simpl. by rewrite !length_replicate.
  - simpl in HI.
    destruct (precision_recall_lengths (tp st') (fp st') (construct_gt_v gv).2)
      as [Hl1 Hl2]; [lia|].
    destruct (voc_ap_Ok (precision_recall (tp st') (fp st') (construct_gt_v gv).2).1
                (precision_recall (tp st') (fp st') (construct_gt_v gv).2).2
                use_07_metric) as [ap Hap]; [lia|].
    exists recs', st', ap. split_and!; [done..|].
    unfold eval_det_cls_v. fold dets. fold sorted_ind.
    rewrite HBB, result_bind_Ok, Hids, result_bind_Ok.
    fold nd. fold recs. rewrite Hloop, result_bind_Ok. cbv beta zeta. cbn [fst snd].
    by rewrite Hap.
Qed.

Lemma eval_det_cls_v_Ok :
  ∃ rec prec ap,
    eval_det_cls_v get_iou_cc pv gv ovthresh use_07_metric = Ok (rec, prec, ap) ∧
    length rec = length (pv ≫= snd) ∧ length prec = length (pv ≫= snd).
Proof.
  destruct eval_det_cls_v_sorted
    as (image_ids & BB & Hids & HBB & _ & _ & Hnd & Hlen & Hkeys).
  destruct (eval_det_cls_v_run (λ _ _ _, True) image_ids BB Hids HBB Hlen Hkeys)
    as (recs' & st' & ap & _ & Htp & Hfp & _ & Hrun); [done..|].
  eexists _, _, ap. split; [exact Hrun|].
  destruct (precision_recall_lengths (tp st') (fp st') (construct_gt_v gv).2)
    as [Hl1 Hl2]; lia.
Qed.
End evaluator_run.
Section unmatched_facts.
Context {Box : Type}.
Implicit Types recs : gmap img_id (list Box * list bool).

Lemma unmatched_empty : unmatched (Box:=Box) ∅ = 0%nat.
Proof. unfold unmatched. by rewrite map_fold_empty. Qed.

Lemma unmatched_insert_fresh recs (i : img_id) (v : list Box * list bool) :
  recs !! i = None →
  unmatched (<[i := v]> recs) = (count_false v.2 + unmatched recs)%nat.
Proof.
  intros Hi. unfold unmatched. rewrite map_fold_insert_L; [done| |done].
  intros. lia.
Qed.

Lemma unmatched_lookup recs (i : img_id) (v : list Box * list bool) :
  recs !! i = Some v →
  unmatched recs = (count_false v.2 + unmatched (delete i recs))%nat.
Proof.
  intros Hi. unfold unmatched. rewrite (map_fold_delete_L _ _ i v recs); [done| |done].
  intros. lia.
Qed.

Lemma unmatched_insert recs (i : img_id) (v : list Box * list bool) :
  unmatched (<[i := v]> recs)
  = (count_false v.2 + unmatched (delete i recs))%nat.
Proof.
  rewrite <- insert_delete_eq. apply unmatched_insert_fresh, lookup_delete_eq.
Qed.

Lemma unmatched_insert_le recs (i : img_id) (v : list Box * list bool) :
  (unmatched (<[i := v]> recs) ≤ count_false v.2 + unmatched recs)%nat.
Proof.
  rewrite unmatched_insert. destruct (recs !! i) as [w|] eqn:Hi.
  - rewrite (unmatched_lookup recs i w Hi). lia.
  - by rewrite delete_id.
Qed.

Lemma count_false_replicate (n : nat) : count_false (replicate n false) = n.
Proof.
  unfold count_false. induction n as [|n IH]; [done|].
  change (replicate (S n) false) with (false :: replicate n false).
  rewrite filter_cons_True by done. cbn [length]. by rewrite IH.
Qed.

Lemma count_false_claim (flags : list bool) (j : nat) :
  flags !! j = Some false →
  count_false flags = S (count_false (<[j := true]> flags)).
Proof.
  unfold count_false. revert j. induction flags as [|b flags IH]; intros j Hj.
  { done. }
  destruct j as [|j].
  - injection Hj as ->. change (<[0%nat := true]> (false :: flags)) with (true :: flags).
    rewrite filter_cons_True by done.
    by rewrite filter_cons_False by done.
  - change (<[S j := true]> (b :: flags)) with (b :: <[j := true]> flags).
    change (flags !! j = Some false) in Hj.
    destruct b.
    + rewrite !filter_cons_False by done. by apply IH.
    + rewrite !filter_cons_True by done. cbn [length]. f_equal. by apply IH.
Qed.

Lemma unmatched_claim recs (img : img_id) (R : list Box * list bool) (j : nat) :
  recs !! img = Some R → R.2 !! j = Some false →
  unmatched recs = S (unmatched (<[img := (R.1, <[j := true]> R.2)]> recs)).
Proof.
  intros HR Hj. rewrite unmatched_insert, (unmatched_lookup recs img R HR).
  simpl. rewrite (count_false_claim R.2 j Hj). lia.
Qed.
End unmatched_facts.

Section unmatched_initial.
Context {F : Type} `{Scalar F} {Box : Type}.

Lemma construct_gt_v_unmatched (gv : list (img_id * list Box)) :
  (Z.of_nat (unmatched (construct_gt_v gv).1) ≤ (construct_gt_v gv).2)%Z.
Proof.
  apply (construct_gt_v_inv (λ m z, (Z.of_nat (unmatched m) ≤ z)%Z)).
  - by rewrite unmatched_empty.
  - intros m z e _ Hm.
    pose proof (unmatched_insert_le m e.1 (e.2, replicate (length e.2) false)) as Hle.
    simpl in Hle. rewrite count_false_replicate in Hle. lia.
Qed.

Lemma pad_empty_v_unmatched (pv : list (img_id * list (Box * F)))
    (gv : list (img_id * list Box)) (recs : gmap img_id (list Box * list bool)) :
  (unmatched (pad_empty_v pv gv recs) ≤ unmatched recs)%nat.
Proof.
  apply (pad_empty_v_inv (λ m, (unmatched m ≤ unmatched recs)%nat)); [done|].
  intros m e _ _ Hm.
  pose proof (unmatched_insert_le m e.1 ([], [])) as Hle. simpl in Hle.
  change (count_false []) with 0%nat in Hle. lia.
Qed.
End unmatched_initial.

Section marked_facts.
Context {F : Type} `{Scalar F}.

Lemma marked_upto_start (nd : nat) :
  marked_upto (F:=F) nd 0 (replicate nd lit_0) (replicate nd lit_0).
Proof.
  split; [intros; lia|]. intros i Hi.
  by rewrite lookup_replicate_2 by lia.
Qed.

Lemma marked_upto_tp (nd d : nat) (tp fp : list F) :
  length tp = nd → length fp = nd → (d < nd)%nat →
  marked_upto nd d tp fp → marked_upto nd (S d) (<[d := lit_1]> tp) fp.
Proof.
  intros Ht Hf Hd [Hlo Hhi]. split.
  - intros i Hi. destruct (decide (i = d)) as [->|Hne].
    + left. rewrite list_lookup_insert_eq by lia. split; [done|]. by apply Hhi.
    + rewrite list_lookup_insert_ne by done. apply Hlo. lia.
  - intros i Hi. rewrite list_lookup_insert_ne by lia. apply Hhi. lia.
Qed.

Lemma marked_upto_fp (nd d : nat) (tp fp : list F) :
  length tp = nd → length fp = nd → (d < nd)%nat →
  marked_upto nd d tp fp → marked_upto nd (S d) tp (<[d := lit_1]> fp).
Proof.
  intros Ht Hf Hd [Hlo Hhi]. split.
  - intros i Hi. destruct (decide (i = d)) as [->|Hne].
    + right. rewrite list_lookup_insert_eq by lia. split; [|done]. by apply Hhi.
    + rewrite list_lookup_insert_ne by done. apply Hlo. lia.
  - intros i Hi. rewrite list_lookup_insert_ne by lia. apply Hhi. lia.
Qed.

Lemma marked_upto_end (nd : nat) (tp fp : list F) :
  length tp = nd → length fp = nd →
  marked_upto nd nd tp fp → marked_once tp fp.
Proof.
  intros Ht Hf [Hlo _]. apply Forall2_same_length_lookup. split; [lia|].
  intros i t f Hti Hfi.
  destruct (Hlo i) as [[? ?]|[? ?]]; [by eapply lookup_lt_Some in Hti; lia|..];
    simplify_eq; [by left|by right].
Qed.
End marked_facts.
Section counting_facts.
Local Open Scope Q_scope.

Lemma Qsum_insert (l : list Q) (d : nat) (x y : Q) :
  l !! d = Some x → Qsum (<[d := y]> l) == Qsum l - x + y.
Proof.
  revert d. induction l as [|a l IH]; intros d Hd; [done|].
  destruct d as [|d]; simpl in *.
  - simplify_eq. lra.
  - rewrite (IH d Hd). lra.
Qed.

Lemma Qsum_zeros (n : nat) : Qsum (replicate n (lit_0 (F:=Q))) == 0.
Proof. induction n as [|n IH]; simpl; [done|]. rewrite IH. by vm_compute. Qed.

Lemma Qsum_nonneg (l : list Q) : Forall (λ x, 0 <= x) l → 0 <= Qsum l.
Proof. induction 1; simpl; lra. Qed.

Lemma cumsum_from_bounds (l : list Q) (a : Q) :
  Forall (λ x, 0 <= x) l →
  (∀ i c, cumsum_from a l !! i = Some c → a <= c ∧ c <= a + Qsum l) ∧
  non_decreasing (a :: cumsum_from a l).
Proof.
  intros Hl. revert a. induction Hl as [|x l Hx Hl IH]; intros a.
  - split; [intros i c Hi; by destruct i|]. intros [|i] u v; simpl; [done|].
    by destruct i.
  - destruct (IH (a + x)) as [IH1 IH2]. pose proof (Qsum_nonneg l Hl) as Hs.
    split.
    + intros [|i] c Hi; simpl in *.
      * simplify_eq. change (add a x) with (a + x). lra.
      * apply IH1 in Hi. lra.
    + intros [|i] u v; simpl.
      * intros [= <-] [= <-]. change (add a x) with (a + x). lra.
      * apply (IH2 i).
Qed.

Lemma cumsum_bounds (l : list Q) :
  Forall (λ x, 0 <= x) l →
  (∀ i c, cumsum l !! i = Some c → 0 <= c ∧ c <= Qsum l) ∧
  non_decreasing (cumsum l).
Proof.
  intros Hl. destruct Hl as [|x l Hx Hl].
  - split; [intros i c Hi; by destruct i|]. intros i u v Hi. by destruct i.
  - destruct (cumsum_from_bounds l x Hl) as [H1 H2].
    pose proof (Qsum_nonneg l Hl) as Hs. split; [|done].
    intros [|i] c Hi; simpl in *.
    + simplify_eq. lra.
    + apply H1 in Hi. lra.
Qed.

Lemma marked_once_nonneg (tp fp : list Q) :
  marked_once tp fp → Forall (λ x, 0 <= x) tp ∧ Forall (λ x, 0 <= x) fp.
Proof.
  induction 1 as [|t f tp fp Htf _ [IH1 IH2]]; [done|].
  destruct Htf as [[-> ->]|[-> ->]]; split; constructor; try done;
    by vm_compute.
Qed.

Lemma non_decreasing_scale (l : list Q) (c : Q) :
  0 <= c → non_decreasing l → non_decreasing ((λ t, t / c) <$> l).
Proof.
  intros Hc Hl i a b. rewrite !list_lookup_fmap.
  destruct (l !! i) as [u|] eqn:Hu; [|done].
  destruct (l !! S i) as [v|] eqn:Hv; [|done].
  simpl. intros [= <-] [= <-]. pose proof (Hl i u v Hu Hv) as Huv.
  destruct (Qeq_dec c 0) as [Hz|Hnz].
  - unfold Qdiv. rewrite Hz. change (/ 0) with 0. lra.
  - apply Qle_shift_div_l; [lra|]. field_simplify (u / c * c); [lra|done].
Qed.
End counting_facts.
Section curve_facts.
Local Open Scope Q_scope.

Lemma voc_ap_unit_Q (rec prec : list Q) (use_07_metric : bool) :
  length rec = length prec →
  Forall unit_interval rec → non_decreasing rec → Forall unit_interval prec →
  ∃ ap, voc_ap rec prec use_07_metric = Ok ap ∧ unit_interval ap.
Proof.
  intros Hlen Hrec Hnd Hprec. destruct use_07_metric.
  - destruct (voc_ap_07_exact_arith rec prec Hlen) as (ps & ap & Hps & Hap & _ & Hmean).
    exists ap. split; [done|].
    assert (Forall unit_interval ps) as Hu.
    { apply Forall_forall. intros p Hp.
      apply list_elem_of_lookup in Hp as [i Hi].
      eapply Forall2_lookup_r in Hps as (t & _ & Ht); [|exact Hi].
      by eapply max_prec_at_unit. }
    apply Qsum_unit_interval in Hu as [H0 H1].
    apply Forall2_length in Hps. rewrite <- Hps in H1.
    change (inject_Z (Z.of_nat _)) with 11 in H1.
    unfold Qdiv in Hmean. change (/ 11) with (1 # 11) in Hmean.
    split; lra.
  - by apply voc_ap_exact_unit.
Qed.

Lemma precision_marked (tp fp : list Q) (npos : Z) :
  marked_once tp fp →
  Forall unit_interval (precision_recall tp fp npos).2.
Proof.
  intros Hm. apply Forall_lookup. intros i p Hp.
  assert (i < length tp)%nat as Hi.
  { apply lookup_lt_Some in Hp.
    destruct (precision_recall_lengths tp fp npos) as [_ Hl];
      [by eapply Forall2_length|]. lia. }
  destruct (cumsum_marked tp fp i Hm Hi) as (ct & cf & Hct & Hcf & Hsum).
  destruct (marked_once_nonneg tp fp Hm) as [Ht Hf].
  destruct (cumsum_bounds tp Ht) as [Hbt _].
  destruct (cumsum_bounds fp Hf) as [Hbf _].
  apply Hbt in Hct as Hct'. apply Hbf in Hcf as Hcf'.
  pose proof (inject_Z_S_ge_1 i) as Hge. pose proof float64_eps_lt_1 as Heps.
  assert (maximum (add ct cf) float64_eps = add ct cf) as Hmax.
  { unfold maximum. rewrite !Q_eqb_refl.
    assert (ltb (add ct cf) (float64_eps (F:=Q)) = false) as ->; [|done].
    apply Q_ltb_ge. change (add ct cf) with (ct + cf)%Q. lra. }
  unfold precision_recall in Hp. cbn [snd] in Hp.
  rewrite lookup_zip_with, Hct in Hp. cbn [mbind option_bind] in Hp.
  rewrite list_lookup_fmap, lookup_zip_with, Hct in Hp. cbn [mbind option_bind] in Hp.
  rewrite Hcf in Hp. cbn [mbind option_bind fmap option_fmap option_map] in Hp.
  rewrite Hmax in Hp. injection Hp as <-.
  change (div ct (add ct cf)) with (ct / (ct + cf)).
  split.
  - apply Qle_shift_div_l; lra.
  - apply Qle_shift_div_r; lra.
Qed.

Lemma recall_marked (tp fp : list Q) (npos : Z) :
  marked_once tp fp → (0 < npos)%Z → Qsum tp <= inject_Z npos →
  Forall unit_interval (precision_recall tp fp npos).1 ∧
  non_decreasing (precision_recall tp fp npos).1.
Proof.
  intros Hm Hpos Hsum.
  destruct (marked_once_nonneg tp fp Hm) as [Ht _].
  destruct (cumsum_bounds tp Ht) as [Hb Hnd].
  assert (0 < inject_Z npos) as Hq.
  { change 0 with (inject_Z 0). by rewrite <- Zlt_Qlt. }
  unfold precision_recall. cbn [fst]. split.
  - apply Forall_lookup. intros i r Hr.
    rewrite list_lookup_fmap in Hr.
    destruct (cumsum tp !! i) as [c|] eqn:Hc; [|done].
    simpl in Hr. injection Hr as <-. apply Hb in Hc.
    change (div c (of_Z npos)) with (c / inject_Z npos). split.
    + apply Qle_shift_div_l; lra.
    + apply Qle_shift_div_r; lra.
  - apply (non_decreasing_scale _ (inject_Z npos)); [lra|done].
Qed.
End curve_facts.

Section evaluator_bounds.
Context {Box : Type}.
Variable get_iou_cc : Box → Box → Q.
Local Open Scope Q_scope.

Lemma eval_det_cls_v_unit (pv : list (img_id * list (Box * Q)))
    (gv : list (img_id * list Box)) (ovthresh : Q) (use_07_metric : bool) :
  gv ≫= snd ≠ [] →
  ∃ rec prec ap,
    eval_det_cls_v get_iou_cc pv gv ovthresh use_07_metric = Ok (rec, prec, ap) ∧
    Forall unit_interval rec ∧ non_decreasing rec ∧
    Forall unit_interval prec ∧ unit_interval ap.
Proof.
  intros Hgv.
  destruct (eval_det_cls_v_sorted pv)
    as (image_ids & BB & Hids & HBB & _ & _ & Hnd & Hlen & Hkeys).
  set (recs0 := pad_empty_v pv gv (construct_gt_v gv).1).
  set (nd := length image_ids).
  destruct (eval_det_cls_v_run get_iou_cc pv gv ovthresh use_07_metric
              (λ d recs st,
                 (d ≤ nd)%nat ∧ marked_upto nd d (tp st) (fp st) ∧
                 Qsum (tp st) + inject_Z (Z.of_nat (unmatched recs))
                 == inject_Z (Z.of_nat (unmatched recs0)))
              image_ids BB Hids HBB Hlen Hkeys)
    as (recs' & st' & ap & (_ & Hmarked & Hcount) & Htp & Hfp & Hap & Hrun).
  - intros d recs st img bb R Hd Hb HR HRl (Hdn & Hm & Hc) Htp Hfp scan.
    apply lookup_lt_Some in Hd as Hdlt. fold nd in Hdlt.
    split; [|intros j g Hj Hlt Hs; split].
    + intros _. split_and!; [lia|by apply marked_upto_fp|done].
    + intros _. split_and!; [lia|by apply marked_upto_fp|done].
    + intros Hflag. split_and!; [lia|by apply marked_upto_tp|].
      cbn [tp]. destruct Hm as [_ Hhi].
      destruct (Hhi d ltac:(lia)) as [Htd _].
      rewrite (Qsum_insert _ _ _ _ Htd).
      rewrite (unmatched_claim recs img R j HR Hflag) in Hc.
      rewrite Nat2Z.inj_succ, <- Z.add_1_r, inject_Z_plus in Hc.
      change (inject_Z 1) with 1 in Hc. change (lit_0 (F:=Q)) with 0.
      change (lit_1 (F:=Q)) with 1. lra.
  - split_and!; [lia|apply marked_upto_start|].
    cbn [tp].
    rewrite Qsum_zeros. subst recs0. lra.
  - apply marked_upto_end in Hmarked; [|done..].
    assert (0 < (construct_gt_v gv).2)%Z as Hpos.
    { rewrite construct_gt_v_npos. destruct (gv ≫= snd); [done|]. simpl. lia. }
    assert (Qsum (tp st') <= inject_Z (construct_gt_v gv).2) as Hsum.
    { pose proof (construct_gt_v_unmatched gv) as H1.
      pose proof (pad_empty_v_unmatched pv gv (construct_gt_v gv).1) as H2.
      fold recs0 in H2.
      assert (0 <= inject_Z (Z.of_nat (unmatched recs'))) as H3.
      { change 0 with (inject_Z 0). rewrite <- Zle_Qle. lia. }
      assert (inject_Z (Z.of_nat (unmatched recs0))
              <= inject_Z (construct_gt_v gv).2) as H4.
      { rewrite <- Zle_Qle. lia. }
      lra. }
    destruct (recall_marked (tp st') (fp st') _ Hmarked Hpos Hsum) as [Hr1 Hr2].
    pose proof (precision_marked (tp st') (fp st') (construct_gt_v gv).2 Hmarked)
      as Hp.
    destruct (precision_recall_lengths (tp st') (fp st') (construct_gt_v gv).2)
      as [Hl1 Hl2]; [lia|].
    assert (length (precision_recall (tp st') (fp st') (construct_gt_v gv).2).1
            = length (precision_recall (tp st') (fp st') (construct_gt_v gv).2).2)
      as Hl by lia.
    destruct (voc_ap_unit_Q _ _ use_07_metric Hl Hr1 Hr2 Hp)
      as (ap' & Hap' & Hunit).
    cbv zeta in Hap, Hrun. rewrite Hap' in Hap. injection Hap as <-.
    eexists _, _, ap'. split; [exact Hrun|]. done.
Qed.
End evaluator_bounds.
(** X1.  On a prediction map and a ground-truth map of the documented
    shapes, [eval_det_cls] raises no exception, in either mode and whatever
    numbers the IoU function returns (a NaN included): it returns [rec],
    [prec] and [ap], and [rec] and [prec] have one entry per prediction. *)
Theorem eval_det_cls_returns {F : Type} `{Scalar F} {Box : Type}
    (get_iou_cc : Box → Box → F) (pred gt : loc) (ovthresh : F)
    (use_07_metric : bool) (pv : list (img_id * list (Box * F)))
    (gv : list (img_id * list Box)) (h : heap F Box) :
  holds_pred h pred pv → holds_gt h gt gv →
  ∃ rec prec ap,
    (eval_det_cls get_iou_cc pred gt ovthresh use_07_metric h).1
    = Ok (rec, prec, ap) ∧
    length rec = length (pv ≫= snd) ∧ length prec = length (pv ≫= snd).
Proof.
  intros Hp Hg.
  rewrite (eval_det_cls_sim get_iou_cc pred gt ovthresh use_07_metric pv gv h Hp Hg).
  apply eval_det_cls_v_Ok.
Qed.

Lemma eval_det_cls_returns_witness :
  ∃ rec prec ap,
    (eval_det_cls (F:=float) iou_one 1%positive 2%positive
                  (div (of_Z 1) (of_Z 4)) true scenario_B).1
    = Ok (rec, prec, ap) ∧
    length rec = 2%nat ∧ length prec = 2%nat.
Proof.
  apply (eval_det_cls_returns (F:=float) iou_one 1%positive 2%positive
           (div (of_Z 1) (of_Z 4)) true
           [(0%nat, [(7%nat, div (of_Z 9) (of_Z 10));
                     (7%nat, div (of_Z 5) (of_Z 10))])]
           [(0%nat, [7%nat])] scenario_B); apply scenario_B_holds.
Defined.

(** X2.  In exact arithmetic, when the ground truth of the class has at
    least one box, the recall [eval_det_cls] returns never decreases and
    stays within [0,1] (no box is counted twice), the precision stays
    within [0,1], and so does the average precision, in both modes. *)
Theorem eval_det_cls_unit_interval {Box : Type} (get_iou_cc : Box → Box → Q)
    (pred gt : loc) (ovthresh : Q) (use_07_metric : bool)
    (pv : list (img_id * list (Box * Q))) (gv : list (img_id * list Box))
    (h : heap Q Box) :
  holds_pred h pred pv → holds_gt h gt gv → gv ≫= snd ≠ [] →
  ∃ rec prec ap,
    (eval_det_cls get_iou_cc pred gt ovthresh use_07_metric h).1
    = Ok (rec, prec, ap) ∧
    Forall unit_interval rec ∧ non_decreasing rec ∧
    Forall unit_interval prec ∧ unit_interval ap.
Proof.
  intros Hp Hg Hne.
  rewrite (eval_det_cls_sim get_iou_cc pred gt ovthresh use_07_metric pv gv h Hp Hg).
  by apply eval_det_cls_v_unit.
Qed.

Lemma eval_det_cls_unit_interval_witness :
  ∃ rec prec ap,
    (eval_det_cls (F:=Q) iou_one 1%positive 2%positive
                  (div (of_Z 1) (of_Z 4)) false scenario_B).1
    = Ok (rec, prec, ap) ∧
    Forall unit_interval rec ∧ non_decreasing rec ∧
    Forall unit_interval prec ∧ unit_interval ap.
Proof.
  apply (eval_det_cls_unit_interval iou_one 1%positive 2%positive
           (div (of_Z 1) (of_Z 4)) false
           [(0%nat, [(7%nat, div (of_Z 9) (of_Z 10));
                     (7%nat, div (of_Z 5) (of_Z 10))])]
           [(0%nat, [7%nat])] scenario_B);
    [apply scenario_B_holds|apply scenario_B_holds|discriminate].
Defined.
Section nan_facts.
Local Open Scope float_scope.

Lemma float_add_nan_l (y : float) : nan + y = nan.
Proof.
  rewrite <- (FloatAxioms.SF2Prim_Prim2SF (nan + y)), FloatAxioms.add_spec.
  change (Prim2SF nan) with S754_nan. reflexivity.
Qed.

Lemma float_mul_nan_l (y : float) : nan * y = nan.
Proof.
  rewrite <- (FloatAxioms.SF2Prim_Prim2SF (nan * y)), FloatAxioms.mul_spec.
  change (Prim2SF nan) with S754_nan. reflexivity.
Qed.

Lemma float_leb_nan_r (t : float) : (t <=? nan) = false.
Proof.
  rewrite FloatAxioms.leb_spec. change (Prim2SF nan) with S754_nan.
  unfold SFleb. by destruct (Prim2SF t).
Qed.

Lemma np_sum_nan (terms : list float) : fold_left PrimFloat.add terms nan = nan.
Proof.
  induction terms as [|t terms IH]; simpl; [done|].
  by rewrite float_add_nan_l.
Qed.

Lemma cumsum_from_zeros (n : nat) :
  cumsum_from (F:=float) 0 (replicate n 0) = replicate n 0.
Proof. induction n as [|n IH]; simpl; [done|]. by rewrite IH. Qed.

Lemma cumsum_zeros (n : nat) : cumsum (F:=float) (replicate n 0) = replicate n 0.
Proof. destruct n; simpl; [done|]. by rewrite cumsum_from_zeros. Qed.

Lemma recall_no_boxes (n : nat) (fp : list float) :
  (precision_recall (F:=float) (replicate n lit_0) fp 0).1 = replicate n nan.
Proof.
  unfold precision_recall. cbn [fst].
  change (lit_0 (F:=float)) with 0. rewrite cumsum_zeros.
  induction n as [|n IH]; [done|].
  change (replicate (S n) 0) with (0 :: replicate n 0).
  rewrite fmap_cons, IH. done.
Qed.

Lemma voc_ap_07_step_nan (rec prec : list float) (t : float) :
  Forall (λ r, r = nan) rec → voc_ap_07_step rec prec 0 t = Ok 0.
Proof.
  intros Hrec. unfold voc_ap_07_step. cbv zeta.
  assert (count_true ((λ r, leb t r) <$> rec) = 0%nat) as ->; [|done].
  unfold count_true. induction Hrec as [|r rec -> _ IHrec]; [done|].
  rewrite fmap_cons. simpl leb. rewrite float_leb_nan_r.
  by rewrite filter_cons_False by done.
Qed.

Lemma voc_ap_07_nan (rec prec ts : list float) :
  Forall (λ r, r = nan) rec →
  foldM (voc_ap_07_step rec prec) 0 ts = Ok 0.
Proof.
  intros Hrec. induction ts as [|t ts IH]; [done|].
  by rewrite foldM_cons, voc_ap_07_step_nan, result_bind_Ok.
Qed.

Lemma voc_ap_exact_nan (rec prec : list float) :
  length (nan :: rec) = length prec →
  voc_ap_exact (nan :: rec) prec = Ok nan.
Proof.
  intros Hlen. unfold voc_ap_exact.
  destruct (envelope_fold (λ _, True)
              (range_down (length ([lit_0] ++ prec ++ [lit_0]) - 1))
              ([lit_0] ++ prec ++ [lit_0]))
    as (mpre & -> & Hl & _).
  { done. }
  { by apply Forall_forall. }
  { simpl. rewrite Nat.sub_0_r. apply range_down_bounds. }
  rewrite result_bind_Ok.
  set (mrec := [lit_0] ++ (nan :: rec) ++ [lit_1]).
  destruct (area_terms_Ok mrec mpre (where_ne (tail mrec) (removelast mrec)))
    as (terms & -> & HF).
  { eapply Forall_impl; [apply where_ne_bounds|]. simpl. intros i Hi.
    split; [done|]. rewrite Hl. subst mrec. simpl in *.
    rewrite !length_app in *. simpl in *. lia. }
  rewrite result_bind_Ok. f_equal.
  assert (∃ ind, where_ne (tail mrec) (removelast mrec) = 0%nat :: ind)
    as [ind Hind].
  { subst mrec. destruct rec; simpl; by eexists. }
  rewrite Hind in HF. apply Forall2_cons_inv_l in HF
    as (t0 & terms' & (a & b & c & Ha & Hb & Hc & ->) & _ & ->).
  subst mrec. simpl in Ha, Hb. simplify_eq.
  unfold np_sum. simpl.
  change (sub nan lit_0) with nan. rewrite float_mul_nan_l.
  change (lit_0 + nan) with nan. apply np_sum_nan.
Qed.
End nan_facts.
Lemma scenario_no_boxes_holds {F : Type} `{Scalar F} :
  holds_pred (scenario_no_boxes (F:=F)) 1%positive
    [(0%nat, [(7%nat, div (of_Z 9) (of_Z 10))])] ∧
  holds_gt (scenario_no_boxes (F:=F)) 2%positive [(0%nat, [])].
Proof.
  split.
  - exists [(0%nat, 3%positive)]. split_and!; [done| |].
    + apply NoDup_singleton.
    + repeat constructor.
  - exists [(0%nat, 4%positive)]. split_and!; [done| |].
    + apply NoDup_singleton.
    + repeat constructor.
Qed.

Section no_boxes.
Context {Box : Type}.
Variable get_iou_cc : Box → Box → float.

Lemma eval_det_cls_v_no_boxes (pv : list (img_id * list (Box * float)))
    (gv : list (img_id * list Box)) (ovthresh : float) (use_07_metric : bool) :
  gv ≫= snd = [] →
  ∃ prec ap,
    eval_det_cls_v get_iou_cc pv gv ovthresh use_07_metric
    = Ok (replicate (length (pv ≫= snd)) nan, prec, ap) ∧
    (use_07_metric = true → ap = 0%float) ∧
    (use_07_metric = false → pv ≫= snd ≠ [] → ap = nan).
Proof.
  intros Hgv.
  destruct (eval_det_cls_v_sorted pv)
    as (image_ids & BB & Hids & HBB & _ & _ & Hnd & Hlen & Hkeys).
  set (nd := length image_ids).
  destruct (eval_det_cls_v_run get_iou_cc pv gv ovthresh use_07_metric
              (λ d recs st,
                 map_Forall (λ _ v, v.1 = []) recs ∧
                 tp st = replicate nd lit_0)
              image_ids BB Hids HBB Hlen Hkeys)
    as (recs' & st' & ap & (_ & Htp0) & Htp & Hfp & Hap & Hrun).
  - intros d recs st img bb R Hd Hb HR HRl (Hm & Ht) Htp Hfp scan.
    split; [done|]. intros j g Hj. apply Hm in HR. simpl in HR.
    by rewrite HR in Hj.
  - split; [|done].
    apply (pad_empty_v_inv (map_Forall (λ _ v, v.1 = []))).
    + apply (construct_gt_v_inv (λ m _, map_Forall (λ _ v, v.1 = []) m)).
      * apply map_Forall_empty.
      * intros m z e He Hm. apply map_Forall_insert_2; [|done]. simpl.
        destruct e.2 as [|b l] eqn:E; [done|].
        assert (b ∈ gv ≫= snd) as Hin.
        { apply list_elem_of_bind. exists e. split; [|done]. rewrite E. left. }
        rewrite Hgv in Hin. by apply elem_of_nil in Hin.
    + intros m e _ _ Hm. by apply map_Forall_insert_2.
  - cbv zeta in Hap, Hrun.
    assert ((construct_gt_v gv).2 = 0%Z) as Hnpos.
    { by rewrite construct_gt_v_npos, Hgv. }
    rewrite Hnpos, Htp0 in Hap, Hrun.
    rewrite recall_no_boxes in Hap, Hrun. fold nd in Hnd. rewrite <- Hnd.
    eexists _, ap. split; [exact Hrun|]. split.
    + intros ->. unfold voc_ap, voc_ap_07 in Hap.
      rewrite voc_ap_07_nan in Hap; [by injection Hap|].
      apply Forall_forall. intros r Hr. by apply elem_of_replicate in Hr as [-> _].
    + intros -> Hne. unfold voc_ap in Hap.
      destruct nd as [|n] eqn:En.
      { destruct (pv ≫= snd); [done|]. simpl in Hnd. lia. }
      change (replicate (S n) nan) with (nan :: replicate n nan) in Hap.
      rewrite voc_ap_exact_nan in Hap; [by injection Hap|].
      destruct (precision_recall_lengths (replicate (S n) (lit_0 (F:=float)))
                  (fp st') 0) as [_ Hl2].
      { rewrite length_replicate. lia. }
      rewrite Hl2. simpl. by rewrite !length_replicate.
Qed.
End no_boxes.

(** X3.  In binary64, when the ground truth of the class holds no box
    ([npos] is 0), every recall [eval_det_cls] returns is a NaN (0/0); the
    11-point average precision is then 0.0, and the exact one is a NaN as
    soon as there is a prediction. *)
Theorem eval_det_cls_no_boxes {Box : Type} (get_iou_cc : Box → Box → float)
    (pred gt : loc) (ovthresh : float) (use_07_metric : bool)
    (pv : list (img_id * list (Box * float))) (gv : list (img_id * list Box))
    (h : heap float Box) :
  holds_pred h pred pv → holds_gt h gt gv → gv ≫= snd = [] →
  ∃ prec ap,
    (eval_det_cls get_iou_cc pred gt ovthresh use_07_metric h).1
    = Ok (replicate (length (pv ≫= snd)) nan, prec, ap) ∧
    (use_07_metric = true → ap = 0%float) ∧
    (use_07_metric = false → pv ≫= snd ≠ [] → ap = nan).
Proof.
  intros Hp Hg Hgv.
  rewrite (eval_det_cls_sim get_iou_cc pred gt ovthresh use_07_metric pv gv h Hp Hg).
  by apply eval_det_cls_v_no_boxes.
Qed.

Lemma eval_det_cls_no_boxes_witness :
  ∃ prec ap,
    (eval_det_cls (F:=float) iou_one 1%positive 2%positive
                  (div (of_Z 1) (of_Z 4)) false scenario_no_boxes).1
    = Ok ([nan], prec, ap) ∧
    (false = true → ap = 0%float) ∧
    (false = false → [(7%nat, div (F:=float) (of_Z 9) (of_Z 10))] ≠ [] → ap = nan).
Proof.
  apply (eval_det_cls_no_boxes iou_one 1%positive 2%positive
           (div (of_Z 1) (of_Z 4)) false
           [(0%nat, [(7%nat, div (of_Z 9) (of_Z 10))])]
           [(0%nat, [])] scenario_no_boxes);
    [apply scenario_no_boxes_holds|apply scenario_no_boxes_holds|reflexivity].
Defined.

(* ===================================================================== *)
(** ** The driver, class by class *)
(* ===================================================================== *)

Section driver_values.
Context {F : Type} `{Scalar F} {Box : Type}.
Variable get_iou_cc : Box → Box → F.

Lemma run_class_getitem (l : loc) (d : list (string * loc)) (k : string)
    (v : loc) (h : heap F Box) :
  h !! l = Some (OClassDict d) → assoc k d = Some v →
  class_getitem l k h = (Ok v, h).
Proof.
  intros Hl Hk. unfold class_getitem.
  rewrite (run_bind_Ok _ _ _ _ _ (run_read_class_dict _ _ _ Hl)).
  unfold lift. by rewrite Hk.
Qed.

Lemma eval_det_loop_values (pred_all gt_all : loc) (ovthresh : F)
    (use_07_metric : bool) (h0 : heap F Box) (dp dg : list (string * loc))
    (ds : list (string * loc))
    (cvs : list (string * (list (img_id * list (Box * F)) *
                           list (img_id * list Box)))) :
  h0 !! pred_all = Some (OClassDict dp) →
  h0 !! gt_all = Some (OClassDict dg) →
  NoDup dg.*1 →
  Forall2 (λ e v, e.1 = v.1 ∧
                  ∃ p, assoc e.1 dp = Some p ∧
                       holds_pred h0 p v.2.1 ∧ holds_gt h0 e.2 v.2.2) ds cvs →
  NoDup ds.*1 → (∀ e, e ∈ ds → e ∈ dg) →
  ∀ acc h, h0 ⊆ h →
    ∃ acc' h',
      foldM (eval_det_step get_iou_cc pred_all gt_all ovthresh use_07_metric)
            acc ds.*1 h = (Ok acc', h') ∧
      (∀ c, c ∉ ds.*1 →
            acc'.1.1 !! c = acc.1.1 !! c ∧ acc'.1.2 !! c = acc.1.2 !! c ∧
            acc'.2 !! c = acc.2 !! c) ∧
      (∀ v, v ∈ cvs →
            ∃ rec prec ap,
              eval_det_cls_v get_iou_cc v.2.1 v.2.2 ovthresh use_07_metric
              = Ok (rec, prec, ap) ∧
              acc'.1.1 !! v.1 = Some rec ∧ acc'.1.2 !! v.1 = Some prec ∧
              acc'.2 !! v.1 = Some ap).
Proof.
  intros Hpa Hga Hnd HF. 
  induction HF as [|e v ds cvs (Hev & p & Hp & Hhp & Hhg) HF IH];
    intros Hnds Hin acc h Hsub.
  - exists acc, h. split_and!; [done|done|]. intros v Hv.
    by apply elem_of_nil in Hv.
  - rewrite fmap_cons in Hnds. apply NoDup_cons in Hnds as [Hfresh Hnds].
    rewrite fmap_cons, run_foldM_cons.
    unfold eval_det_step at 1. destruct acc as [[rec prec] ap].
    rewrite (run_bind_Ok _ _ _ _ _
               (run_class_getitem pred_all dp e.1 p h
                  (lookup_weaken _ _ _ _ Hpa Hsub) Hp)).
    assert (assoc e.1 dg = Some e.2) as Hg.
    { apply assoc_NoDup; [done|]. apply Hin. left. }
    rewrite (run_bind_Ok _ _ _ _ _
               (run_class_getitem gt_all dg e.1 e.2 h
                  (lookup_weaken _ _ _ _ Hga Hsub) Hg)).
    rewrite run_bind.
    pose proof (eval_det_cls_frame get_iou_cc p e.2 ovthresh use_07_metric h)
      as Hframe.
    pose proof (eval_det_cls_sim get_iou_cc p e.2 ovthresh use_07_metric
                  v.2.1 v.2.2 h (holds_pred_weaken _ _ _ _ Hsub Hhp)
                  (holds_gt_weaken _ _ _ _ Hsub Hhg)) as Hsim.
    destruct (eval_det_cls_v_Ok get_iou_cc v.2.1 v.2.2 ovthresh use_07_metric)
      as (r1 & p1 & a1 & Hv & _).
    rewrite Hv in Hsim.
    destruct (eval_det_cls get_iou_cc p e.2 ovthresh use_07_metric h)
      as [res h1]. simpl in Hsim, Hframe. subst res.
    unfold mret, M_ret. cbn [fst snd].
    destruct (IH Hnds (λ e' He', Hin e' (list_elem_of_further _ _ _ He'))
                (<[e.1 := r1]> rec, <[e.1 := p1]> prec, <[e.1 := a1]> ap) h1)
      as (acc' & h' & Hloop & Hout & Hin').
    { by etrans. }
    exists acc', h'. split_and!; [done| |].
    + intros c Hc. apply not_elem_of_cons in Hc as [Hce Hc].
      destruct (Hout c Hc) as (H1 & H2 & H3). cbn [fst snd] in *.
      by rewrite H1, H2, H3, !lookup_insert_ne.
    + intros v' Hv'. apply elem_of_cons in Hv' as [->|Hv']; [|by apply Hin'].
      exists r1, p1, a1. split; [done|].
      destruct (Hout e.1 Hfresh) as (H1 & H2 & H3). cbn [fst snd] in *.
      by rewrite <- Hev, H1, H2, H3, !lookup_insert_eq.
Qed.
End driver_values.

Section driver_entries.
Context {F : Type} `{Scalar F} {Box : Type}.
Variable get_iou_cc : Box → Box → F.
Variable report :
  string → gmap string (list F) * gmap string (list F) * gmap string F →
  result unit.

Lemma run_foldM_app {S A} (body : S → A → @M F Box S) (s : S) (l k : list A)
    (h : heap F Box) :
  foldM body s (l ++ k) h
  = match foldM body s l h with
    | (Ok s', h') => foldM body s' k h'
    | (Raise e, h') => (Raise e, h')
    end.
Proof.
  revert s h. induction l as [|x l IH]; intros s h; [done|].
  rewrite <- app_comm_cons, !run_foldM_cons.
  destruct (body s x h) as [[s'|e] h']; [apply IH|done].
Qed.

(** One round of the loop over the classes: [pred_all[classname]] is looked
    up first; without an entry the round raises KeyError there, and only
    with an entry [p] is the per-class evaluator called, on [p]. *)
Lemma eval_det_step_entry (pred_all gt_all : loc) (ovthresh : F)
    (use_07_metric : bool)
    (acc : gmap string (list F) * gmap string (list F) * gmap string F)
    (c : string) (h : heap F Box) (dp : list (string * loc)) :
  h !! pred_all = Some (OClassDict dp) →
  eval_det_step get_iou_cc pred_all gt_all ovthresh use_07_metric acc c h
  = match assoc c dp with
    | None => (Raise KeyError, h)
    | Some p =>
        (g ← class_getitem gt_all c;
         r ← eval_det_cls get_iou_cc p g ovthresh use_07_metric;
         mret (<[c := r.1.1]> acc.1.1, <[c := r.1.2]> acc.1.2,
               <[c := r.2]> acc.2)) h
    end.
Proof.
  intros Hp. unfold eval_det_step. destruct acc as [[rec prec] ap].
  destruct (assoc c dp) as [p|] eqn:Hc.
  - by rewrite (run_bind_Ok _ _ _ _ _ (run_class_getitem pred_all dp c p h Hp Hc)).
  - by rewrite (run_bind_Raise _ _ _ _ _
                  (run_class_getitem_missing pred_all dp c h Hp Hc)).
Qed.

(** The driver on a ground truth whose classes before [c] have entries of
    the documented shapes, and [c] has no entry in the prediction map: the
    classes before [c] are evaluated, then the driver raises KeyError, in
    the store those evaluations left. *)
Lemma eval_det_first_missing (pred_all gt_all : loc) (ovthresh : F)
    (use_07_metric : bool) (result_dir : option string) (h : heap F Box)
    (dp dg1 dg2 : list (string * loc)) (c : string) (g : loc)
    (cv1 : list (string * (list (img_id * list (Box * F)) *
                           list (img_id * list Box)))) :
  h !! pred_all = Some (OClassDict dp) →
  h !! gt_all = Some (OClassDict (dg1 ++ (c, g) :: dg2)) →
  NoDup (dg1 ++ (c, g) :: dg2).*1 →
  Forall2 (λ e v, e.1 = v.1 ∧
                  ∃ p, assoc e.1 dp = Some p ∧
                       holds_pred h p v.2.1 ∧ holds_gt h e.2 v.2.2) dg1 cv1 →
  assoc c dp = None →
  ∃ acc h1,
    foldM (eval_det_step get_iou_cc pred_all gt_all ovthresh use_07_metric)
          (∅, ∅, ∅) dg1.*1 h = (Ok acc, h1) ∧
    (∀ v, v ∈ cv1 →
          ∃ rec prec ap,
            eval_det_cls_v get_iou_cc v.2.1 v.2.2 ovthresh use_07_metric
            = Ok (rec, prec, ap) ∧
            acc.1.1 !! v.1 = Some rec ∧ acc.1.2 !! v.1 = Some prec ∧
            acc.2 !! v.1 = Some ap) ∧
    eval_det get_iou_cc report pred_all gt_all ovthresh use_07_metric
             result_dir h = (Raise KeyError, h1).
Proof.
  intros Hpa Hga Hnd HF Hc.
  assert (NoDup dg1.*1) as Hnd1.
  { rewrite fmap_app in Hnd. by apply NoDup_app in Hnd as [? _]. }
  destruct (eval_det_loop_values get_iou_cc pred_all gt_all ovthresh
              use_07_metric h dp _ dg1 cv1 Hpa Hga Hnd HF Hnd1
              (λ e He, proj2 (elem_of_app _ _ _) (or_introl He))
              (∅, ∅, ∅) h) as (acc & h1 & Hloop & _ & Hin); [done|].
  exists acc, h1. split_and!; [done|done|].
  assert (h ⊆ h1) as Hsub.
  { pose proof (foldM_frame
                  (eval_det_step get_iou_cc pred_all gt_all ovthresh
                     use_07_metric)
                  (λ _, True) h dg1.*1 (∅, ∅, ∅) h) as [Hf _]; [|done|done|].
    { intros s x h2 Hh2 _. split; [|done].
      etrans; [exact Hh2|]. apply eval_det_step_frame. }
    by rewrite Hloop in Hf. }
  unfold eval_det.
  rewrite (run_bind_Ok _ _ _ _ _ (run_class_keys _ _ _ Hga)).
  rewrite fmap_app, fmap_cons. cbn [fst].
  apply run_bind_Raise.
  rewrite run_foldM_app, Hloop, run_foldM_cons.
  by rewrite (eval_det_step_entry pred_all gt_all ovthresh use_07_metric acc c
                h1 dp (lookup_weaken _ _ _ _ Hpa Hsub)), Hc.
Qed.
End driver_entries.

(** C1, the claim as stated, fails: with ground truth for the class "chair"
    and a prediction map without that key, [pred_all[classname]] raises
    KeyError and the driver returns nothing; the store is as it was, no
    evaluator has run.  In binary64 and in exact arithmetic. *)
Lemma eval_det_no_entry_raises :
  eval_det (F:=float) iou_one (λ _ _, Ok ()) 1%positive 2%positive
           (div (of_Z 1) (of_Z 4)) false (Some "out"%string) scenario_no_entry
  = (Raise KeyError, scenario_no_entry) ∧
  eval_det (F:=Q) iou_one (λ _ _, Ok ()) 1%positive 2%positive
           (div (of_Z 1) (of_Z 4)) false (Some "out"%string) scenario_no_entry
  = (Raise KeyError, scenario_no_entry).
Proof. split; reflexivity. Qed.

(** C1, as amended.  In each round of its loop over the classes of the
    ground truth the driver looks up [pred_all[classname]] first: without
    an entry the round raises KeyError and leaves the store as it found it,
    and only with an entry is the per-class evaluator invoked, on that
    entry.  So on inputs of the documented shapes whose first class without
    an entry is [c], the driver evaluates the classes before [c] and then
    raises KeyError, in the store those evaluations left, and returns no
    result; and whatever the shapes, a class without an entry makes the
    driver raise.  The per-class evaluator, given an empty prediction map
    and a ground-truth map, returns empty recall and precision and AP 0, in
    both modes, in binary64 and in exact arithmetic. *)
Theorem eval_det_prediction_entries :
  (∀ (F : Type) `(Scalar F) (Box : Type) (get_iou_cc : Box → Box → F)
     (pred_all gt_all : loc) (ovthresh : F) (use_07_metric : bool)
     (acc : gmap string (list F) * gmap string (list F) * gmap string F)
     (c : string) (h : heap F Box) (dp : list (string * loc)),
     h !! pred_all = Some (OClassDict dp) →
     eval_det_step get_iou_cc pred_all gt_all ovthresh use_07_metric acc c h
     = match assoc c dp with
       | None => (Raise KeyError, h)
       | Some p =>
           (g ← class_getitem gt_all c;
            r ← eval_det_cls get_iou_cc p g ovthresh use_07_metric;
            mret (<[c := r.1.1]> acc.1.1, <[c := r.1.2]> acc.1.2,
                  <[c := r.2]> acc.2)) h
       end) ∧
  (∀ (F : Type) `(Scalar F) (Box : Type) (get_iou_cc : Box → Box → F)
     (report : string →
               gmap string (list F) * gmap string (list F) * gmap string F →
               result unit)
     (pred_all gt_all : loc) (ovthresh : F) (use_07_metric : bool)
     (result_dir : option string) (h : heap F Box)
     (dp dg1 dg2 : list (string * loc)) (c : string) (g : loc)
     (cv1 : list (string * (list (img_id * list (Box * F)) *
                            list (img_id * list Box)))),
     h !! pred_all = Some (OClassDict dp) →
     h !! gt_all = Some (OClassDict (dg1 ++ (c, g) :: dg2)) →
     NoDup (dg1 ++ (c, g) :: dg2).*1 →
     Forall2 (λ e v, e.1 = v.1 ∧
                     ∃ p, assoc e.1 dp = Some p ∧
                          holds_pred h p v.2.1 ∧ holds_gt h e.2 v.2.2)
             dg1 cv1 →
     assoc c dp = None →
     ∃ acc h1,
       foldM (eval_det_step get_iou_cc pred_all gt_all ovthresh use_07_metric)
             (∅, ∅, ∅) dg1.*1 h = (Ok acc, h1) ∧
       (∀ v, v ∈ cv1 →
             ∃ rec prec ap,
               eval_det_cls_v get_iou_cc v.2.1 v.2.2 ovthresh use_07_metric
               = Ok (rec, prec, ap) ∧
               acc.1.1 !! v.1 = Some rec ∧ acc.1.2 !! v.1 = Some prec ∧
               acc.2 !! v.1 = Some ap) ∧
       eval_det get_iou_cc report pred_all gt_all ovthresh use_07_metric
                result_dir h = (Raise KeyError, h1)) ∧
  (∀ (F : Type) `(Scalar F) (Box : Type) (get_iou_cc : Box → Box → F)
     (report : string →
               gmap string (list F) * gmap string (list F) * gmap string F →
               result unit)
     (pred_all gt_all : loc) (ovthresh : F) (use_07_metric : bool)
     (result_dir : option string) (h : heap F Box)
     (dp dg : list (string * loc)) (c : string),
     h !! pred_all = Some (OClassDict dp) →
     h !! gt_all = Some (OClassDict dg) →
     c ∈ dg.*1 → assoc c dp = None →
     ∃ e, (eval_det get_iou_cc report pred_all gt_all ovthresh use_07_metric
             result_dir h).1 = Raise e) ∧
  (∀ (Box : Type) (get_iou_cc : Box → Box → float) (pred gt : loc)
     (ovthresh : float) (use_07_metric : bool) (h : heap float Box)
     (gv : list (img_id * list Box)),
     holds_pred h pred [] → holds_gt h gt gv →
     (eval_det_cls get_iou_cc pred gt ovthresh use_07_metric h).1
     = Ok ([], [], 0%float)) ∧
  (∀ (Box : Type) (get_iou_cc : Box → Box → Q) (pred gt : loc)
     (ovthresh : Q) (use_07_metric : bool) (h : heap Q Box)
     (gv : list (img_id * list Box)),
     holds_pred h pred [] → holds_gt h gt gv →
     ∃ ap, (eval_det_cls get_iou_cc pred gt ovthresh use_07_metric h).1
           = Ok ([], [], ap) ∧ (ap == 0)%Q).
Proof.
  split_and!.
  - intros. by apply eval_det_step_entry.
  - intros. by eapply eval_det_first_missing.
  - intros. by eapply eval_det_missing.
  - intros Box get_iou_cc pred gt ovthresh use_07_metric h gv Hpred Hgt.
    rewrite (eval_det_cls_sim get_iou_cc pred gt ovthresh use_07_metric [] gv h)
      by done.
    rewrite eval_det_cls_v_no_pred. by destruct use_07_metric.
  - intros Box get_iou_cc pred gt ovthresh use_07_metric h gv Hpred Hgt.
    rewrite (eval_det_cls_sim get_iou_cc pred gt ovthresh use_07_metric [] gv h)
      by done.
    rewrite eval_det_cls_v_no_pred.
    destruct use_07_metric; eexists; (split; [vm_compute; reflexivity|done]).
Qed.

Lemma eval_det_prediction_entries_witness :
  ∃ acc h1,
    foldM (eval_det_step (F:=float) iou_one 1%positive 2%positive
             (div (of_Z 1) (of_Z 4)) false)
          (∅, ∅, ∅) ["chair"%string] scenario_later_entry = (Ok acc, h1) ∧
    (∀ v, v ∈ [("chair"%string,
                ([(0%nat, [(7%nat, div (of_Z 9) (of_Z 10));
                           (7%nat, div (of_Z 5) (of_Z 10))])],
                 [(0%nat, [7%nat])]))] →
          ∃ rec prec ap,
            eval_det_cls_v iou_one v.2.1 v.2.2 (div (of_Z 1) (of_Z 4)) false
            = Ok (rec, prec, ap) ∧
            acc.1.1 !! v.1 = Some rec ∧ acc.1.2 !! v.1 = Some prec ∧
            acc.2 !! v.1 = Some ap) ∧
    eval_det (F:=float) iou_one (λ _ _, Ok ()) 1%positive 2%positive
             (div (of_Z 1) (of_Z 4)) false (Some "out"%string)
             scenario_later_entry = (Raise KeyError, h1).
Proof.
  apply (proj1 (proj2 eval_det_prediction_entries) float _ nat iou_one
           (λ _ _, Ok ()) 1%positive 2%positive (div (of_Z 1) (of_Z 4)) false
           (Some "out"%string) scenario_later_entry
           [("chair"%string, 3%positive)] [("chair"%string, 4%positive)] []
           "table"%string 4%positive
           [("chair"%string,
             ([(0%nat, [(7%nat, div (of_Z 9) (of_Z 10));
                        (7%nat, div (of_Z 5) (of_Z 10))])],
              [(0%nat, [7%nat])]))]).
  - reflexivity.
  - reflexivity.
  - apply NoDup_cons. split; [|apply NoDup_singleton].
    intros Hin. apply list_elem_of_singleton in Hin. discriminate Hin.
  - constructor; [|constructor]. split; [done|].
    exists 3%positive. split_and!; [done| |].
    + exists [(0%nat, 5%positive)]. split_and!; [done|apply NoDup_singleton|].
      repeat constructor.
    + exists [(0%nat, 6%positive)]. split_and!; [done|apply NoDup_singleton|].
      repeat constructor.
  - reflexivity.
Defined.

(** X4.  On dictionaries of the documented shapes, with a result directory
    given, the class loop of [eval_det] builds three dictionaries whose keys
    are the classes of [gt_all] (a class that only [pred_all] has is
    ignored), and the entries of a class are what [eval_det_cls] returns on
    the two maps of that class.  [eval_det] then writes the report for these
    dictionaries: it returns them when the report is written, and raises
    what the report raises otherwise. *)
Theorem eval_det_per_class {F : Type} `{Scalar F} {Box : Type}
    (get_iou_cc : Box → Box → F)
    (report : string →
              gmap string (list F) * gmap string (list F) * gmap string F →
              result unit)
    (pred_all gt_all : loc) (ovthresh : F)
    (use_07_metric : bool) (result_dir : string) (h : heap F Box)
    (cv : list (string * (list (img_id * list (Box * F)) *
                          list (img_id * list Box)))) :
  holds_classes h pred_all gt_all cv →
  ∃ rec prec ap,
    (eval_det get_iou_cc report pred_all gt_all ovthresh use_07_metric
              (Some result_dir) h).1
    = match report result_dir (rec, prec, ap) with
      | Ok _ => Ok (rec, prec, ap)
      | Raise e => Raise e
      end ∧
    (∀ c, c ∉ cv.*1 → rec !! c = None ∧ prec !! c = None ∧ ap !! c = None) ∧
    (∀ c pv gv, (c, (pv, gv)) ∈ cv →
       ∃ r p a,
         eval_det_cls_v get_iou_cc pv gv ovthresh use_07_metric = Ok (r, p, a) ∧
         rec !! c = Some r ∧ prec !! c = Some p ∧ ap !! c = Some a).
Proof.
  intros (dp & dg & Hpa & Hga & Hnd & HF).
  assert (dg.*1 = cv.*1) as Hkeys.
  { clear -HF. induction HF as [|e v dg cv [Hev _] _ IH]; [done|].
    by rewrite !fmap_cons, Hev, IH. }
  destruct (eval_det_loop_values get_iou_cc pred_all gt_all ovthresh
              use_07_metric h dp dg dg cv Hpa Hga Hnd HF Hnd (λ _ He, He)
              (∅, ∅, ∅) h) as (acc' & h' & Hloop & Hout & Hin); [done|].
  destruct acc' as [[rec prec] ap]. exists rec, prec, ap.
  split_and!.
  - unfold eval_det.
    rewrite (run_bind_Ok _ _ _ _ _ (run_class_keys gt_all dg h Hga)).
    rewrite (run_bind_Ok _ _ _ _ _ Hloop). rewrite run_bind. unfold lift.
    by destruct (report result_dir (rec, prec, ap)).
  - intros c Hc. rewrite <- Hkeys in Hc. destruct (Hout c Hc) as (H1 & H2 & H3).
    cbn [fst snd] in *. by rewrite H1, H2, H3, !lookup_empty.
  - intros c pv gv Hv. apply (Hin (c, (pv, gv)) Hv).
Qed.
Lemma scenario_classes_holds {F : Type} `{Scalar F} :
  holds_classes (scenario_classes (F:=F)) 1%positive 2%positive
    [("chair"%string,
      ([(0%nat, [(7%nat, div (of_Z 9) (of_Z 10));
                 (7%nat, div (of_Z 5) (of_Z 10))])],
       [(0%nat, [7%nat])]))].
Proof.
  exists [("table"%string, 3%positive); ("chair"%string, 3%positive)],
         [("chair"%string, 4%positive)].
  split_and!; [done|done|apply NoDup_singleton|].
  constructor; [|constructor]. split; [done|].
  exists 3%positive. split_and!; [done| |].
  - exists [(0%nat, 5%positive)]. split_and!; [done|apply NoDup_singleton|].
    repeat constructor.
  - exists [(0%nat, 6%positive)]. split_and!; [done|apply NoDup_singleton|].
    repeat constructor.
Qed.

Lemma eval_det_per_class_witness :
  let cv := [("chair"%string,
              ([(0%nat, [(7%nat, div (of_Z 9) (of_Z 10));
                         (7%nat, div (of_Z 5) (of_Z 10))])],
               [(0%nat, [7%nat])]))] in
  ∃ rec prec ap,
    (eval_det (F:=float) iou_one (λ _ _, Ok ()) 1%positive 2%positive
              (div (of_Z 1) (of_Z 4)) false (Some "out"%string)
              scenario_classes).1
    = Ok (rec, prec, ap) ∧
    (∀ c, c ∉ cv.*1 → rec !! c = None ∧ prec !! c = None ∧ ap !! c = None) ∧
    (∀ c pv gv, (c, (pv, gv)) ∈ cv →
       ∃ r p a,
         eval_det_cls_v iou_one pv gv (div (of_Z 1) (of_Z 4)) false
         = Ok (r, p, a) ∧
         rec !! c = Some r ∧ prec !! c = Some p ∧ ap !! c = Some a).
Proof.
  apply (eval_det_per_class (F:=float) iou_one (λ _ _, Ok ())
           1%positive 2%positive
           (div (of_Z 1) (of_Z 4)) false "out"%string scenario_classes).
  apply scenario_classes_holds.
Defined.

(** X5.  With the default [result_dir=None], [eval_det] never returns: it
    raises, and on the inputs on which it returns when a directory is given
    it raises TypeError, after every class has been evaluated. *)
Theorem eval_det_default_result_dir {F : Type} `{Scalar F} {Box : Type}
    (get_iou_cc : Box → Box → F)
    (report : string →
              gmap string (list F) * gmap string (list F) * gmap string F →
              result unit)
    (pred_all gt_all : loc) (ovthresh : F)
    (use_07_metric : bool) (h : heap F Box) :
  (∃ e, (eval_det get_iou_cc report pred_all gt_all ovthresh use_07_metric
                  None h).1
        = Raise e) ∧
  ∀ result_dir r,
    (eval_det get_iou_cc report pred_all gt_all ovthresh use_07_metric
              (Some result_dir) h).1 = Ok r →
    eval_det get_iou_cc report pred_all gt_all ovthresh use_07_metric None h
    = (Raise TypeError,
       (eval_det get_iou_cc report pred_all gt_all ovthresh use_07_metric
                 (Some result_dir) h).2).
Proof.
  split.
  - unfold eval_det. rewrite run_bind.
    destruct (class_keys gt_all h) as [[keys|e] h1]; [|by exists e].
    rewrite run_bind.
    destruct (foldM (eval_det_step get_iou_cc pred_all gt_all ovthresh
                       use_07_metric) (∅, ∅, ∅) keys h1) as [[r|e] h2].
    + by exists TypeError.
    + by exists e.
  - intros dir r0. unfold eval_det. rewrite !run_bind.
    destruct (class_keys gt_all h) as [[keys|e] h1]; [|intros [=]].
    rewrite !run_bind.
    destruct (foldM (eval_det_step get_iou_cc pred_all gt_all ovthresh
                       use_07_metric) (∅, ∅, ∅) keys h1) as [[r|e] h2];
      [|intros [=]].
    rewrite run_bind. unfold lift.
    destruct (report dir r); simpl; intros [=]. reflexivity.
Qed.
(* ===================================================================== *)
(** ** The precision envelope and the exact mode in closed form *)
(* ===================================================================== *)

Section envelope_loop.
Context {F : Type} `{Scalar F}.

Lemma foldM_app {S A : Type} (body : S → A → result S) (s : S) (l k : list A) :
  foldM body s (l ++ k) = foldM body s l ≫= λ s', foldM body s' k.
Proof.
  revert s. induction l as [|x l IH]; intros s; [done|].
  simpl app. rewrite !foldM_cons. destruct (body s x) as [s'|e]; [|done].
  rewrite !result_bind_Ok. apply IH.
Qed.

Lemma envelope_step_cons (x : F) (l : list F) (i : nat) :
  (0 < i)%nat →
  envelope_step (x :: l) (S i)
  = match envelope_step l i with Ok l' => Ok (x :: l') | Raise e => Raise e end.
Proof.
  intros Hi. unfold envelope_step.
  replace (S i - 1)%nat with (S (i - 1)) by lia. simpl.
  destruct (l !! (i - 1)%nat); [|done]. simpl.
  destruct (l !! i); done.
Qed.

Lemma envelope_loop_cons (x : F) (l : list F) (ind : list nat) :
  Forall (λ i, (0 < i)%nat) ind →
  foldM envelope_step (x :: l) (S <$> ind)
  = match foldM envelope_step l ind with
    | Ok l' => Ok (x :: l')
    | Raise e => Raise e
    end.
Proof.
  intros Hind. revert l. induction Hind as [|i ind Hi _ IH]; intros l; [done|].
  rewrite fmap_cons, !foldM_cons, envelope_step_cons by done.
  destruct (envelope_step l i) as [l'|e]; [|done].
  rewrite !result_bind_Ok. apply IH.
Qed.

Lemma fmap_rev {A B} (f : A → B) (l : list A) : f <$> rev l = rev (f <$> l).
Proof.
  induction l as [|x l IH]; [done|]. simpl. by rewrite fmap_app, IH.
Qed.

Lemma range_down_S (n : nat) : range_down (S n) = (S <$> range_down n) ++ [1%nat].
Proof.
  unfold range_down. simpl seq. rewrite <- fmap_S_seq. simpl rev.
  by rewrite fmap_rev.
Qed.

Lemma running_max_length (l : list F) : length (running_max l) = length l.
Proof.
  induction l as [|x l IH]; [done|]. simpl.
  destruct (running_max l); simpl in *; lia.
Qed.

Lemma envelope_running_max (l : list F) :
  foldM envelope_step l (range_down (length l - 1)) = Ok (running_max l).
Proof.
  induction l as [|x l IH]; [done|].
  destruct l as [|y l]; [done|].
  replace (length (x :: y :: l) - 1)%nat with (S (length (y :: l) - 1))
    by (simpl; lia).
  rewrite range_down_S, foldM_app, envelope_loop_cons.
  - rewrite IH. rewrite result_bind_Ok.
    change (running_max (x :: y :: l))
      with (match running_max (y :: l) with
            | [] => [x]
            | z :: r => maximum x z :: z :: r
            end).
    pose proof (running_max_length (y :: l)) as Hl.
    destruct (running_max (y :: l)) as [|z r]; [done|]. done.
  - eapply Forall_impl; [apply range_down_bounds|]. simpl. lia.
Qed.
End envelope_loop.
Section area_facts.
Local Open Scope Q_scope.

Lemma Qsum_app (l k : list Q) : Qsum (l ++ k) == Qsum l + Qsum k.
Proof. induction l as [|x l IH]; simpl; [lra|]. rewrite IH. lra. Qed.

Lemma Qsum_Forall2_eq (l k : list Q) : Forall2 Qeq l k → Qsum l == Qsum k.
Proof. induction 1 as [|x y l k Hxy _ IH]; simpl; [done|]. by rewrite Hxy, IH. Qed.

Lemma Qsum_Forall2_le (l k : list Q) : Forall2 Qle l k → Qsum l <= Qsum k.
Proof. induction 1 as [|x y l k Hxy _ IH]; simpl; lra. Qed.

(** The terms of the exact mode, read through the three aligned lists
    [a = mrec[1:]], [b = mrec[:-1]] and [c = mpre[1:]]. *)
Lemma area_terms_aligned (mrec mpre : list Q) (a b c : list Q) (i : nat) :
  length a = length b → length a = length c →
  (∀ j x, a !! j = Some x → mrec !! S (i + j) = Some x) →
  (∀ j y, b !! j = Some y → mrec !! (i + j)%nat = Some y) →
  (∀ j z, c !! j = Some z → mpre !! S (i + j) = Some z) →
  ∃ terms, mapM (area_term mrec mpre) (where_ne_from i a b) = Ok terms ∧
           Qsum terms == Qsum (zip_with Qmult (zip_with Qminus a b) c).
Proof.
  revert b c i. induction a as [|x a IH]; intros [|y b] [|z c] i Hab Hac Ha Hb Hc;
    simplify_eq/=.
  { by exists []. }
  destruct (IH b c (S i)) as (terms & Hterms & Hsum); [done|done|..].
  { intros j u Hu. rewrite Nat.add_succ_l, <- Nat.add_succ_r. by apply (Ha (S j)). }
  { intros j u Hu. rewrite Nat.add_succ_l, <- Nat.add_succ_r. by apply (Hb (S j)). }
  { intros j u Hu. rewrite Nat.add_succ_l, <- Nat.add_succ_r. by apply (Hc (S j)). }
  destruct (Qeq_bool x y) eqn:Exy.
  - exists terms. split; [done|]. apply Qeq_bool_iff in Exy. rewrite Hsum.
    rewrite Exy. lra.
  - exists ((x - y) * z :: terms). split.
    + apply mapM_cons_Ok; [|done]. unfold area_term.
      replace (i + 1)%nat with (S (i + 0)) by lia.
      rewrite (Ha 0%nat x eq_refl), (Hc 0%nat z eq_refl).
      specialize (Hb 0%nat y eq_refl).
      rewrite Nat.add_0_r in Hb. by rewrite Hb.
    + simpl. by rewrite Hsum.
Qed.

(** The exact mode in closed form: the sum, over the points of the recall
    axis, of the recall step times the precision envelope. *)
Lemma voc_ap_exact_area (rec prec : list Q) :
  length rec = length prec →
  ∃ ap, voc_ap_exact rec prec = Ok ap ∧
        ap == Qsum (zip_with Qmult
                      (zip_with Qminus (rec ++ [1]) (0 :: rec))
                      (running_max (prec ++ [0]))).
Proof.
  intros Hlen. unfold voc_ap_exact.
  rewrite envelope_running_max, result_bind_Ok.
  change ([lit_0] ++ rec ++ [lit_1]) with ((0 :: rec) ++ [1]).
  rewrite removelast_last.
  change (tail ((0 :: rec) ++ [1])) with (rec ++ [1]).
  change ([lit_0] ++ prec ++ [lit_0]) with (0 :: (prec ++ [0])).
  pose proof (running_max_length (prec ++ [0])) as Hrl.
  change (running_max (0 :: (prec ++ [0])))
    with (match running_max (prec ++ [0]) with
          | [] => [0]
          | y :: r => maximum 0 y :: y :: r
          end).
  destruct (running_max (prec ++ [0])) as [|y r] eqn:Hrm.
  { rewrite length_app in Hrl. simpl in Hrl. lia. }
  destruct (area_terms_aligned ((0 :: rec) ++ [1]) (maximum 0 y :: y :: r)
              (rec ++ [1]) (0 :: rec) (y :: r) 0)
    as (terms & Hterms & Hsum).
  - rewrite length_app. simpl. lia.
  - rewrite Hrl, !length_app. simpl. lia.
  - intros j x Hj. done.
  - intros j x Hj. change (0 + j)%nat with j. by apply lookup_app_l_Some.
  - intros j z Hj. done.
  - unfold where_ne. rewrite Hterms, result_bind_Ok.
    eexists. split; [done|]. by rewrite np_sum_Qsum.
Qed.

Lemma Q_maximum_mono (a b a' b' : Q) :
  a <= a' → b <= b' → maximum a b <= maximum a' b'.
Proof.
  intros Ha Hb.
  destruct (Q_maximum_cases a b) as [[-> ?]|[-> ?]];
    destruct (Q_maximum_cases a' b') as [[-> ?]|[-> ?]]; lra.
Qed.

Lemma running_max_mono (l k : list Q) :
  Forall2 Qle l k → Forall2 Qle (running_max l) (running_max k).
Proof.
  induction 1 as [|x y l k Hxy HF IH]; [done|]. simpl.
  destruct IH as [|u v l' k' Huv IH]; [by constructor|].
  constructor; [by apply Q_maximum_mono|]. by constructor.
Qed.

Lemma running_max_ones (prec : list Q) :
  Forall (λ p, p == 1) prec →
  Forall2 Qeq (running_max (prec ++ [0])) (replicate (length prec) 1 ++ [0]).
Proof.
  induction 1 as [|p prec Hp _ IH]; [by repeat constructor|].
  simpl.
  remember (running_max (prec ++ [0])) as rm eqn:Erm.
  remember (replicate (length prec) 1 ++ [0]) as tgt eqn:Etgt.
  destruct IH as [|u v l' k' Huv IH].
  { destruct prec; discriminate. }
  constructor; [|by constructor].
  assert (v == 1 ∨ v == 0) as Hv.
  { destruct prec; simpl in Etgt; injection Etgt as -> _; [by right|by left]. }
  destruct (Q_maximum_cases p u) as [[-> ?]|[-> ?]]; [done|].
  destruct Hv; lra.
Qed.

Lemma telescope (rec : list Q) (s e : Q) :
  Qsum (zip_with Qmult (zip_with Qminus (rec ++ [e]) (s :: rec))
          (replicate (length rec) 1 ++ [0]))
  == default s (last rec) - s.
Proof.
  revert s. induction rec as [|x rec IH]; intros s; simpl; [lra|].
  rewrite IH. destruct rec as [|q rec]; [simpl; lra|].
  change (last (x :: q :: rec)) with (last (q :: rec)).
  destruct (last (q :: rec)) as [z|] eqn:El; [simpl; lra|].
  by apply last_None in El.
Qed.
End area_facts.
Section curve_theorems.
Local Open Scope Q_scope.

Lemma zip_mult_eq (w c c' : list Q) :
  Forall2 Qeq c c' → Forall2 Qeq (zip_with Qmult w c) (zip_with Qmult w c').
Proof.
  intros Hc. revert w. induction Hc as [|x y c c' Hxy _ IH]; intros [|u w]; simpl;
    try constructor; [by rewrite Hxy|apply IH].
Qed.

Lemma zip_mult_le (w c c' : list Q) :
  Forall (λ u, 0 <= u) w → Forall2 Qle c c' →
  Qsum (zip_with Qmult w c) <= Qsum (zip_with Qmult w c').
Proof.
  intros Hw Hc. revert w Hw.
  induction Hc as [|x y c c' Hxy _ IH]; intros [|u w] Hw; simpl; try lra.
  apply Forall_cons in Hw as [Hu Hw]. specialize (IH w Hw). nra.
Qed.

Lemma recall_steps_nonneg (rec : list Q) :
  Forall unit_interval rec → non_decreasing rec →
  Forall (λ u, 0 <= u) (zip_with Qminus (rec ++ [1]) (0 :: rec)).
Proof.
  intros Hu Hnd. pose proof (sentinel_non_decreasing rec Hu Hnd) as Hs.
  change ([0] ++ rec ++ [1]) with (0 :: (rec ++ [1])) in Hs.
  apply Forall_lookup. intros i u Hi.
  apply lookup_zip_with_Some in Hi as (a & b & -> & Ha & Hb).
  assert ((0 :: (rec ++ [1])) !! i = Some b) as Hb'.
  { change (0 :: (rec ++ [1])) with ((0 :: rec) ++ [1]).
    by apply lookup_app_l_Some. }
  pose proof (Hs i b a Hb' Ha). lra.
Qed.

Lemma max_prec_at_mono (rec prec prec' : list Q) (t p p' : Q) :
  Forall2 Qle prec prec' →
  max_prec_at rec prec t p → max_prec_at rec prec' t p' → p <= p'.
Proof.
  intros Hle [[Hn ->]|[(i & r & Hr & Htr & Hp) _]] [[Hn' ->]|[(i' & r' & Hr' & Htr' & Hp') Hub']].
  - lra.
  - by destruct (Hn i' r' Hr').
  - by destruct (Hn' i r Hr).
  - destruct (Forall2_lookup_l _ _ _ _ _ Hle Hp) as (q & Hq & Hpq).
    pose proof (Hub' i r q Hr Htr Hq). lra.
Qed.

(** X6.  In exact arithmetic, for recall and precision of one length,
    the exact mode of [voc_ap] returns the sum, over the points of the recall
    axis (the sentinels 0 and 1 included), of the recall step times the
    largest precision from that point on: the envelope loop computes running
    maxima from the right, and the points where recall does not change add
    nothing. *)
Theorem voc_ap_exact_closed_form (rec prec : list Q) :
  length rec = length prec →
  foldM envelope_step ([lit_0] ++ prec ++ [lit_0])
        (range_down (length ([lit_0] ++ prec ++ [lit_0]) - 1))
  = Ok (running_max ([lit_0] ++ prec ++ [lit_0])) ∧
  ∃ ap, voc_ap rec prec false = Ok ap ∧
        ap == Qsum (zip_with Qmult
                      (zip_with Qminus (rec ++ [1]) (0 :: rec))
                      (running_max (prec ++ [0]))).
Proof.
  intros Hlen. split; [apply envelope_running_max|].
  by apply voc_ap_exact_area.
Qed.

Lemma voc_ap_exact_closed_form_witness :
  foldM envelope_step ([lit_0] ++ [1; 1 # 2] ++ [lit_0])
        (range_down (length ([lit_0] ++ [1; 1 # 2] ++ [lit_0]) - 1))
  = Ok (running_max ([lit_0] ++ [1; 1 # 2] ++ [lit_0])) ∧
  ∃ ap, voc_ap [1; 1] [1; 1 # 2] false = Ok ap ∧
        ap == Qsum (zip_with Qmult
                      (zip_with Qminus ([1; 1] ++ [1]) (0 :: [1; 1]))
                      (running_max ([1; 1 # 2] ++ [0]))).
Proof. apply (voc_ap_exact_closed_form [1; 1] [1; 1 # 2]). reflexivity. Defined.

(** X7.  In exact arithmetic, when every precision is 1, the exact mode of
    [voc_ap] returns the last recall; and when that recall is 1, the 11-point
    mode returns 1. *)
Theorem voc_ap_perfect_precision (rec prec : list Q) (r : Q) :
  length rec = length prec → Forall (λ p, p == 1) prec → last rec = Some r →
  (∃ ap, voc_ap rec prec false = Ok ap ∧ ap == r) ∧
  (r == 1 → ∃ ap, voc_ap rec prec true = Ok ap ∧ ap == 1).
Proof.
  intros Hlen Hp Hlast. split.
  - destruct (voc_ap_exact_area rec prec Hlen) as (ap & Hap & Harea).
    exists ap. split; [done|]. rewrite Harea.
    rewrite (Qsum_Forall2_eq _ _ (zip_mult_eq _ _ _ (running_max_ones prec Hp))).
    rewrite <- Hlen, telescope, Hlast. simpl. lra.
  - intros Hr.
    destruct (voc_ap_07_exact_arith rec prec Hlen)
      as (ps & ap & Hps & Hap & _ & Hmean).
    exists ap. split; [done|]. rewrite Hmean.
    assert (Forall2 (λ t p, t <= 1 → p == 1)
              [0; 0.1; 0.2; 0.3; 0.4; 0.5; 0.6; 0.7; 0.8; 0.9; 1.0] ps) as Hone.
    { eapply Forall2_impl; [exact Hps|]. intros t p Hm Ht.
      apply last_Some in Hlast as [rec' ->].
      destruct Hm as [[Hn _]|[(i & r' & Hr' & Htr & Hpi) _]].
      - destruct (Hn (length rec') r); [|lra].
        by rewrite lookup_app_r, Nat.sub_diag by lia.
      - eapply Forall_lookup_1 in Hp; [|exact Hpi]. done. }
    do 12 (try (apply Forall2_cons_inv_l in Hone as (? & ? & ? & Hone & ->))).
    apply Forall2_nil_inv_l in Hone as ->. simpl.
    repeat match goal with
           | H : ?t <= 1 → _ |- _ =>
               let H' := fresh in assert (t <= 1) as H' by (by vm_compute);
               specialize (H H'); clear H'
           end.
    unfold Qdiv. change (/ 11) with (1 # 11). lra.
Qed.

Lemma voc_ap_perfect_precision_witness :
  (∃ ap, voc_ap [1 # 2; 1] [1; 1] false = Ok ap ∧ ap == 1) ∧
  (1 == 1 → ∃ ap, voc_ap [1 # 2; 1] [1; 1] true = Ok ap ∧ ap == 1).
Proof.
  apply (voc_ap_perfect_precision [1 # 2; 1] [1; 1] 1);
    [reflexivity|by repeat constructor|reflexivity].
Defined.

(** X8.  In exact arithmetic [voc_ap] is monotone in the precision: on one
    recall curve (never decreasing, within [0,1]), a precision that is
    nowhere smaller gives an average precision that is not smaller, in both
    modes. *)
Theorem voc_ap_monotone (rec prec prec' : list Q) (use_07_metric : bool) :
  length rec = length prec → Forall2 Qle prec prec' →
  Forall unit_interval rec → non_decreasing rec →
  ∃ ap ap', voc_ap rec prec use_07_metric = Ok ap ∧
            voc_ap rec prec' use_07_metric = Ok ap' ∧ ap <= ap'.
Proof.
  intros Hlen Hle Hu Hnd.
  assert (length rec = length prec') as Hlen'.
  { apply Forall2_length in Hle. lia. }
  destruct use_07_metric.
  - destruct (voc_ap_07_exact_arith rec prec Hlen)
      as (ps & ap & Hps & Hap & Hsum & _).
    destruct (voc_ap_07_exact_arith rec prec' Hlen')
      as (ps' & ap' & Hps' & Hap' & Hsum' & _).
    exists ap, ap'. split_and!; [done|done|]. rewrite Hsum, Hsum'.
    apply Qsum_Forall2_le.
    apply Forall2_fmap, Forall2_same_length_lookup. split.
    { apply Forall2_length in Hps, Hps'. lia. }
    intros i p p' Hp Hp'.
    destruct (Forall2_lookup_r _ _ _ _ _ Hps Hp) as (t & Ht & Hm).
    destruct (Forall2_lookup_r _ _ _ _ _ Hps' Hp') as (t' & Ht' & Hm').
    simplify_eq.
    pose proof (max_prec_at_mono rec prec prec' t p p' Hle Hm Hm') as Hpp.
    unfold Qdiv. change (/ 11) with (1 # 11). lra.
  - destruct (voc_ap_exact_area rec prec Hlen) as (ap & Hap & Harea).
    destruct (voc_ap_exact_area rec prec' Hlen') as (ap' & Hap' & Harea').
    exists ap, ap'. split_and!; [done|done|]. rewrite Harea, Harea'.
    apply zip_mult_le; [by apply recall_steps_nonneg|].
    apply running_max_mono, Forall2_app; [done|].
    constructor; [lra|constructor].
Qed.

Lemma voc_ap_monotone_witness :
  ∃ ap ap', voc_ap [1 # 2; 1] [1; 1 # 2] false = Ok ap ∧
            voc_ap [1 # 2; 1] [1; 1] false = Ok ap' ∧ ap <= ap'.
Proof.
  apply (voc_ap_monotone [1 # 2; 1] [1; 1 # 2] [1; 1] false).
  - reflexivity.
  - repeat constructor; lra.
  - repeat constructor; unfold unit_interval; lra.
  - intros [|[|i]] a b; simpl; intros [= <-] [= <-]; lra.
Defined.
End curve_theorems.
(* ===================================================================== *)
(** ** Recall and precision of different lengths *)
(* ===================================================================== *)

Section mismatch_facts.
Context {F : Type} `{Scalar F}.

Lemma voc_ap_exact_Ok_le (rec prec : list F) :
  (length rec ≤ length prec)%nat → ∃ ap, voc_ap_exact rec prec = Ok ap.
Proof.
  intros Hlen. unfold voc_ap_exact.
  rewrite envelope_running_max, result_bind_Ok.
  destruct (area_terms_Ok ([lit_0] ++ rec ++ [lit_1])
              (running_max ([lit_0] ++ prec ++ [lit_0]))
              (where_ne (tail ([lit_0] ++ rec ++ [lit_1]))
                        (removelast ([lit_0] ++ rec ++ [lit_1]))))
    as (terms & -> & _).
  { eapply Forall_impl; [apply where_ne_bounds|]. cbv beta. intros i Hi.
    split; [done|]. rewrite running_max_length. simpl in *.
    rewrite !length_app in *. simpl in *. lia. }
  by eexists.
Qed.

Lemma where_ne_from_last (a b : list F) (x y : F) (i : nat) :
  length a = length b → eqb x y = false →
  (i + length a)%nat ∈ where_ne_from i (a ++ [x]) (b ++ [y]).
Proof.
  revert b i. induction a as [|u a IH]; intros [|v b] i Hlen Hxy; simplify_eq/=.
  - rewrite Hxy, Nat.add_0_r. left.
  - rewrite <- Nat.add_succ_comm.
    destruct (eqb u v); [|right]; by apply IH.
Qed.

Lemma mapM_IndexError {A B} (f : A → result B) (l : list A) (x : A) :
  (∀ y, y ∈ l → f y = Raise IndexError ∨ ∃ b, f y = Ok b) →
  x ∈ l → f x = Raise IndexError → mapM f l = Raise IndexError.
Proof.
  induction l as [|y l IH]; intros Hall Hx Hfx.
  { by apply elem_of_nil in Hx. }
  simpl. apply elem_of_cons in Hx as [<-|Hx]; [by rewrite Hfx|].
  destruct (Hall y) as [->|[b ->]]; [left|done|].
  rewrite result_bind_Ok, IH; [done| |done..].
  intros z Hz. apply Hall. by right.
Qed.

Lemma area_term_cases (mrec mpre : list F) (i : nat) :
  area_term mrec mpre i = Raise IndexError ∨ ∃ b, area_term mrec mpre i = Ok b.
Proof.
  unfold area_term.
  destruct (mrec !! (i + 1)%nat); [|by left]. rewrite or_raise_Some_bind.
  destruct (mrec !! i); [|by left]. rewrite or_raise_Some_bind.
  destruct (mpre !! (i + 1)%nat); [|by left]. rewrite or_raise_Some_bind.
  right. by eexists.
Qed.

Lemma voc_ap_exact_short (rec prec : list F) :
  (length prec < length rec)%nat →
  eqb lit_1 (default lit_0 (last rec)) = false →
  voc_ap_exact rec prec = Raise IndexError.
Proof.
  intros Hlen Hlast. unfold voc_ap_exact.
  rewrite envelope_running_max, result_bind_Ok.
  assert (∃ b, [lit_0] ++ rec = b ++ [default lit_0 (last rec)] ∧
               length b = length rec) as (b & Hb & Hbl).
  { destruct rec as [|r rec _] using rev_ind.
    - by exists [].
    - exists (lit_0 :: rec). rewrite last_snoc. simpl.
      by rewrite length_app, Nat.add_1_r. }
  set (mrec := [lit_0] ++ rec ++ [lit_1]).
  assert (removelast mrec = [lit_0] ++ rec) as ->
    by apply (removelast_last ([lit_0] ++ rec) lit_1).
  change (tail mrec) with (rec ++ [lit_1]).
  rewrite Hb.
  rewrite (mapM_IndexError _ _ (length rec)); [done| | |].
  - intros y _. apply area_term_cases.
  - unfold where_ne.
    pose proof (where_ne_from_last rec b lit_1 (default lit_0 (last rec)) 0
                  (eq_sym Hbl) Hlast) as Hin.
    done.
  - unfold area_term.
    assert (mrec !! (length rec + 1)%nat = Some lit_1) as ->.
    { subst mrec. change ([lit_0] ++ rec ++ [lit_1]) with (lit_0 :: (rec ++ [lit_1])).
      rewrite Nat.add_1_r. simpl.
      by rewrite lookup_app_r, Nat.sub_diag by lia. }
    rewrite or_raise_Some_bind.
    destruct (lookup_lt_is_Some_2 mrec (length rec)) as [u ->].
    { subst mrec. simpl. rewrite length_app. simpl. lia. }
    rewrite or_raise_Some_bind.
    rewrite lookup_ge_None_2; [done|].
    rewrite running_max_length. simpl. rewrite length_app. simpl. lia.
Qed.

Lemma count_true_pos (mask : list bool) : true ∈ mask → count_true mask ≠ 0%nat.
Proof.
  unfold count_true. intros Hin Hz.
  apply length_zero_iff_nil in Hz.
  assert (true ∈ filter (λ b, b = true) mask) as Hf.
  { by apply list_elem_of_filter. }
  rewrite Hz in Hf. by apply elem_of_nil in Hf.
Qed.

Lemma voc_ap_07_step_mismatch (rec prec : list F) (ap t : F) :
  length rec ≠ length prec → (∃ r, r ∈ rec ∧ leb t r = true) →
  voc_ap_07_step rec prec ap t = Raise IndexError.
Proof.
  intros Hlen (r & Hr & Htr). unfold voc_ap_07_step. cbv zeta.
  assert (count_true ((λ r, leb t r) <$> rec) ≠ 0%nat) as Hc.
  { apply count_true_pos. rewrite <- Htr.
    by apply (list_elem_of_fmap_2 (λ r, leb t r)). }
  apply Nat.eqb_neq in Hc. rewrite Hc.
  unfold bool_index. rewrite decide_False; [done|]. by rewrite length_fmap.
Qed.
End mismatch_facts.

(** X9.  [voc_ap] on recall and precision of different lengths.  The
    11-point mode raises IndexError as soon as one recall is at least 0.
    The exact mode does not compare the lengths: it returns a number when the
    precision is the longer one, and raises IndexError when the precision is
    the shorter one and the last recall is not 1. *)
Theorem voc_ap_length_mismatch :
  (∀ rec prec : list float,
     length rec ≠ length prec → (∃ r, r ∈ rec ∧ leb lit_0 r = true) →
     voc_ap rec prec true = Raise IndexError) ∧
  (∀ rec prec : list Q,
     length rec ≠ length prec → (∃ r, r ∈ rec ∧ leb lit_0 r = true) →
     voc_ap rec prec true = Raise IndexError) ∧
  (∀ (F : Type) `(Scalar F) (rec prec : list F),
     (length rec ≤ length prec)%nat → ∃ ap, voc_ap rec prec false = Ok ap) ∧
  (∀ (F : Type) `(Scalar F) (rec prec : list F),
     (length prec < length rec)%nat →
     eqb lit_1 (default lit_0 (last rec)) = false →
     voc_ap rec prec false = Raise IndexError).
Proof.
  split_and!.
  - intros rec prec Hlen Hr. unfold voc_ap, voc_ap_07.
    assert (∃ ts, arange (F:=float) lit_0 lit_1_1 lit_0_1 = lit_0 :: ts)
      as [ts ->] by (by eexists; vm_compute).
    by rewrite foldM_cons, voc_ap_07_step_mismatch.
  - intros rec prec Hlen Hr. unfold voc_ap, voc_ap_07.
    assert (∃ ts, arange (F:=Q) lit_0 lit_1_1 lit_0_1 = lit_0 :: ts)
      as [ts ->] by (by eexists; vm_compute).
    by rewrite foldM_cons, voc_ap_07_step_mismatch.
  - intros F HF rec prec Hlen. by apply voc_ap_exact_Ok_le.
  - intros F HF rec prec Hlen Hlast. by apply voc_ap_exact_short.
Qed.

Lemma voc_ap_length_mismatch_witness :
  voc_ap (F:=float) [0.5%float; 1%float] [1%float] true = Raise IndexError.
Proof.
  apply (proj1 voc_ap_length_mismatch [0.5%float; 1%float] [1%float]).
  - discriminate.
  - exists 0.5%float. split; [left|reflexivity].
Defined.

(* ===================================================================== *)
(** ** Claimed boxes and the last recall *)
(* ===================================================================== *)

Section permutation_facts.

Lemma take_indices_zip {A B} (a : list A) (b : list B) (ind : list nat)
    (ra : list A) (rb : list B) :
  Forall2 (λ i x, a !! i = Some x) ind ra →
  Forall2 (λ i y, b !! i = Some y) ind rb →
  Forall2 (λ i xy, zip a b !! i = Some xy) ind (zip ra rb).
Proof.
  intros Ha. revert rb. induction Ha as [|i x ind ra Hx _ IH]; intros rb Hb.
  - apply Forall2_nil_inv_l in Hb as ->. constructor.
  - apply Forall2_cons_inv_l in Hb as (y & rb' & Hy & Hb & ->).
    simpl. constructor; [|by apply IH].
    apply lookup_zip_Some. done.
Qed.

Lemma omap_lookup_seq {A} (k l : list A) :
  omap ((k ++ l) !!.) (seq (length k) (length l)) = l.
Proof.
  revert k. induction l as [|x l IH]; intros k; [done|].
  simpl seq.
  change (omap ((k ++ x :: l) !!.) (length k :: seq (S (length k)) (length l)))
    with (match (k ++ x :: l) !! length k with
          | Some y => y :: omap ((k ++ x :: l) !!.) (seq (S (length k)) (length l))
          | None => omap ((k ++ x :: l) !!.) (seq (S (length k)) (length l))
          end).
  rewrite list_lookup_middle by done. f_equal.
  specialize (IH (k ++ [x])). rewrite length_app, Nat.add_1_r in IH.
  by rewrite <- app_assoc in IH.
Qed.

Lemma lookups_perm {A} (l : list A) (ind : list nat) (res : list A) :
  Forall2 (λ i x, l !! i = Some x) ind res →
  ind ≡ₚ seq 0 (length l) → res ≡ₚ l.
Proof.
  intros HF Hp.
  assert (res = omap (l !!.) ind) as ->.
  { clear Hp. induction HF as [|i x ind res Hx _ IH]; [done|].
    change (omap (l !!.) (i :: ind))
      with (match l !! i with
            | Some y => y :: omap (l !!.) ind
            | None => omap (l !!.) ind
            end).
    by rewrite Hx, IH. }
  rewrite Hp. pose proof (omap_lookup_seq [] l) as Hl. simpl in Hl. by rewrite Hl.
Qed.
End permutation_facts.
Section claim_facts.
Context {F : Type} `{Scalar F} {Box : Type}.
Variable get_iou_cc : Box → Box → F.

Lemma overlap_scan_jmax (bb : Box) (BBGT : list Box) (j0 j1 : option nat) :
  (overlap_scan get_iou_cc bb BBGT None j0).1
  = (overlap_scan get_iou_cc bb BBGT None j1).1 ∧
  (is_Some (overlap_scan get_iou_cc bb BBGT None j0).1 →
   (overlap_scan get_iou_cc bb BBGT None j0).2
   = (overlap_scan get_iou_cc bb BBGT None j1).2).
Proof.
  induction BBGT as [|g BBGT [IH1 IH2]] using rev_ind.
  { split; [done|]. by intros [? ?]. }
  rewrite !overlap_scan_snoc. unfold overlap_step. cbn [fst snd].
  rewrite <- IH1. destruct (above _ _); [done|]. done.
Qed.

Lemma claim_of_scan (ovthresh : F) (gv : list (img_id * list Box))
    (img : img_id) (bb : Box) (boxes : list Box) (j0 : option nat) :
  boxes = default [] (assoc img gv) →
  let scan := overlap_scan get_iou_cc bb boxes None j0 in
  (exceeds scan.1 ovthresh = false →
   claim get_iou_cc ovthresh gv (img, bb) = None) ∧
  (∀ o j, scan = (Some o, Some j) → ltb ovthresh o = true →
          claim get_iou_cc ovthresh gv (img, bb) = Some (img, j)).
Proof.
  intros -> scan. unfold claim, best_match. cbn [fst snd].
  destruct (overlap_scan_jmax bb (default [] (assoc img gv)) j0 None)
    as [H1 H2]. fold scan in H1, H2. rewrite <- H1. split.
  - by intros ->.
  - intros o j Hs Hlt. rewrite Hs in H2 |- *. cbn [fst snd exceeds] in *.
    rewrite Hlt, <- H2; [done|by eexists].
Qed.

Lemma zip_const_fst {A B C} (k : C) (l : list (A * B)) :
  zip ((λ _, k) <$> l) l.*1 = (λ it, (k, it.1)) <$> l.
Proof.
  induction l as [|it l IH]; [done|].
  rewrite !fmap_cons. cbn [zip_with]. by rewrite IH.
Qed.

Lemma zip_detections (pv : list (img_id * list (Box * F))) :
  zip (construct_dets_v pv).1.1 (construct_dets_v pv).2 = detections pv.
Proof.
  rewrite construct_dets_v_eq. cbn [fst snd]. unfold detections.
  induction pv as [|e pv IH]; [done|].
  rewrite !bind_cons, zip_with_app, IH by (by rewrite !length_fmap).
  by rewrite zip_const_fst.
Qed.

Lemma recs0_boxes (pv : list (img_id * list (Box * F)))
    (gv : list (img_id * list Box)) (img : img_id) (R : list Box * list bool) :
  NoDup gv.*1 →
  pad_empty_v pv gv (construct_gt_v gv).1 !! img = Some R →
  R.1 = default [] (assoc img gv) ∧ ∀ j, R.2 !! j ≠ Some true.
Proof.
  intros Hnd. revert img R.
  apply (pad_empty_v_inv
           (λ m, ∀ img R, m !! img = Some R →
                          R.1 = default [] (assoc img gv) ∧
                          ∀ j, R.2 !! j ≠ Some true)).
  - apply (construct_gt_v_inv
             (λ m _, ∀ img R, m !! img = Some R →
                              R.1 = default [] (assoc img gv) ∧
                              ∀ j, R.2 !! j ≠ Some true)).
    + intros img R HR. by rewrite lookup_empty in HR.
    + intros m z e He Hm img R HR.
      destruct (decide (img = e.1)) as [->|Hne].
      * rewrite lookup_insert_eq in HR. injection HR as <-. simpl.
        rewrite (assoc_NoDup gv e Hnd He). split; [done|].
        intros j Hj. apply lookup_replicate in Hj as [? _]. done.
      * rewrite lookup_insert_ne in HR by done. by apply Hm.
  - intros m e He Hnone Hm img R HR.
    destruct (decide (img = e.1)) as [->|Hne].
    + rewrite lookup_insert_eq in HR. injection HR as <-. simpl.
      rewrite Hnone. split; [done|]. intros j Hj. by rewrite lookup_nil in Hj.
    + rewrite lookup_insert_ne in HR by done. by apply Hm.
Qed.
End claim_facts.
Section gset_facts.
Context `{Countable A}.
Implicit Types X : gset A.

Lemma union_list_nil X : X ∪ list_to_set [] = X.
Proof. apply (right_id_L (∅ : gset A) (∪)). Qed.

Lemma union_list_single X (x : A) : X ∪ list_to_set [x] = X ∪ {[x]}.
Proof.
  change (list_to_set [x] : gset A) with ({[x]} ∪ (∅ : gset A)).
  by rewrite (right_id_L (∅ : gset A) (∪)).
Qed.

Lemma elem_of_union_other X (x y : A) : y ≠ x → (y ∈ X ∪ {[x]} ↔ y ∈ X).
Proof.
  intros Hne. rewrite elem_of_union, elem_of_singleton.
  split; [by intros [?|?]|by left].
Qed.

Lemma elem_of_union_new X (x : A) : x ∈ X ∪ {[x]}.
Proof. apply elem_of_union. right. by apply elem_of_singleton. Qed.

Lemma union_list_known X (x : A) : x ∈ X → X ∪ list_to_set [x] = X.
Proof.
  intros Hx. rewrite union_list_single. apply set_eq. intros y.
  rewrite elem_of_union, elem_of_singleton.
  split; [by intros [?| ->]|by left].
Qed.

Lemma size_union_new X (x : A) : x ∉ X → size (X ∪ {[x]}) = (size X + 1)%nat.
Proof.
  intros Hx. rewrite size_union, size_singleton; [done|].
  intros y Hy Hyx. apply elem_of_singleton in Hyx as ->. done.
Qed.
End gset_facts.

Section final_recall.
Context {Box : Type}.
Variable get_iou_cc : Box → Box → Q.
Local Open Scope Q_scope.

Lemma cumsum_from_last (l : list Q) (a c : Q) :
  last (cumsum_from a l) = Some c → c == a + Qsum l.
Proof.
  revert a. induction l as [|x l IH]; intros a; [done|].
  simpl cumsum_from. destruct l as [|y l].
  - simpl. intros [= <-]. change (add a x) with (a + x). lra.
  - change (last (add a x :: cumsum_from (add a x) (y :: l)))
      with (last (cumsum_from (add a x) (y :: l))).
    intros Hc. apply IH in Hc. change (add a x) with (a + x) in Hc.
    simpl in *. lra.
Qed.

Lemma cumsum_last (l : list Q) (c : Q) :
  last (cumsum l) = Some c → c == Qsum l.
Proof.
  destruct l as [|x l]; [done|]. simpl cumsum. destruct l as [|y l].
  - simpl. intros [= <-]. lra.
  - change (last (x :: cumsum_from x (y :: l)))
      with (last (cumsum_from x (y :: l))).
    intros Hc. apply cumsum_from_last in Hc. simpl in *. lra.
Qed.

Lemma precision_entry (tp fp : list Q) (npos : Z) (i : nat) :
  marked_once tp fp → (i < length tp)%nat →
  ∃ ct cf, cumsum tp !! i = Some ct ∧ cumsum fp !! i = Some cf ∧
           ct + cf == inject_Z (Z.of_nat (S i)) ∧
           (precision_recall tp fp npos).2 !! i = Some (ct / (ct + cf)).
Proof.
  intros Hm Hi.
  destruct (cumsum_marked tp fp i Hm Hi) as (ct & cf & Hct & Hcf & Hsum).
  pose proof (inject_Z_S_ge_1 i) as Hge. pose proof float64_eps_lt_1 as Heps.
  assert (maximum (add ct cf) float64_eps = add ct cf) as Hmax.
  { unfold maximum. rewrite !Q_eqb_refl.
    assert (ltb (add ct cf) (float64_eps (F:=Q)) = false) as ->; [|done].
    apply Q_ltb_ge. change (add ct cf) with (ct + cf)%Q. lra. }
  exists ct, cf. split_and!; [done..|].
  unfold precision_recall. cbn [snd].
  rewrite lookup_zip_with, Hct. cbn [mbind option_bind].
  rewrite list_lookup_fmap, lookup_zip_with, Hct. cbn [mbind option_bind].
  rewrite Hcf. cbn [mbind option_bind fmap option_fmap option_map].
  by rewrite Hmax.
Qed.

Lemma eval_det_cls_v_marks (pv : list (img_id * list (Box * Q)))
    (gv : list (img_id * list Box)) (ovthresh : Q) (use_07_metric : bool) :
  NoDup gv.*1 →
  ∃ tp fp ap,
    marked_once tp fp ∧ length tp = length (pv ≫= snd) ∧
    Qsum tp
    == inject_Z (Z.of_nat (size (claimed_boxes get_iou_cc ovthresh gv pv))) ∧
    voc_ap (precision_recall tp fp (construct_gt_v gv).2).1
           (precision_recall tp fp (construct_gt_v gv).2).2 use_07_metric
    = Ok ap ∧
    eval_det_cls_v get_iou_cc pv gv ovthresh use_07_metric
    = Ok ((precision_recall tp fp (construct_gt_v gv).2).1,
          (precision_recall tp fp (construct_gt_v gv).2).2, ap).
Proof.
  intros Hnd.
  destruct (eval_det_cls_v_sorted pv)
    as (image_ids & BB & Hids & HBB & HFi & HFB & Hn & Hlen & Hkeys).
  set (nd := length image_ids).
  set (dets := zip image_ids BB).
  set (C := λ d : nat,
         (list_to_set (omap (claim get_iou_cc ovthresh gv) (take d dets))
          : gset (img_id * nat))).
  destruct (eval_det_cls_v_run get_iou_cc pv gv ovthresh use_07_metric
              (λ d recs st,
                 (d ≤ nd)%nat ∧ marked_upto nd d (tp st) (fp st) ∧
                 (∀ img R, recs !! img = Some R →
                           R.1 = default [] (assoc img gv)) ∧
                 (∀ img R j, recs !! img = Some R →
                             (R.2 !! j = Some true ↔ (img, j) ∈ C d)) ∧
                 Qsum (tp st) == inject_Z (Z.of_nat (size (C d))))
              image_ids BB Hids HBB Hlen Hkeys)
    as (recs' & st' & ap & (_ & Hmarked & _ & _ & Hcount) & Htp & Hfp & Hap & Hrun).
  - intros d recs st img bb R Hd Hb HR HRl (Hdn & Hm & Hbox & Hflags & Hc)
      Htp Hfp scan.
    apply lookup_lt_Some in Hd as Hdlt. fold nd in Hdlt.
    assert (dets !! d = Some (img, bb)) as Hdet.
    { subst dets. by apply lookup_zip_Some. }
    assert (C (S d) = C d ∪ list_to_set
                               (omap (claim get_iou_cc ovthresh gv) [(img, bb)]))
      as HCS.
    { subst C. cbv beta. rewrite (take_S_r _ _ _ Hdet), omap_app.
      by rewrite list_to_set_app_L. }
    destruct (claim_of_scan get_iou_cc ovthresh gv img bb R.1 (jmax st)
                (Hbox img R HR)) as [Hnone Hsome].
    fold scan in Hnone, Hsome.
    split; [|intros j g Hj Hlt Hs; split].
    + intros Hex. specialize (Hnone Hex).
      assert (C (S d) = C d) as ->.
      { rewrite HCS. simpl. rewrite Hnone. apply union_list_nil. }
      split_and!; [lia|by apply marked_upto_fp|done..].
    + intros Hflag. specialize (Hsome _ _ Hs Hlt).
      assert (C (S d) = C d) as ->.
      { rewrite HCS. simpl. rewrite Hsome.
        apply (Hflags img R j HR) in Hflag. by apply union_list_known. }
      split_and!; [lia|by apply marked_upto_fp|done..].
    + intros Hflag. specialize (Hsome _ _ Hs Hlt).
      assert ((img, j) ∉ C d) as Hnew.
      { intros Hin. apply (Hflags img R j HR) in Hin. congruence. }
      assert (C (S d) = C d ∪ {[(img, j)]}) as HCS'.
      { rewrite HCS. simpl. rewrite Hsome. apply union_list_single. }
      split_and!; [lia|by apply marked_upto_tp| | |].
      * intros img' R' HR'. destruct (decide (img' = img)) as [->|Hne].
        -- rewrite lookup_insert_eq in HR'. injection HR' as <-. simpl.
           by apply Hbox.
        -- rewrite lookup_insert_ne in HR' by done. by apply Hbox.
      * intros img' R' j' HR'. rewrite HCS'.
        destruct (decide (img' = img)) as [->|Hne].
        -- rewrite lookup_insert_eq in HR'. injection HR' as <-. simpl.
           destruct (decide (j' = j)) as [->|Hj'].
           ++ rewrite list_lookup_insert_eq by (by eapply lookup_lt_Some).
              split; [intros _; apply elem_of_union_new|done].
           ++ rewrite list_lookup_insert_ne by done.
              rewrite (Hflags img R j' HR).
              symmetry. apply elem_of_union_other. congruence.
        -- rewrite lookup_insert_ne in HR' by done.
           rewrite (Hflags img' R' j' HR').
           symmetry. apply elem_of_union_other. congruence.
      * cbn [tp]. destruct Hm as [_ Hhi].
        destruct (Hhi d ltac:(lia)) as [Htd _].
        rewrite (Qsum_insert _ _ _ _ Htd), Hc, HCS'.
        rewrite size_union_new by done.
        rewrite Nat2Z.inj_add, inject_Z_plus.
        change (lit_0 (F:=Q)) with 0. change (lit_1 (F:=Q)) with 1.
        change (inject_Z (Z.of_nat 1)) with 1. lra.
  - split_and!; [lia|apply marked_upto_start| | |].
    + intros img R HR. by apply (recs0_boxes pv gv img R Hnd).
    + intros img R j HR.
      assert (C 0%nat = ∅) as -> by done.
      destruct (recs0_boxes pv gv img R Hnd HR) as [_ Hf].
      split; [by intros ?%Hf|]. intros Hin. by apply elem_of_empty in Hin.
    + cbn [tp]. rewrite Qsum_zeros.
      assert (C 0%nat = ∅) as -> by done. by rewrite size_empty.
  - cbv zeta in Hap, Hrun. exists (tp st'), (fp st'), ap.
    apply marked_upto_end in Hmarked; [|done..].
    subst nd.
    assert (C (length image_ids) = claimed_boxes get_iou_cc ovthresh gv pv)
      as HC.
    { subst C. cbv beta. unfold claimed_boxes.
      apply list_to_set_perm_L, omap_Permutation.
      rewrite take_ge by (subst dets; rewrite length_zip_with; lia).
      rewrite <- zip_detections. subst dets.
      eapply lookups_perm; [by apply take_indices_zip|].
      rewrite argsort_perm, length_fmap, length_zip_with.
      destruct (construct_dets_v_lengths pv) as (L1 & L2 & L3).
      rewrite L1, L2, L3. by rewrite Nat.min_id. }
    rewrite HC in Hcount. split_and!; [done|lia|done..].
Qed.

Lemma eval_det_cls_v_claimed (pv : list (img_id * list (Box * Q)))
    (gv : list (img_id * list Box)) (ovthresh : Q) (use_07_metric : bool) :
  NoDup gv.*1 →
  ∃ rec prec ap,
    eval_det_cls_v get_iou_cc pv gv ovthresh use_07_metric = Ok (rec, prec, ap) ∧
    (∀ r, last rec = Some r →
          r == inject_Z (Z.of_nat (size (claimed_boxes get_iou_cc ovthresh gv pv)))
               / inject_Z (Z.of_nat (length (gv ≫= snd)))) ∧
    (∀ p, last prec = Some p →
          p == inject_Z (Z.of_nat (size (claimed_boxes get_iou_cc ovthresh gv pv)))
               / inject_Z (Z.of_nat (length (pv ≫= snd)))).
Proof.
  intros Hnd.
  destruct (eval_det_cls_v_marks pv gv ovthresh use_07_metric Hnd)
    as (tp & fp & ap & Hmarked & Hlen & Hcount & _ & Hrun).
  eexists _, _, ap. split; [exact Hrun|]. split.
  - intros r Hr. unfold precision_recall in Hr. cbn [fst] in Hr.
    rewrite fmap_last in Hr.
    destruct (last (cumsum tp)) as [c|] eqn:Hc; [|done].
    simpl in Hr. injection Hr as <-. apply cumsum_last in Hc.
    rewrite Hc, Hcount, construct_gt_v_npos. done.
  - intros p Hp. rewrite last_lookup in Hp.
    destruct (precision_recall_lengths tp fp (construct_gt_v gv).2)
      as [_ Hl2]; [by eapply Forall2_length|].
    rewrite Hl2 in Hp. apply lookup_lt_Some in Hp as Hlt.
    rewrite Hl2 in Hlt.
    destruct (precision_entry tp fp (construct_gt_v gv).2
                (pred (length tp)) Hmarked Hlt)
      as (ct & cf & Hct & Hcf & Hsum & Hpi).
    rewrite Hpi in Hp. injection Hp as <-.
    assert (last (cumsum tp) = Some ct) as Hlast.
    { by rewrite last_lookup, cumsum_length. }
    apply cumsum_last in Hlast. rewrite Hsum, Hlast, Hcount.
    replace (S (pred (length tp))) with (length (pv ≫= snd)) by lia.
    done.
Qed.
End final_recall.
Lemma holds_gt_NoDup {F Box : Type} (h : heap F Box) (gt : loc)
    (gv : list (img_id * list Box)) :
  holds_gt h gt gv → NoDup gv.*1.
Proof.
  intros (d & _ & Hnd & HF).
  by rewrite <- (Forall2_keys
                  (λ l b, h !! l = Some (OBoxList b) ∨ h !! l = Some (OArray b))
                  d gv HF).
Qed.

Section threshold_facts.
Context {Box : Type}.
Variable get_iou_cc : Box → Box → Q.
Local Open Scope Q_scope.

Lemma claim_threshold (t t' : Q) (gv : list (img_id * list Box))
    (d : img_id * Box) (x : img_id * nat) :
  t <= t' → claim get_iou_cc t' gv d = Some x → claim get_iou_cc t gv d = Some x.
Proof.
  intros Ht. unfold claim, best_match. cbn [fst snd].
  destruct (overlap_scan get_iou_cc d.2 (default [] (assoc d.1 gv)) None None)
    as [[o|] j]; cbn [fst snd exceeds]; [|done].
  destruct (ltb t' o) eqn:Hlt'; [|done].
  apply Q_ltb_lt in Hlt'.
  assert (ltb t o = true) as -> by (apply Q_ltb_lt; lra). done.
Qed.

Lemma claimed_boxes_threshold (t t' : Q) (gv : list (img_id * list Box))
    (pv : list (img_id * list (Box * Q))) :
  t <= t' →
  claimed_boxes get_iou_cc t' gv pv ⊆ claimed_boxes get_iou_cc t gv pv.
Proof.
  intros Ht x. unfold claimed_boxes. rewrite !elem_of_list_to_set.
  rewrite !list_elem_of_omap. intros (d & Hd & Hx).
  exists d. split; [done|]. by eapply claim_threshold.
Qed.
End threshold_facts.

(** X10.  In exact arithmetic, when the class has a ground-truth box, the
    last recall [eval_det_cls] returns is the number of ground-truth boxes
    that some prediction claims (as its first box of largest IoU, above the
    threshold) over the number of ground-truth boxes, and the last precision
    is that number over the number of predictions; so neither depends on the
    scores or on the order of the predictions. *)
Theorem final_recall_claimed {Box : Type} (get_iou_cc : Box → Box → Q)
    (pred gt : loc) (ovthresh : Q) (use_07_metric : bool)
    (pv : list (img_id * list (Box * Q))) (gv : list (img_id * list Box))
    (h : heap Q Box) :
  holds_pred h pred pv → holds_gt h gt gv → gv ≫= snd ≠ [] →
  ∃ rec prec ap,
    (eval_det_cls get_iou_cc pred gt ovthresh use_07_metric h).1
    = Ok (rec, prec, ap) ∧
    (∀ r, last rec = Some r →
          (r == inject_Z (Z.of_nat (size (claimed_boxes get_iou_cc ovthresh gv pv)))
                / inject_Z (Z.of_nat (length (gv ≫= snd))))%Q) ∧
    (∀ p, last prec = Some p →
          (p == inject_Z (Z.of_nat (size (claimed_boxes get_iou_cc ovthresh gv pv)))
                / inject_Z (Z.of_nat (length (pv ≫= snd))))%Q).
Proof.
  intros Hp Hg _.
  rewrite (eval_det_cls_sim get_iou_cc pred gt ovthresh use_07_metric pv gv h Hp Hg).
  apply eval_det_cls_v_claimed. by eapply holds_gt_NoDup.
Qed.

Lemma final_recall_claimed_witness :
  let pv := [(0%nat, [(7%nat, div (of_Z 9) (of_Z 10));
                      (7%nat, div (of_Z 5) (of_Z 10))])] in
  let gv := [(0%nat, [7%nat])] in
  ∃ rec prec ap,
    (eval_det_cls (F:=Q) iou_one 1%positive 2%positive
                  (div (of_Z 1) (of_Z 4)) false scenario_B).1
    = Ok (rec, prec, ap) ∧
    (∀ r, last rec = Some r →
          (r == inject_Z (Z.of_nat (size (claimed_boxes iou_one
                                            (div (of_Z 1) (of_Z 4)) gv pv)))
                / inject_Z (Z.of_nat (length (gv ≫= snd))))%Q) ∧
    (∀ p, last prec = Some p →
          (p == inject_Z (Z.of_nat (size (claimed_boxes iou_one
                                            (div (of_Z 1) (of_Z 4)) gv pv)))
                / inject_Z (Z.of_nat (length (pv ≫= snd))))%Q).
Proof.
  apply (final_recall_claimed iou_one 1%positive 2%positive
           (div (of_Z 1) (of_Z 4)) false
           [(0%nat, [(7%nat, div (of_Z 9) (of_Z 10));
                     (7%nat, div (of_Z 5) (of_Z 10))])]
           [(0%nat, [7%nat])] scenario_B);
    [apply scenario_B_holds|apply scenario_B_holds|discriminate].
Defined.

(** X11.  In exact arithmetic, when the class has a ground-truth box,
    raising the IoU threshold never raises the last recall
    [eval_det_cls] returns. *)
Theorem final_recall_threshold {Box : Type} (get_iou_cc : Box → Box → Q)
    (pred gt : loc) (t t' : Q) (use_07_metric : bool)
    (pv : list (img_id * list (Box * Q))) (gv : list (img_id * list Box))
    (h : heap Q Box) :
  holds_pred h pred pv → holds_gt h gt gv → gv ≫= snd ≠ [] → (t <= t')%Q →
  ∃ rec prec ap rec' prec' ap',
    (eval_det_cls get_iou_cc pred gt t use_07_metric h).1 = Ok (rec, prec, ap) ∧
    (eval_det_cls get_iou_cc pred gt t' use_07_metric h).1
    = Ok (rec', prec', ap') ∧
    ∀ r r', last rec = Some r → last rec' = Some r' → (r' <= r)%Q.
Proof.
  intros Hp Hg Hne Ht.
  rewrite !(eval_det_cls_sim get_iou_cc pred gt _ use_07_metric pv gv h Hp Hg).
  pose proof (holds_gt_NoDup h gt gv Hg) as Hnd.
  destruct (eval_det_cls_v_claimed get_iou_cc pv gv t use_07_metric Hnd)
    as (rec & prec & ap & Hrun & Hlast & _).
  destruct (eval_det_cls_v_claimed get_iou_cc pv gv t' use_07_metric Hnd)
    as (rec' & prec' & ap' & Hrun' & Hlast' & _).
  exists rec, prec, ap, rec', prec', ap'. split_and!; [done..|].
  intros r r' Hr Hr'. rewrite (Hlast r Hr), (Hlast' r' Hr').
  pose proof (subseteq_size _ _ (claimed_boxes_threshold get_iou_cc t t' gv pv Ht))
    as Hsize.
  assert (0 < inject_Z (Z.of_nat (length (gv ≫= snd))))%Q as Hpos.
  { change 0%Q with (inject_Z 0). rewrite <- Zlt_Qlt.
    destruct (gv ≫= snd); [done|]. simpl. lia. }
  apply Qle_shift_div_l; [done|].
  unfold Qdiv. rewrite <- Qmult_assoc, (Qmult_comm (/ _)), Qmult_inv_r, Qmult_1_r
    by lra.
  rewrite <- Zle_Qle. lia.
Qed.

Lemma final_recall_threshold_witness :
  ∃ rec prec ap rec' prec' ap',
    (eval_det_cls (F:=Q) iou_one 1%positive 2%positive (1 # 4) false
                  scenario_B).1 = Ok (rec, prec, ap) ∧
    (eval_det_cls (F:=Q) iou_one 1%positive 2%positive (1 # 2) false
                  scenario_B).1 = Ok (rec', prec', ap') ∧
    ∀ r r', last rec = Some r → last rec' = Some r' → (r' <= r)%Q.
Proof.
  apply (final_recall_threshold iou_one 1%positive 2%positive (1 # 4) (1 # 2)
           false
           [(0%nat, [(7%nat, div (of_Z 9) (of_Z 10));
                     (7%nat, div (of_Z 5) (of_Z 10))])]
           [(0%nat, [7%nat])] scenario_B);
    [apply scenario_B_holds|apply scenario_B_holds|discriminate|].
  unfold Qle. simpl. lia.
Defined.

(* ===================================================================== *)
(** ** The average precision against the last recall *)
(* ===================================================================== *)

Section evaluator_curve.
Context {F : Type} `{Scalar F} {Box : Type}.
Variable get_iou_cc : Box → Box → F.

Lemma eval_det_cls_v_voc_ap (pv : list (img_id * list (Box * F)))
    (gv : list (img_id * list Box)) (ovthresh : F) (use_07_metric : bool)
    (rec prec : list F) (ap : F) :
  eval_det_cls_v get_iou_cc pv gv ovthresh use_07_metric = Ok (rec, prec, ap) →
  voc_ap rec prec use_07_metric = Ok ap.
Proof.
  intros Hev.
  destruct (eval_det_cls_v_sorted pv)
    as (image_ids & BB & Hids & HBB & _ & _ & Hnd & Hlen & Hkeys).
  destruct (eval_det_cls_v_run get_iou_cc pv gv ovthresh use_07_metric
              (λ _ _ _, True) image_ids BB Hids HBB Hlen Hkeys)
    as (recs' & st' & ap' & _ & Htp & Hfp & Hap & Hrun); [done..|].
  cbv zeta in Hap, Hrun. rewrite Hrun in Hev. by injection Hev as <- <- <-.
Qed.
End evaluator_curve.

Section recall_bound.
Local Open Scope Q_scope.

Lemma Forall2_Qle_Qeq (a b c : list Q) :
  Forall2 Qle a b → Forall2 Qeq b c → Forall2 Qle a c.
Proof.
  intros Hab. revert c. induction Hab as [|x y a b Hxy _ IH]; intros c Hbc.
  - apply Forall2_nil_inv_l in Hbc as ->. constructor.
  - apply Forall2_cons_inv_l in Hbc as (z & c' & Hyz & Hbc & ->).
    constructor; [lra|by apply IH].
Qed.

Lemma voc_ap_exact_le_last (rec prec : list Q) (r : Q) :
  length rec = length prec →
  Forall unit_interval rec → non_decreasing rec → Forall unit_interval prec →
  last rec = Some r →
  ∃ ap, voc_ap rec prec false = Ok ap ∧ ap <= r.
Proof.
  intros Hlen Hu Hnd Hp Hlast.
  destruct (voc_ap_exact_area rec prec Hlen) as (ap & Hap & Harea).
  exists ap. split; [done|]. rewrite Harea.
  assert (Forall2 Qle (prec ++ [0]) (replicate (length prec) 1 ++ [0])) as Hle.
  { apply Forall2_app; [|by repeat constructor].
    clear -Hp. induction Hp as [|p prec [_ Hp1] _ IH]; simpl; by constructor. }
  apply running_max_mono in Hle.
  assert (Forall (λ p, p == 1) (replicate (length prec) 1)) as Hones.
  { apply Forall_forall. intros x Hx. by apply elem_of_replicate in Hx as [-> _]. }
  pose proof (running_max_ones _ Hones) as Heq.
  rewrite length_replicate in Heq.
  pose proof (Forall2_Qle_Qeq _ _ _ Hle Heq) as Hle'.
  eapply Qle_trans.
  { apply zip_mult_le; [by apply recall_steps_nonneg|exact Hle']. }
  rewrite <- Hlen, telescope, Hlast. simpl. lra.
Qed.

Lemma running_max_zeros (l : list Q) :
  Forall (λ p, p == 0) l → Forall (λ p, p == 0) (running_max l).
Proof.
  induction 1 as [|x l Hx _ IH]; [done|]. simpl.
  destruct IH as [|y r Hy IH]; [by constructor|].
  constructor; [|by constructor].
  destruct (Q_maximum_cases x y) as [[-> _]|[-> _]]; done.
Qed.

Lemma zip_mult_zeros (w c : list Q) :
  Forall (λ p, p == 0) c → Qsum (zip_with Qmult w c) == 0.
Proof.
  intros Hc. revert w. induction Hc as [|x c Hx _ IH]; intros [|u w]; simpl;
    try done.
  rewrite IH, Hx. lra.
Qed.

Lemma voc_ap_zero_precision (rec prec : list Q) (use_07_metric : bool) :
  length rec = length prec → Forall (λ p, p == 0) prec →
  ∃ ap, voc_ap rec prec use_07_metric = Ok ap ∧ ap == 0.
Proof.
  intros Hlen Hp. destruct use_07_metric.
  - destruct (voc_ap_07_exact_arith rec prec Hlen)
      as (ps & ap & Hps & Hap & _ & Hmean).
    exists ap. split; [done|]. rewrite Hmean.
    assert (Forall (λ p, p == 0) ps) as Hz.
    { apply Forall_forall. intros p Hin.
      apply list_elem_of_lookup in Hin as [i Hi].
      destruct (Forall2_lookup_r _ _ _ _ _ Hps Hi) as (t & _ & Hm).
      destruct Hm as [[_ ->]|[(k & r & _ & _ & Hk) _]]; [done|].
      by eapply Forall_lookup_1 in Hp. }
    assert (Qsum ps == 0) as ->.
    { clear -Hz. induction Hz as [|x l Hx _ IH]; simpl; [done|].
      rewrite Hx, IH. lra. }
    by vm_compute.
  - destruct (voc_ap_exact_area rec prec Hlen) as (ap & Hap & Harea).
    exists ap. split; [done|]. rewrite Harea.
    apply zip_mult_zeros, running_max_zeros, Forall_app. split; [done|].
    by repeat constructor.
Qed.
End recall_bound.
(** X12.  In exact arithmetic, when the class has a ground-truth box, the
    exact (area) average precision [eval_det_cls] returns never exceeds the
    last recall it returns. *)
Theorem eval_det_cls_ap_le_recall {Box : Type} (get_iou_cc : Box → Box → Q)
    (pred gt : loc) (ovthresh : Q)
    (pv : list (img_id * list (Box * Q))) (gv : list (img_id * list Box))
    (h : heap Q Box) :
  holds_pred h pred pv → holds_gt h gt gv → gv ≫= snd ≠ [] →
  ∃ rec prec ap,
    (eval_det_cls get_iou_cc pred gt ovthresh false h).1 = Ok (rec, prec, ap) ∧
    ∀ r, last rec = Some r → (ap <= r)%Q.
Proof.
  intros Hp Hg Hne.
  rewrite (eval_det_cls_sim get_iou_cc pred gt ovthresh false pv gv h Hp Hg).
  destruct (eval_det_cls_v_unit get_iou_cc pv gv ovthresh false Hne)
    as (rec & prec & ap & Hrun & Hrec & Hnd & Hprec & _).
  exists rec, prec, ap. split; [done|]. intros r Hr.
  destruct (eval_det_cls_v_Ok get_iou_cc pv gv ovthresh false)
    as (rec' & prec' & ap' & Hrun' & Hl1 & Hl2).
  rewrite Hrun in Hrun'. injection Hrun' as <- <- <-.
  destruct (voc_ap_exact_le_last rec prec r ltac:(lia) Hrec Hnd Hprec Hr)
    as (ap' & Hap' & Hle).
  apply eval_det_cls_v_voc_ap in Hrun. rewrite Hap' in Hrun.
  by injection Hrun as <-.
Qed.

Lemma eval_det_cls_ap_le_recall_witness :
  ∃ rec prec ap,
    (eval_det_cls (F:=Q) iou_one 1%positive 2%positive (1 # 4) false
                  scenario_B).1 = Ok (rec, prec, ap) ∧
    ∀ r, last rec = Some r → (ap <= r)%Q.
Proof.
  apply (eval_det_cls_ap_le_recall iou_one 1%positive 2%positive (1 # 4)
           [(0%nat, [(7%nat, div (of_Z 9) (of_Z 10));
                     (7%nat, div (of_Z 5) (of_Z 10))])]
           [(0%nat, [7%nat])] scenario_B);
    [apply scenario_B_holds|apply scenario_B_holds|discriminate].
Defined.

Section no_claim.
Context {Box : Type}.
Variable get_iou_cc : Box → Box → Q.
Local Open Scope Q_scope.

Lemma eval_det_cls_v_no_claim (pv : list (img_id * list (Box * Q)))
    (gv : list (img_id * list Box)) (ovthresh : Q) (use_07_metric : bool) :
  NoDup gv.*1 → gv ≫= snd ≠ [] →
  claimed_boxes get_iou_cc ovthresh gv pv = ∅ →
  ∃ rec prec ap,
    eval_det_cls_v get_iou_cc pv gv ovthresh use_07_metric = Ok (rec, prec, ap) ∧
    Forall (λ r, r == 0) rec ∧ Forall (λ p, p == 0) prec ∧ ap == 0.
Proof.
  intros Hnd Hne Hclaim.
  destruct (eval_det_cls_v_marks get_iou_cc pv gv ovthresh use_07_metric Hnd)
    as (tp & fp & ap & Hmarked & Hlen & Hcount & Hap & Hrun).
  rewrite Hclaim, size_empty in Hcount. change (inject_Z (Z.of_nat 0)) with 0 in Hcount.
  destruct (marked_once_nonneg tp fp Hmarked) as [Ht _].
  destruct (cumsum_bounds tp Ht) as [Hb _].
  assert (Forall (λ r, r == 0) (precision_recall tp fp (construct_gt_v gv).2).1)
    as Hrec.
  { apply Forall_lookup. intros i r Hr. unfold precision_recall in Hr.
    cbn [fst] in Hr. rewrite list_lookup_fmap in Hr.
    destruct (cumsum tp !! i) as [c|] eqn:Hc; [|done].
    simpl in Hr. injection Hr as <-. apply Hb in Hc.
    assert (c == 0) as -> by lra.
    change (div 0 ?b) with (0 / b). unfold Qdiv. lra. }
  assert (Forall (λ p, p == 0) (precision_recall tp fp (construct_gt_v gv).2).2)
    as Hprec.
  { apply Forall_lookup. intros i p Hp.
    assert (i < length tp)%nat as Hi.
    { apply lookup_lt_Some in Hp.
      destruct (precision_recall_lengths tp fp (construct_gt_v gv).2) as [_ Hl];
        [by eapply Forall2_length|]. lia. }
    destruct (precision_entry tp fp (construct_gt_v gv).2 i Hmarked Hi)
      as (ct & cf & Hct & _ & _ & Hpi).
    rewrite Hpi in Hp. injection Hp as <-. apply Hb in Hct.
    assert (ct == 0) as -> by lra. unfold Qdiv. lra. }
  eexists _, _, ap. split; [exact Hrun|]. split_and!; [done..|].
  destruct (precision_recall_lengths tp fp (construct_gt_v gv).2) as [Hl1 Hl2];
    [by eapply Forall2_length|].
  destruct (voc_ap_zero_precision
              (precision_recall tp fp (construct_gt_v gv).2).1
              (precision_recall tp fp (construct_gt_v gv).2).2 use_07_metric)
    as (ap' & Hap' & Hz); [lia|done|].
  rewrite Hap' in Hap. by injection Hap as <-.
Qed.
End no_claim.

(** X13.  In exact arithmetic, when the class has a ground-truth box and no
    prediction claims one (none has an IoU above the threshold with a box of
    its image), every recall and every precision [eval_det_cls] returns is 0,
    and so is the average precision, in both modes. *)
Theorem eval_det_cls_no_claim {Box : Type} (get_iou_cc : Box → Box → Q)
    (pred gt : loc) (ovthresh : Q) (use_07_metric : bool)
    (pv : list (img_id * list (Box * Q))) (gv : list (img_id * list Box))
    (h : heap Q Box) :
  holds_pred h pred pv → holds_gt h gt gv → gv ≫= snd ≠ [] →
  claimed_boxes get_iou_cc ovthresh gv pv = ∅ →
  ∃ rec prec ap,
    (eval_det_cls get_iou_cc pred gt ovthresh use_07_metric h).1
    = Ok (rec, prec, ap) ∧
    Forall (λ r, r == 0)%Q rec ∧ Forall (λ p, p == 0)%Q prec ∧ (ap == 0)%Q.
Proof.
  intros Hp Hg Hne Hclaim.
  rewrite (eval_det_cls_sim get_iou_cc pred gt ovthresh use_07_metric pv gv h Hp Hg).
  apply eval_det_cls_v_no_claim; [by eapply holds_gt_NoDup|done..].
Qed.

Lemma eval_det_cls_no_claim_witness :
  ∃ rec prec ap,
    (eval_det_cls (F:=Q) iou_one 1%positive 2%positive 1%Q true scenario_B).1
    = Ok (rec, prec, ap) ∧
    Forall (λ r, r == 0)%Q rec ∧ Forall (λ p, p == 0)%Q prec ∧ (ap == 0)%Q.
Proof.
  apply (eval_det_cls_no_claim iou_one 1%positive 2%positive 1%Q true
           [(0%nat, [(7%nat, div (of_Z 9) (of_Z 10));
                     (7%nat, div (of_Z 5) (of_Z 10))])]
           [(0%nat, [7%nat])] scenario_B);
    [apply scenario_B_holds|apply scenario_B_holds|discriminate|reflexivity].
Defined.

(* ===================================================================== *)
(** ** The order of the predictions, and [jmax] *)
(* ===================================================================== *)

Section sort_facts.
Local Open Scope Q_scope.

Lemma argsort_insert_ascending (x : nat * Q) (l : list (nat * Q)) :
  ascending l → ascending (argsort_insert x l).
Proof.
  induction l as [|y l IH]; intros Hl; [by repeat split|].
  cbn [ascending] in Hl. destruct Hl as [Hy Hl]. cbn [argsort_insert].
  destruct (ltb x.2 y.2) eqn:Hlt.
  - apply Q_ltb_lt in Hlt. cbn [ascending]. split; [|by split].
    constructor; [lra|]. eapply Forall_impl; [exact Hy|]. simpl. intros z Hz. lra.
  - apply Q_ltb_ge in Hlt. cbn [ascending]. split; [|by apply IH].
    rewrite argsort_insert_perm. by constructor.
Qed.

Lemma argsort_fold_ascending (l acc : list (nat * Q)) :
  ascending acc →
  ascending (fold_left (λ sorted x, argsort_insert x sorted) l acc).
Proof.
  revert acc. induction l as [|x l IH]; intros acc Hacc; [done|].
  simpl. by apply IH, argsort_insert_ascending.
Qed.

Lemma ascending_lookup (l : list (nat * Q)) (i j : nat) (x y : nat * Q) :
  ascending l → (i < j)%nat → l !! i = Some x → l !! j = Some y → x.2 <= y.2.
Proof.
  revert i j. induction l as [|z l IH]; intros i j Hasc Hij Hi Hj; [done|].
  cbn [ascending] in Hasc. destruct Hasc as [Hz Hl].
  destruct j as [|j]; [lia|]. destruct i as [|i]; simpl in *.
  - simplify_eq. eapply Forall_lookup_1 in Hz; [|exact Hj]. done.
  - apply (IH i j); [done|lia|done..].
Qed.

Lemma elem_of_imap_pair {A} (a : list A) (i : nat) (k : A) :
  (i, k) ∈ imap pair a → a !! i = Some k.
Proof.
  intros Hin. apply list_elem_of_lookup in Hin as [j Hj].
  rewrite list_lookup_imap in Hj.
  destruct (a !! j) as [u|] eqn:Hu; [|done].
  simpl in Hj. by simplify_eq.
Qed.
End sort_facts.

(** [np.argsort(-confidence)] lists every index once, and (in exact
    arithmetic) by confidence that never increases. *)
Lemma argsort_descending (confidence : list Q) :
  let sorted_ind := argsort (neg <$> confidence) in
  sorted_ind ≡ₚ seq 0 (length confidence) ∧
  ∀ i j a b sa sb,
    (i < j)%nat → sorted_ind !! i = Some a → sorted_ind !! j = Some b →
    confidence !! a = Some sa → confidence !! b = Some sb → (sb <= sa)%Q.
Proof.
  intros sorted_ind. split.
  { subst sorted_ind. by rewrite argsort_perm, length_fmap. }
  intros i j a b sa sb Hij Hi Hj Ha Hb.
  subst sorted_ind. unfold argsort in Hi, Hj.
  set (res := fold_left (λ sorted x, argsort_insert x sorted)
                (imap pair (neg <$> confidence)) []) in *.
  rewrite list_lookup_fmap in Hi, Hj.
  destruct (res !! i) as [[a' ka]|] eqn:Hri; [|done].
  destruct (res !! j) as [[b' kb]|] eqn:Hrj; [|done].
  simpl in Hi, Hj. simplify_eq.
  assert (ascending res) as Hasc by (by apply argsort_fold_ascending).
  pose proof (ascending_lookup res i j _ _ Hasc Hij Hri Hrj) as Hle.
  assert (∀ k x, res !! k = Some x → (neg <$> confidence) !! x.1 = Some x.2)
    as Hkeys.
  { intros k [x kx] Hk. apply elem_of_imap_pair.
    rewrite <- (app_nil_r (imap pair (neg <$> confidence))).
    rewrite <- (argsort_fold_perm (imap pair (neg <$> confidence)) []).
    by eapply list_elem_of_lookup_2. }
  pose proof (Hkeys i _ Hri) as Hka. pose proof (Hkeys j _ Hrj) as Hkb.
  simpl in Hka, Hkb, Hle.
  rewrite list_lookup_fmap, Ha in Hka. rewrite list_lookup_fmap, Hb in Hkb.
  simpl in Hka, Hkb. simplify_eq. lra.
Qed.

(** X14.  In exact arithmetic, on maps of the documented shapes: the
    arrays [image_ids], [confidence] and [BB] after [x = x[sorted_ind]]
    hold every prediction of the class once, by confidence that never
    increases, and the marking loop of [eval_det_cls] runs over these
    arrays, round [d] on their entries at index [d]: each prediction is
    processed once, from the most to the least confident. *)
Theorem sorted_by_confidence {Box : Type} (get_iou_cc : Box → Box → Q)
    (pred gt : loc) (ovthresh : Q) (use_07_metric : bool)
    (pv : list (img_id * list (Box * Q))) (gv : list (img_id * list Box))
    (h : heap Q Box) :
  holds_pred h pred pv → holds_gt h gt gv →
  let dets := construct_dets_v pv in
  let sorted_ind := argsort (neg <$> dets.1.2) in
  let gts := construct_gt_v gv in
  let recs := pad_empty_v pv gv gts.1 in
  ∃ image_ids confidence BB,
    take_indices dets.1.1 sorted_ind = Ok image_ids ∧
    take_indices dets.1.2 sorted_ind = Ok confidence ∧
    take_indices dets.2 sorted_ind = Ok BB ∧
    zip (zip image_ids confidence) BB ≡ₚ zip (zip dets.1.1 dets.1.2) dets.2 ∧
    length image_ids = length (pv ≫= snd) ∧
    (∀ i j si sj, (i < j)%nat →
       confidence !! i = Some si → confidence !! j = Some sj → (sj <= si)%Q) ∧
    (eval_det_cls get_iou_cc pred gt ovthresh use_07_metric h).1
    = (let nd := length image_ids in
       s ← foldM (mark_det_v get_iou_cc image_ids BB ovthresh)
                 (recs, MarkState (replicate nd lit_0) (replicate nd lit_0) None)
                 (seq 0 nd);
       let pr := precision_recall (tp s.2) (fp s.2) gts.2 in
       ap ← voc_ap pr.1 pr.2 use_07_metric;
       Ok (pr.1, pr.2, ap)).
Proof.
  intros Hpred Hgt dets sorted_ind gts recs.
  destruct (construct_dets_v_lengths pv) as (L1 & L2 & L3).
  fold dets in L1, L2, L3.
  assert (Forall (λ i, (i < length (pv ≫= snd))%nat) sorted_ind) as Hb.
  { subst sorted_ind. rewrite <- L2, <- (length_fmap neg). apply argsort_bounds. }
  assert (sorted_ind ≡ₚ seq 0 (length (pv ≫= snd))) as Hperm.
  { subst sorted_ind. by rewrite argsort_perm, length_fmap, L2. }
  destruct (take_indices_Ok dets.1.1 sorted_ind) as (image_ids & Hi & HFi).
  { by rewrite L1. }
  destruct (take_indices_Ok dets.1.2 sorted_ind) as (confidence & Hc & HFc).
  { by rewrite L2. }
  destruct (take_indices_Ok dets.2 sorted_ind) as (BB & HB & HFB).
  { by rewrite L3. }
  exists image_ids, confidence, BB. split_and!; [done|done|done| | | |].
  - apply (lookups_perm _ sorted_ind).
    + apply take_indices_zip; [|done]. by apply take_indices_zip.
    + by rewrite !length_zip, L1, L2, L3, !Nat.min_id.
  - apply Forall2_length in HFi. apply Permutation_length in Hperm.
    rewrite length_seq in Hperm. lia.
  - intros i j si sj Hij Hsi Hsj.
    eapply Forall2_lookup_r in Hsi as (a & Ha & Hca); [|exact HFc].
    eapply Forall2_lookup_r in Hsj as (b & Hb' & Hcb); [|exact HFc].
    exact (proj2 (argsort_descending dets.1.2) i j a b si sj Hij Ha Hb' Hca Hcb).
  - rewrite (eval_det_cls_sim get_iou_cc pred gt ovthresh use_07_metric pv gv h)
      by done.
    unfold eval_det_cls_v. cbv zeta. fold dets. fold sorted_ind.
    by rewrite HB, Hi.
Qed.

Lemma sorted_by_confidence_witness :
  ∃ image_ids confidence BB,
    take_indices [0%nat; 0%nat] [1%nat; 0%nat] = Ok image_ids ∧
    take_indices [(5 # 10)%Q; (9 # 10)%Q] [1%nat; 0%nat] = Ok confidence ∧
    take_indices [8%nat; 7%nat] [1%nat; 0%nat] = Ok BB ∧
    zip (zip image_ids confidence) BB
    ≡ₚ [(0%nat, (5 # 10)%Q, 8%nat); (0%nat, (9 # 10)%Q, 7%nat)] ∧
    length image_ids = 2%nat ∧
    (∀ i j si sj, (i < j)%nat →
       confidence !! i = Some si → confidence !! j = Some sj → (sj <= si)%Q) ∧
    (eval_det_cls (F:=Q) iou_one 1%positive 2%positive (1 # 4)%Q false
                  scenario_B_reversed).1
    = (let nd := length image_ids in
       s ← foldM (mark_det_v iou_one image_ids BB (1 # 4)%Q)
                 ({[0%nat := ([7%nat], [false])]},
                  MarkState (replicate nd lit_0) (replicate nd lit_0) None)
                 (seq 0 nd);
       let pr := precision_recall (tp s.2) (fp s.2) 1 in
       ap ← voc_ap pr.1 pr.2 false;
       Ok (pr.1, pr.2, ap)).
Proof.
  exact (sorted_by_confidence iou_one 1%positive 2%positive (1 # 4)%Q false
           [(0%nat, [(8%nat, (5 # 10)%Q); (7%nat, (9 # 10)%Q)])]
           [(0%nat, [7%nat])] scenario_B_reversed
           (proj1 scenario_B_reversed_holds)
           (proj2 scenario_B_reversed_holds)).
Defined.

Section jmax_facts.
Context {F : Type} `{Scalar F} {Box : Type}.
Variable get_iou_cc : Box → Box → F.
Local Abbreviation M := (M F Box).

Lemma bind_never {A B} (e : exn) (m : M A) (f : A → M B) (h : heap F Box) :
  (m h).1 ≠ Raise e → (∀ a h', (f a h').1 ≠ Raise e) →
  ((m ≫= f) h).1 ≠ Raise e.
Proof.
  intros Hm Hf. rewrite run_bind.
  destruct (m h) as [[a|e'] h']; simpl in *; [apply Hf|].
  intros [= ->]. by destruct Hm.
Qed.

Lemma lift_never {A} (e e' : exn) (o : option A) (h : heap F Box) :
  e' ≠ e → (lift (or_raise e' o) h).1 ≠ Raise e.
Proof. intros Hne. destruct o; simpl; congruence. Qed.

Lemma deref_never (l : loc) (h : heap F Box) :
  (deref l h).1 ≠ Raise UnboundLocalError.
Proof. unfold deref. simpl. by destruct (h !! l). Qed.

Lemma read_array_never (l : loc) (h : heap F Box) :
  (read_array l h).1 ≠ Raise UnboundLocalError.
Proof.
  unfold read_array. apply bind_never; [apply deref_never|].
  by intros [] h'.
Qed.

Lemma read_det_list_never (l : loc) (h : heap F Box) :
  (read_det_list l h).1 ≠ Raise UnboundLocalError.
Proof.
  unfold read_det_list. apply bind_never; [apply deref_never|].
  by intros [] h'.
Qed.

Lemma det_setitem_never (l : loc) (j : nat) (v : bool) (h : heap F Box) :
  (det_setitem l j v h).1 ≠ Raise UnboundLocalError.
Proof.
  unfold det_setitem. apply bind_never; [apply read_det_list_never|].
  intros dets h'. by destruct (decide _).
Qed.

Lemma mark_det_bound (class_recs : gmap img_id class_rec)
    (image_ids : list img_id) (BB : list Box) (ovthresh : F)
    (st : mark_state F) (d : nat) (h : heap F Box) :
  (mark_det get_iou_cc class_recs image_ids BB ovthresh st d h).1
  ≠ Raise UnboundLocalError.
Proof.
  unfold mark_det.
  apply bind_never; [by apply lift_never|]. intros img h1.
  apply bind_never; [by apply lift_never|]. intros R h2.
  apply bind_never; [by apply lift_never|]. intros bb h3.
  apply bind_never; [apply read_array_never|]. intros BBGT h4.
  cbv zeta.
  assert (match BBGT with
          | [] => (None, jmax st)
          | _ => overlap_scan get_iou_cc bb BBGT None (jmax st)
          end = overlap_scan get_iou_cc bb BBGT None (jmax st)) as ->
    by (by destruct BBGT).
  destruct (overlap_scan_shape get_iou_cc bb BBGT (jmax st))
    as [->|(k & g & _ & ->)]; cbn [fst snd exceeds]; [done|].
  destruct (ltb ovthresh (get_iou_cc bb g)); [|done].
  apply bind_never; [done|]. intros j h5.
  apply bind_never; [apply read_det_list_never|]. intros dets h6.
  apply bind_never; [by apply lift_never|]. intros flag h7.
  destruct flag; simpl; [done|].
  apply bind_never; [apply det_setitem_never|]. done.
Qed.

Lemma result_bind_never {A B} (e : exn) (m : result A) (f : A → result B) :
  m ≠ Raise e → (∀ a, f a ≠ Raise e) → m ≫= f ≠ Raise e.
Proof.
  intros Hm Hf. destruct m as [a|e']; [apply Hf|].
  intros [= ->]. by destruct Hm.
Qed.

Lemma or_raise_never {A} (e e' : exn) (o : option A) :
  e' ≠ e → or_raise e' o ≠ Raise e.
Proof. intros Hne. destruct o; simpl; congruence. Qed.

Lemma result_foldM_never {S A} (e : exn) (body : S → A → result S)
    (l : list A) (s : S) :
  (∀ s x, body s x ≠ Raise e) → foldM body s l ≠ Raise e.
Proof.
  intros Hb. revert s. induction l as [|x l IH]; intros s; [done|].
  rewrite foldM_cons. apply result_bind_never; [apply Hb|apply IH].
Qed.

Lemma result_mapM_never {A B} (e : exn) (f : A → result B) (l : list A) :
  (∀ x, f x ≠ Raise e) → mapM f l ≠ Raise e.
Proof.
  intros Hf. induction l as [|x l IH]; [done|]. simpl.
  apply result_bind_never; [apply Hf|]. intros y.
  apply result_bind_never; [apply IH|]. done.
Qed.

Lemma foldM_never {S A} (e : exn) (body : S → A → M S) (l : list A) (s : S)
    (h : heap F Box) :
  (∀ s x h, (body s x h).1 ≠ Raise e) → (foldM body s l h).1 ≠ Raise e.
Proof.
  intros Hb. revert s h. induction l as [|x l IH]; intros s h; [done|].
  apply bind_never; [apply Hb|]. intros s' h'. apply IH.
Qed.

Lemma voc_ap_never (rec prec : list F) (use_07_metric : bool) :
  voc_ap rec prec use_07_metric ≠ Raise UnboundLocalError.
Proof.
  destruct use_07_metric; simpl.
  - apply result_foldM_never. intros ap t. unfold voc_ap_07_step. cbv zeta.
    apply result_bind_never; [|done].
    destruct (Nat.eqb _ 0); [done|].
    apply result_bind_never.
    + unfold bool_index. by destruct (decide _).
    + intros sel. by destruct sel.
  - unfold voc_ap_exact. apply result_bind_never.
    + apply result_foldM_never. intros mpre i. unfold envelope_step.
      apply result_bind_never; [by apply or_raise_never|]. intros a.
      apply result_bind_never; [by apply or_raise_never|]. done.
    + intros mpre. apply result_bind_never; [|done].
      apply result_mapM_never. intros i. unfold area_term.
      apply result_bind_never; [by apply or_raise_never|]. intros a.
      apply result_bind_never; [by apply or_raise_never|]. intros b.
      apply result_bind_never; [by apply or_raise_never|]. done.
Qed.

Lemma read_img_dict_never (l : loc) (h : heap F Box) :
  (read_img_dict l h).1 ≠ Raise UnboundLocalError.
Proof.
  unfold read_img_dict. apply bind_never; [apply deref_never|].
  by intros [] h'.
Qed.

Lemma img_getitem_never (l : loc) (k : img_id) (h : heap F Box) :
  (img_getitem l k h).1 ≠ Raise UnboundLocalError.
Proof.
  unfold img_getitem. apply bind_never; [apply read_img_dict_never|].
  intros d h'. by apply lift_never.
Qed.

Lemma img_keys_never (l : loc) (h : heap F Box) :
  (img_keys l h).1 ≠ Raise UnboundLocalError.
Proof.
  unfold img_keys. apply bind_never; [apply read_img_dict_never|]. done.
Qed.

Lemma eval_det_cls_bound (pred gt : loc) (ovthresh : F) (use_07_metric : bool)
    (h : heap F Box) :
  (eval_det_cls get_iou_cc pred gt ovthresh use_07_metric h).1
  ≠ Raise UnboundLocalError.
Proof.
  unfold eval_det_cls. apply bind_never.
  { unfold construct_gt. apply bind_never; [apply img_keys_never|].
    intros keys h1. apply foldM_never. intros acc img h2.
    unfold construct_gt_step.
    apply bind_never; [apply img_getitem_never|]. intros l h3.
    apply bind_never.
    { unfold read_boxes. apply bind_never; [apply deref_never|]. by intros [] h'. }
    intros boxes h4. rewrite run_alloc_bind, run_alloc_bind. done. }
  intros gts h1. apply bind_never.
  { unfold pad_empty. apply bind_never; [apply img_keys_never|].
    intros keys h2. apply foldM_never. intros recs img h3.
    unfold pad_empty_step. apply bind_never.
    { unfold img_contains. apply bind_never; [apply read_img_dict_never|]. done. }
    intros present h4. destruct present; [done|].
    rewrite run_alloc_bind, run_alloc_bind. done. }
  intros class_recs h2. apply bind_never.
  { unfold construct_dets. apply bind_never; [apply img_keys_never|].
    intros keys h3. apply foldM_never. intros acc img h4.
    unfold construct_dets_step.
    apply bind_never; [apply img_getitem_never|]. intros l h5.
    apply bind_never; [|done].
    unfold read_pred_list. apply bind_never; [apply deref_never|].
    by intros [] h'. }
  intros [[image_ids confidence] BB] h3.
  apply bind_never.
  { unfold lift, take_indices. simpl. apply result_mapM_never.
    intros x. by apply or_raise_never. }
  intros BB' h4. apply bind_never.
  { unfold lift, take_indices. simpl. apply result_mapM_never.
    intros x. by apply or_raise_never. }
  intros image_ids' h5. apply bind_never.
  { unfold mark_dets. apply foldM_never. intros st d h6. apply mark_det_bound. }
  intros st h6.
  destruct (precision_recall (tp st) (fp st) gts.2) as [rec prec].
  apply bind_never; [|done]. unfold lift. simpl. apply voc_ap_never.
Qed.
End jmax_facts.

(** X15.  [jmax], which only the overlap scan assigns, is never read
    before it is assigned: whatever the store holds, [eval_det_cls] does not
    raise UnboundLocalError.  ([ovmax > ovthresh] holds only after the scan of
    the current detection has assigned both [ovmax] and [jmax].) *)
Theorem eval_det_cls_jmax_bound {F : Type} `{Scalar F} {Box : Type}
    (get_iou_cc : Box → Box → F) (pred gt : loc) (ovthresh : F)
    (use_07_metric : bool) (h : heap F Box) :
  (eval_det_cls get_iou_cc pred gt ovthresh use_07_metric h).1
  ≠ Raise UnboundLocalError ∧
  ∀ class_recs image_ids BB st d,
    (mark_det get_iou_cc class_recs image_ids BB ovthresh st d h).1
    ≠ Raise UnboundLocalError.
Proof.
  split; [apply eval_det_cls_bound|]. intros. apply mark_det_bound.
Qed.

(** X16.  [eval_det] modifies neither of its two inputs: the store it
    leaves extends the store it started from, so [pred_all], [gt_all] and
    the maps and lists they hold read as before, whether the call returns or
    raises.  (The report works on the file system, the logger and the
    current figure, none of which is an object of the store.) *)
Theorem eval_det_inputs_unchanged {F : Type} `{Scalar F} {Box : Type}
    (get_iou_cc : Box → Box → F)
    (report : string →
              gmap string (list F) * gmap string (list F) * gmap string F →
              result unit)
    (pred_all gt_all : loc) (ovthresh : F)
    (use_07_metric : bool) (result_dir : option string) (h : heap F Box) :
  let h' := (eval_det get_iou_cc report pred_all gt_all ovthresh use_07_metric
                      result_dir h).2 in
  h ⊆ h' ∧
  (∀ l, is_Some (h !! l) → h' !! l = h !! l) ∧
  (∀ cv, holds_classes h pred_all gt_all cv → holds_classes h' pred_all gt_all cv).
Proof.
  intros h'.
  assert (h ⊆ h') as Hsub.
  { subst h'. unfold eval_det.
    rewrite run_bind_read by apply class_keys_store.
    destruct (class_keys gt_all h).1 as [keys|e]; [|done].
    rewrite run_bind.
    pose proof (foldM_frame
                  (eval_det_step get_iou_cc pred_all gt_all ovthresh use_07_metric)
                  (λ _, True) h keys (∅, ∅, ∅) h) as [Hf _]; [|done|done|].
    { intros s x h1 Hh1 _. split; [|done].
      etrans; [exact Hh1|]. apply eval_det_step_frame. }
    destruct (foldM (eval_det_step get_iou_cc pred_all gt_all ovthresh
                       use_07_metric) (∅, ∅, ∅) keys h) as [[r|e] h1]; [|done].
    destruct result_dir as [dir|]; [|done].
    rewrite run_bind. unfold lift. by destruct (report dir r). }
  split; [done|]. split.
  - intros l [o Ho]. rewrite Ho. by eapply lookup_weaken.
  - intros cv (dp & dg & Hp & Hg & Hnd & HF). exists dp, dg.
    split_and!; [by eapply lookup_weaken|by eapply lookup_weaken|done|].
    eapply Forall2_impl; [exact HF|]. simpl.
    intros e v (Hev & p & Hpe & Hhp & Hhg). split; [done|].
    exists p. split_and!; [done| |].
    + by eapply holds_pred_weaken.
    + by eapply holds_gt_weaken.
Qed.
